(** * Offline player: track store, library state and playback coordinator

    A shallow embedding of [src/types.ts], [src/services/db.ts] and the
    handlers and effects of the [App] component in [src/App.tsx].

    React state is a record; a handler reads the values captured by its
    closure (the state at the time the intent is dispatched) and produces
    the state after all its [setX] calls; the effects whose dependencies
    changed then run against the environment (the audio element, the
    registry of object URLs, the IndexedDB object store, the console).
    Intents are processed one at a time: an [async] handler runs to
    completion before the next intent is dispatched. *)

From Stdlib Require Import ZArith List String Ascii Bool Lia QArith.
From Stdlib Require Import DecimalString DecimalNat Sorted.
Import ListNotations.

Local Open Scope string_scope.
Local Open Scope list_scope.
Local Open Scope Z_scope.

(** ** Data model ([src/types.ts]) *)

(** A [Blob]: its media type and its bytes.  A [File] is a [Blob] with a
    name; the [Track] fields are typed [Blob] and hold the [File] objects
    the user picked. *)
Record Blob : Type := mkBlob {
  blob_name : string;
  blob_type : string;
  blob_bytes : list Byte.byte
}.

Definition File : Type := Blob.

Record Track : Type := mkTrack {
  id : Z;
  name : string;
  file : Blob;
  coverArt : option Blob;
  video : option Blob
}.

(** The argument of [handleEditorSave]. *)
Record EditData : Type := mkEditData {
  edit_id : Z;
  edit_coverArt : option File;
  edit_video : option File
}.

(** An awaited promise either resolved with a value or rejected with a
    reason. *)
Inductive Promise (A : Type) : Type :=
| Resolved (a : A)
| Rejected (reason : string).
Arguments Resolved {A} a.
Arguments Rejected {A} reason.

Definition isRejected {A : Type} (p : Promise A) : bool :=
  match p with Resolved _ => false | Rejected _ => true end.

(** ** The object store ([src/services/db.ts]) *)

(** The ['tracks'] object store, [{ keyPath: 'id', autoIncrement: true }]:
    its records in key order and the current number of its key generator. *)
Record ObjectStore : Type := mkStore {
  records : list Track;
  keyGenerator : Z
}.

(** A newly created database: no record, key generator at 1. *)
Definition emptyStore : ObjectStore := mkStore [] 1.

(** What the platform does with one request: the database cannot be opened,
    the request errors, or it succeeds. *)
Inductive IDBOutcome : Type :=
| OpenErrors
| RequestErrors
| RequestSucceeds.

Definition succeeds (o : IDBOutcome) : bool :=
  match o with RequestSucceeds => true | _ => false end.

(** [store.add({name, file})]: the generator's key is written to [id]. *)
Definition store_add (nm : string) (f : File) (s : ObjectStore)
  : Z * ObjectStore :=
  let k := keyGenerator s in
  (k, mkStore (records s ++ [mkTrack k nm f None None]) (k + 1)).

(** [store.put(track)]: replaces the record with the key [track.id], or
    inserts it at its place in key order. *)
Fixpoint put_sorted (t : Track) (rs : list Track) : list Track :=
  match rs with
  | [] => [t]
  | r :: rest =>
      if id r =? id t then t :: rest
      else if id t <? id r then t :: r :: rest
      else r :: put_sorted t rest
  end.

Definition store_put (t : Track) (s : ObjectStore) : ObjectStore :=
  mkStore (put_sorted t (records s))
          (if keyGenerator s <=? id t then id t + 1 else keyGenerator s).

(** [store.delete(id)]. *)
Definition store_delete (i : Z) (s : ObjectStore) : ObjectStore :=
  mkStore (filter (fun r => negb (id r =? i)) (records s)) (keyGenerator s).

Definition rejection {A : Type} (o : IDBOutcome) (msg : string) : Promise A :=
  match o with
  | OpenErrors => Rejected "Error opening database"
  | _ => Rejected msg
  end.

Definition addTrackToDB (o : IDBOutcome) (nm : string) (f : File)
    (s : ObjectStore) : Promise Z * ObjectStore :=
  if succeeds o
  then let (k, s') := store_add nm f s in (Resolved k, s')
  else (rejection o "Error adding track", s).

Definition getAllTracksFromDB (o : IDBOutcome) (s : ObjectStore)
  : Promise (list Track) :=
  if succeeds o then Resolved (records s)
  else rejection o "Error getting all tracks".

Definition deleteTrackFromDB (o : IDBOutcome) (i : Z) (s : ObjectStore)
  : Promise unit * ObjectStore :=
  if succeeds o then (Resolved tt, store_delete i s)
  else (rejection o "Error deleting track", s).

Definition updateTrackInDB (o : IDBOutcome) (t : Track) (s : ObjectStore)
  : Promise unit * ObjectStore :=
  if succeeds o then (Resolved tt, store_put t s)
  else (rejection o "Error updating track", s).

(** ** The environment of the component *)

(** The [<audio>] element behind [audioRef]. *)
Module Sink.
Record t : Type := mk {
  src : string;
  currentTime : Q;
  duration : Q;
  paused : bool;
  volume : Q
}.

(** A newly mounted element. *)
Definition fresh : t := mk "" 0%Q 0%Q true 1%Q.

(** [audio.src = u]: the element loads the new resource from its start. *)
Definition set_src (u : string) (a : t) : t :=
  mk u 0%Q (duration a) true (volume a).

Definition set_currentTime (q : Q) (a : t) : t :=
  mk (src a) q (duration a) (paused a) (volume a).

Definition set_duration (q : Q) (a : t) : t :=
  mk (src a) (currentTime a) q (paused a) (volume a).

Definition set_volume (q : Q) (a : t) : t :=
  mk (src a) (currentTime a) (duration a) (paused a) q.

(** [audio.play()]; a rejection by the platform is only logged by the
    callers and changes no state of the component. *)
Definition play (a : t) : t :=
  mk (src a) (currentTime a) (duration a) false (volume a).

Definition pause (a : t) : t :=
  mk (src a) (currentTime a) (duration a) true (volume a).
End Sink.

(** What happened to the document's object URLs. *)
Inductive UrlEvent : Type :=
| Created (u : string) (b : Blob)
| Revoked (u : string)
| Unloaded.

Record Env : Type := mkEnv {
  db : ObjectStore;
  urlLog : list UrlEvent;        (* newest first *)
  urlSeq : nat;                  (* number of URLs created so far *)
  audioRef : option Sink.t;      (* audioRef.current *)
  console : list string          (* console.error messages, newest first *)
}.

Definition set_db (d : ObjectStore) (e : Env) : Env :=
  mkEnv d (urlLog e) (urlSeq e) (audioRef e) (console e).

Definition with_audio (f : Sink.t -> Sink.t) (e : Env) : Env :=
  mkEnv (db e) (urlLog e) (urlSeq e) (option_map f (audioRef e)) (console e).

Definition console_error (msg : string) (e : Env) : Env :=
  mkEnv (db e) (urlLog e) (urlSeq e) (audioRef e) (msg :: console e).

(** The URL that [URL.createObjectURL] hands out as its [n]-th. *)
Definition blobUrl (n : nat) : string :=
  ("blob:" ++ NilZero.string_of_uint (Nat.to_uint n))%string.

Definition createObjectURL (b : Blob) (e : Env) : string * Env :=
  let u := blobUrl (urlSeq e) in
  (u, mkEnv (db e) (Created u b :: urlLog e) (S (urlSeq e))
            (audioRef e) (console e)).

Definition revokeObjectURL (u : string) (e : Env) : Env :=
  mkEnv (db e) (Revoked u :: urlLog e) (urlSeq e) (audioRef e) (console e).

(** The object URLs that are live after the events of a log, each with the
    blob it refers to. *)
Fixpoint live (log : list UrlEvent) : list (string * Blob) :=
  match log with
  | [] => []
  | Created u b :: older => (u, b) :: live older
  | Revoked u :: older =>
      filter (fun h => negb (fst h =? u)%string) (live older)
  | Unloaded :: older => []
  end.

(** At every moment of the history of a log, at most one URL was live. *)
Fixpoint never_two (log : list UrlEvent) : Prop :=
  match log with
  | [] => True
  | _ :: older => (List.length (live log) <= 1)%nat /\ never_two older
  end.

(** ** The state of the [App] component *)

Record State : Type := mkState {
  tracks : list Track;
  currentTrackId : option Z;
  isPlaying : bool;
  currentTime : Q;
  duration : Q;
  volume : Q;
  isUploading : bool;
  editingTrackId : option Z;
  isNowPlayingVisible : bool;
  currentTrackUrl : string
}.

Definition initialState : State :=
  mkState [] None false 0%Q 0%Q (75 # 100)%Q false None false "".

Definition set_tracks (v : list Track) (s : State) : State :=
  mkState v (currentTrackId s) (isPlaying s) (currentTime s) (duration s)
          (volume s) (isUploading s) (editingTrackId s)
          (isNowPlayingVisible s) (currentTrackUrl s).

Definition set_currentTrackId (v : option Z) (s : State) : State :=
  mkState (tracks s) v (isPlaying s) (currentTime s) (duration s)
          (volume s) (isUploading s) (editingTrackId s)
          (isNowPlayingVisible s) (currentTrackUrl s).

Definition set_isPlaying (v : bool) (s : State) : State :=
  mkState (tracks s) (currentTrackId s) v (currentTime s) (duration s)
          (volume s) (isUploading s) (editingTrackId s)
          (isNowPlayingVisible s) (currentTrackUrl s).

Definition set_currentTime (v : Q) (s : State) : State :=
  mkState (tracks s) (currentTrackId s) (isPlaying s) v (duration s)
          (volume s) (isUploading s) (editingTrackId s)
          (isNowPlayingVisible s) (currentTrackUrl s).

Definition set_duration (v : Q) (s : State) : State :=
  mkState (tracks s) (currentTrackId s) (isPlaying s) (currentTime s) v
          (volume s) (isUploading s) (editingTrackId s)
          (isNowPlayingVisible s) (currentTrackUrl s).

Definition set_volume (v : Q) (s : State) : State :=
  mkState (tracks s) (currentTrackId s) (isPlaying s) (currentTime s)
          (duration s) v (isUploading s) (editingTrackId s)
          (isNowPlayingVisible s) (currentTrackUrl s).

Definition set_isUploading (v : bool) (s : State) : State :=
  mkState (tracks s) (currentTrackId s) (isPlaying s) (currentTime s)
          (duration s) (volume s) v (editingTrackId s)
          (isNowPlayingVisible s) (currentTrackUrl s).

Definition set_editingTrackId (v : option Z) (s : State) : State :=
  mkState (tracks s) (currentTrackId s) (isPlaying s) (currentTime s)
          (duration s) (volume s) (isUploading s) v
          (isNowPlayingVisible s) (currentTrackUrl s).

Definition set_isNowPlayingVisible (v : bool) (s : State) : State :=
  mkState (tracks s) (currentTrackId s) (isPlaying s) (currentTime s)
          (duration s) (volume s) (isUploading s) (editingTrackId s)
          v (currentTrackUrl s).

Definition set_currentTrackUrl (v : string) (s : State) : State :=
  mkState (tracks s) (currentTrackId s) (isPlaying s) (currentTime s)
          (duration s) (volume s) (isUploading s) (editingTrackId s)
          (isNowPlayingVisible s) v.

(** The component and its environment. *)
Record World : Type := mkWorld {
  state : State;
  env : Env
}.

(** ** JavaScript values *)

(** A string is truthy when it is not empty. *)
Definition truthy_string (s : string) : bool :=
  match s with EmptyString => false | String _ _ => true end.

(** A [number | null] is truthy when it is neither [null] nor [0]. *)
Definition truthy_id (o : option Z) : bool :=
  match o with Some z => negb (z =? 0) | None => false end.

(** [a === b] on [number | null]. *)
Definition strict_eq (a b : option Z) : bool :=
  match a, b with
  | Some x, Some y => x =? y
  | None, None => true
  | _, _ => false
  end.
Arguments strict_eq a b : simpl nomatch.

(** [a || b] on an optional object: an object is always truthy. *)
Definition or_else {A : Type} (a b : option A) : option A :=
  match a with Some x => Some x | None => b end.

(** [xs[i]]: [undefined] outside the array. *)
Definition at_index {A : Type} (xs : list A) (i : Z) : option A :=
  if i <? 0 then None else nth_error xs (Z.to_nat i).

(** [tracks.find(t => t.id === i)]. *)
Definition find_track (i : option Z) (ts : list Track) : option Track :=
  find (fun t => strict_eq (Some (id t)) i) ts.

(** [tracks.findIndex(t => t.id === i)], [-1] when there is none. *)
Fixpoint findIndex_from (k : Z) (i : option Z) (ts : list Track) : Z :=
  match ts with
  | [] => -1
  | t :: rest =>
      if strict_eq (Some (id t)) i then k else findIndex_from (k + 1) i rest
  end.

Definition findIndex (i : option Z) (ts : list Track) : Z :=
  findIndex_from 0 i ts.

(** [name.replace(/\.[^/.]+$/, "")]: drops a last extension.  The pattern
    matches from the last dot of the name when at least one character
    follows it and no slash does. *)
Fixpoint extension_cut (reversed : list ascii) (seen : nat)
  : option (list ascii) :=
  match reversed with
  | [] => None
  | c :: rest =>
      if (c =? ".")%char then
        match seen with O => None | S _ => Some rest end
      else if (c =? "/")%char then None
      else extension_cut rest (S seen)
  end.

Definition stripExtension (s : string) : string :=
  match extension_cut (rev (list_ascii_of_string s)) O with
  | Some kept => string_of_list_ascii (rev kept)
  | None => s
  end.

(** [Promise.all]: the values in order, or the first rejection. *)
Fixpoint Promise_all {A : Type} (ps : list (Promise A)) : Promise (list A) :=
  match ps with
  | [] => Resolved []
  | Rejected r :: _ => Rejected r
  | Resolved a :: rest =>
      match Promise_all rest with
      | Resolved l => Resolved (a :: l)
      | Rejected r => Rejected r
      end
  end.

(** ** The handlers of [App] ([src/App.tsx]) *)

(** The two revisions of [App.tsx] have the same handlers; they differ in
    the dependencies of the effect that binds [audio.src]:
    [[currentTrackUrl]] in the first, [[currentTrackUrl, isPlaying]] in the
    second. *)
Inductive Revision : Type := Rev1 | Rev2.

(** One [file] of the batch: [addTrackToDB], then the record with its id. *)
Definition ingestOne (fo : File * IDBOutcome) (d : ObjectStore)
  : Promise Track * ObjectStore :=
  let (f, o) := fo in
  let nm := stripExtension (blob_name f) in
  let (p, d') := addTrackToDB o nm f d in
  match p with
  | Resolved k => (Resolved (mkTrack k nm f None None), d')
  | Rejected r => (Rejected r, d')
  end.

(** [Array.from(files).map(async file => ...)]: every request is issued,
    in the order of the files. *)
Fixpoint ingestAll (files : list (File * IDBOutcome)) (d : ObjectStore)
  : list (Promise Track) * ObjectStore :=
  match files with
  | [] => ([], d)
  | fo :: rest =>
      let (p, d1) := ingestOne fo d in
      let (ps, d2) := ingestAll rest d1 in
      (p :: ps, d2)
  end.

Definition handleFilesSelected (files : list (File * IDBOutcome)) (w : World)
  : World :=
  let st1 := set_isUploading true (state w) in
  let (ps, d) := ingestAll files (db (env w)) in
  let e1 := set_db d (env w) in
  match Promise_all ps with
  | Resolved newTracks =>
      mkWorld (set_isUploading false
                 (set_tracks (tracks st1 ++ newTracks) st1)) e1
  | Rejected r =>
      mkWorld (set_isUploading false st1)
              (console_error ("Failed to add tracks: " ++ r)%string e1)
  end.

Definition handleTrackDelete (i : Z) (o : IDBOutcome) (w : World)
  : Promise unit * World :=
  let st := state w in
  let w1 :=
    if strict_eq (Some i) (currentTrackId st) then
      let st1 := set_currentTrackId None (set_isPlaying false st) in
      let e1 := with_audio (Sink.set_src "") (env w) in
      let st2 :=
        if truthy_string (currentTrackUrl st)
        then set_currentTrackUrl "" st1 else st1 in
      let e2 :=
        if truthy_string (currentTrackUrl st)
        then revokeObjectURL (currentTrackUrl st) e1 else e1 in
      mkWorld (set_isNowPlayingVisible false st2) e2
    else w in
  let (p, d) := deleteTrackFromDB o i (db (env w1)) in
  match p with
  | Resolved _ =>
      (Resolved tt,
       mkWorld (set_tracks (filter (fun t => negb (id t =? i)) (tracks st))
                           (state w1))
               (set_db d (env w1)))
  | Rejected r => (Rejected r, mkWorld (state w1) (set_db d (env w1)))
  end.

Definition handlePlayPause (w : World) : World :=
  if negb (truthy_id (currentTrackId (state w))) then w
  else mkWorld (set_isPlaying (negb (isPlaying (state w))) (state w)) (env w).

Definition handleTrackSelect (i : Z) (w : World) : World :=
  let st := state w in
  match find_track (Some i) (tracks st) with
  | Some track =>
      if negb (strict_eq (Some (id track)) (currentTrackId st)) then
        let e1 :=
          if truthy_string (currentTrackUrl st)
          then revokeObjectURL (currentTrackUrl st) (env w) else env w in
        let st1 := set_currentTrackId (Some i) st in
        let (url, e2) := createObjectURL (file track) e1 in
        mkWorld (set_isPlaying true (set_currentTrackUrl url st1)) e2
      else handlePlayPause w
  | None => w
  end.

(** [tracks[k].id] is read before [handleTrackSelect] is called: outside
    the array the handler throws before any state is set. *)
Definition selectAt (k : Z) (w : World) : World :=
  match at_index (tracks (state w)) k with
  | Some t => handleTrackSelect (id t) w
  | None => w
  end.

Definition playNextTrack (w : World) : World :=
  let st := state w in
  let n := Z.of_nat (List.length (tracks st)) in
  if n =? 0 then w
  else if (n =? 1) &&
          match tracks st with
          | t0 :: _ => strict_eq (currentTrackId st) (Some (id t0))
          | [] => false
          end
  then mkWorld st
         (with_audio (fun a => Sink.play (Sink.set_currentTime 0%Q a)) (env w))
  else
    let currentIndex := findIndex (currentTrackId st) (tracks st) in
    let nextIndex := Z.rem (currentIndex + 1) n in
    selectAt nextIndex w.

Definition playPrevTrack (w : World) : World :=
  let st := state w in
  let n := Z.of_nat (List.length (tracks st)) in
  if n <? 2 then w
  else
    let currentIndex := findIndex (currentTrackId st) (tracks st) in
    let prevIndex := Z.rem (currentIndex - 1 + n) n in
    selectAt prevIndex w.

Definition handleSeek (time : Q) (w : World) : World :=
  match audioRef (env w) with
  | Some _ =>
      mkWorld (set_currentTime time (state w))
              (with_audio (Sink.set_currentTime time) (env w))
  | None => w
  end.

Definition handleTrackEditRequest (i : Z) (w : World) : World :=
  mkWorld (set_editingTrackId (Some i) (state w)) (env w).

Definition handleEditorSave (updatedData : EditData) (o : IDBOutcome)
    (w : World) : Promise unit * World :=
  let st := state w in
  match find_track (Some (edit_id updatedData)) (tracks st) with
  | None => (Resolved tt, w)
  | Some originalTrack =>
      let updatedTrack :=
        mkTrack (id originalTrack) (name originalTrack) (file originalTrack)
                (or_else (edit_coverArt updatedData) (coverArt originalTrack))
                (or_else (edit_video updatedData) (video originalTrack)) in
      let (p, d) := updateTrackInDB o updatedTrack (db (env w)) in
      match p with
      | Resolved _ =>
          (Resolved tt,
           mkWorld
             (set_editingTrackId None
                (set_tracks
                   (map (fun t => if id t =? edit_id updatedData
                                  then updatedTrack else t) (tracks st))
                   st))
             (set_db d (env w)))
      | Rejected r => (Rejected r, mkWorld st (set_db d (env w)))
      end
  end.

(** [onTimeUpdate] and [onLoadedMetadata]: the element reports its position
    and the length of its resource. *)
Definition onTimeUpdate (t : Q) (w : World) : World :=
  match audioRef (env w) with
  | Some _ =>
      mkWorld (set_currentTime t (state w))
              (with_audio (Sink.set_currentTime t) (env w))
  | None => w
  end.

Definition onLoadedMetadata (d : Q) (w : World) : World :=
  match audioRef (env w) with
  | Some _ =>
      mkWorld (set_duration d (state w))
              (with_audio (Sink.set_duration d) (env w))
  | None => w
  end.

(** ** Effects *)

(** The effects that React runs after a render, given the state of the
    previous render: first the cleanup of the effect on [currentTrackUrl]
    (it revokes the previous URL), then, in the order of the source, the
    effects on [volume], on [currentTrackUrl] and on
    [isPlaying, currentTrackId]. *)
Definition runEffects (rev : Revision) (prev next : State) (e : Env) : Env :=
  let urlChanged :=
    negb (currentTrackUrl prev =? currentTrackUrl next)%string in
  let playingChanged := negb (Bool.eqb (isPlaying prev) (isPlaying next)) in
  let idChanged :=
    negb (strict_eq (currentTrackId prev) (currentTrackId next)) in
  let e1 :=
    if urlChanged && truthy_string (currentTrackUrl prev)
    then revokeObjectURL (currentTrackUrl prev) e else e in
  let e2 :=
    if negb (Qeq_bool (volume prev) (volume next))
    then with_audio (Sink.set_volume (volume next)) e1 else e1 in
  let srcEffect :=
    match rev with
    | Rev1 => urlChanged
    | Rev2 => urlChanged || playingChanged
    end in
  let e3 :=
    if srcEffect && truthy_string (currentTrackUrl next)
    then with_audio
           (fun a =>
              let a1 := Sink.set_src (currentTrackUrl next) a in
              if isPlaying next then Sink.play a1 else a1) e2
    else e2 in
  if playingChanged || idChanged
  then with_audio
         (fun a =>
            if isPlaying next && truthy_id (currentTrackId next)
            then Sink.play a else Sink.pause a) e3
  else e3.

Definition settle (rev : Revision) (prev : State) (w : World) : World :=
  mkWorld (state w) (runEffects rev prev (state w) (env w)).

(** ** Intents and runs *)

(** The page is loaded over a store: the element is mounted, the effects
    run for the first time ([audio.volume = volume], [audio.pause()]) and
    [loadTracks] replaces the library by the records of the store. *)
Definition boot (o : IDBOutcome) (d : ObjectStore) (log : list UrlEvent)
    (n : nat) : World :=
  let a := Sink.pause (Sink.set_volume (volume initialState) Sink.fresh) in
  let e := mkEnv d log n (Some a) [] in
  match getAllTracksFromDB o d with
  | Resolved dbTracks => mkWorld (set_tracks dbTracks initialState) e
  | Rejected _ => mkWorld initialState e
  end.

(** The first visit: a new database. *)
Definition install : World := boot RequestSucceeds emptyStore [] O.

Inductive Intent : Type :=
| IngestFiles (files : list (File * IDBOutcome))
| DeleteTrack (i : Z) (o : IDBOutcome)
| EditRequest (i : Z)
| EditTrack (data : EditData) (o : IDBOutcome)
| SelectTrack (i : Z)
| TogglePlayPause
| Next
| Previous
| Seek (t : Q)
| SetVolume (v : Q)
| Expand
| CloseNowPlaying
| CloseEditor
| TimeUpdate (t : Q)
| LoadedMetadata (d : Q)
| Ended
| Reload (o : IDBOutcome).

Definition handle (i : Intent) (w : World) : World :=
  match i with
  | IngestFiles files => handleFilesSelected files w
  | DeleteTrack k o => snd (handleTrackDelete k o w)
  | EditRequest k => handleTrackEditRequest k w
  | EditTrack data o => snd (handleEditorSave data o w)
  | SelectTrack k => handleTrackSelect k w
  | TogglePlayPause => handlePlayPause w
  | Next => playNextTrack w
  | Previous => playPrevTrack w
  | Seek t => handleSeek t w
  | SetVolume v => mkWorld (set_volume v (state w)) (env w)
  | Expand => mkWorld (set_isNowPlayingVisible true (state w)) (env w)
  | CloseNowPlaying =>
      mkWorld (set_isNowPlayingVisible false (state w)) (env w)
  | CloseEditor => mkWorld (set_editingTrackId None (state w)) (env w)
  | TimeUpdate t => onTimeUpdate t w
  | LoadedMetadata d => onLoadedMetadata d w
  | Ended => playNextTrack w
  | Reload o =>
      boot o (db (env w)) (Unloaded :: urlLog (env w)) (urlSeq (env w))
  end.

(** One intent, settled: the handler, then the effects of the render that
    follows.  A reload mounts a new component, whose first effects are part
    of [boot]. *)
Definition step (rev : Revision) (i : Intent) (w : World) : World :=
  match i with
  | Reload _ => handle i w
  | _ => settle rev (state w) (handle i w)
  end.

Fixpoint run (rev : Revision) (intents : list Intent) (w : World) : World :=
  match intents with
  | [] => w
  | i :: rest => run rev rest (step rev i w)
  end.

(** The states the application can be in. *)
Inductive reachable (rev : Revision) : World -> Prop :=
| reach_install : reachable rev install
| reach_step : forall i w, reachable rev w -> reachable rev (step rev i w).

(** * Predicates of the specification *)

(** The records are in strictly increasing key order, and every key was
    handed out by the key generator, which started at 1. *)
Definition store_ok (d : ObjectStore) : Prop :=
  StronglySorted Z.lt (map id (records d)) /\
  Forall (fun r => 1 <= id r < keyGenerator d) (records d) /\
  1 <= keyGenerator d.

(** The store accepts the insert of this file of the batch. *)
Definition accepted (fo : File * IDBOutcome) : bool := succeeds (snd fo).

(** The invariant of the reachable states: the store is in order, the
    library has pairwise distinct ids, all handed out by the store; with no
    active track there is no URL, bound or live; with an active track it is
    a track of the library, and the one live URL is bound and refers to its
    audio; the history never had two live URLs; the element is mounted. *)
Record Inv (w : World) : Prop := mkInv {
  inv_store : store_ok (db (env w));
  inv_unique : NoDup (map id (tracks (state w)));
  inv_keys :
    Forall (fun t => 1 <= id t < keyGenerator (db (env w)))
           (tracks (state w));
  inv_idle :
    currentTrackId (state w) = None ->
    currentTrackUrl (state w) = "" /\ live (urlLog (env w)) = [];
  inv_active :
    forall x, currentTrackId (state w) = Some x ->
    exists t k,
      find_track (Some x) (tracks (state w)) = Some t /\
      (k < urlSeq (env w))%nat /\
      currentTrackUrl (state w) = blobUrl k /\
      live (urlLog (env w)) = [(blobUrl k, file t)];
  inv_history : never_two (urlLog (env w));
  inv_mounted : audioRef (env w) <> None
}.

(** [handleEditorSave] replaces a record by one with the same [id]. *)
Definition patched (data : EditData) (originalTrack : Track) : Track :=
  mkTrack (id originalTrack) (name originalTrack) (file originalTrack)
          (or_else (edit_coverArt data) (coverArt originalTrack))
          (or_else (edit_video data) (video originalTrack)).

Definition applyPatch (data : EditData) (originalTrack : Track) (t : Track)
  : Track :=
  if id t =? edit_id data then patched data originalTrack else t.

(** The state and the environment after the synchronous part of
    [handleTrackDelete] on the active track. *)
Definition stopped (st : State) : State :=
  set_isNowPlayingVisible false
    (set_currentTrackUrl "" (set_currentTrackId None (set_isPlaying false st))).

Definition released (u : string) (e : Env) : Env :=
  revokeObjectURL u (with_audio (Sink.set_src "") e).

(** [w'] is [w] after the track [t] of the library was selected: [t] is the
    active track, it is looked up by its id, a new object URL was created
    for its audio and is bound, and the transport flag is set. *)
Definition selects (t : Track) (w w' : World) : Prop :=
  state w'
  = set_isPlaying true
      (set_currentTrackUrl (blobUrl (urlSeq (env w)))
         (set_currentTrackId (Some (id t)) (state w))) /\
  find_track (Some (id t)) (tracks (state w)) = Some t /\
  In (Created (blobUrl (urlSeq (env w))) (file t)) (urlLog (env w')).

(** ** Worlds used as concrete instances *)

Definition song (nm : string) : File := mkBlob nm "audio/mpeg" [].

Definition picture : File := mkBlob "cover.png" "image/png" [].

(** Three files, all stored. *)
Definition batchABC : list (File * IDBOutcome) :=
  [(song "A.mp3", RequestSucceeds);
   (song "B.mp3", RequestSucceeds);
   (song "C.mp3", RequestSucceeds)].

(** Three files, the second of which the store refuses. *)
Definition batchAxC : list (File * IDBOutcome) :=
  [(song "A.mp3", RequestSucceeds);
   (song "B.mp3", RequestErrors);
   (song "C.mp3", RequestSucceeds)].

(** The library [A, B, C] with nothing active. *)
Definition libraryABC : World := run Rev1 [IngestFiles batchABC] install.

(** The library [A, B, C] with [B] playing. *)
Definition playingB : World := run Rev1 [SelectTrack 2] libraryABC.

(** The library [A] with [A] playing. *)
Definition playingOnlyA : World :=
  run Rev1 [IngestFiles [(song "A.mp3", RequestSucceeds)]; SelectTrack 1]
      install.

(** ** What the views derive from the state *)

(** [currentTrack] of [App]: [tracks.find(t => t.id === currentTrackId)
    || null]. *)
Definition currentTrack (st : State) : option Track :=
  find_track (currentTrackId st) (tracks st).

(** [isActive] of a row of [Library]: [track.id === currentTrackId]. *)
Definition isActive (st : State) (t : Track) : bool :=
  strict_eq (Some (id t)) (currentTrackId st).

(** [handleVolumeToggle] of [Player]:
    [onVolumeChange(volume > 0 ? 0 : 0.75)], where [onVolumeChange] is
    [setVolume]. *)
Definition handleVolumeToggle (rev : Revision) (w : World) : World :=
  step rev
    (SetVolume (if negb (Qle_bool (volume (state w)) 0%Q)
                then 0%Q else (75 # 100)%Q)) w.

(** The library mirrors the store and the element mirrors the state: every
    track of the library is a record of the store, the source of the
    element is the bound URL, and its volume is the volume of the state. *)
Record Sync (w : World) : Prop := mkSync {
  sync_backed :
    forall t, In t (tracks (state w)) -> In t (records (db (env w)));
  sync_element :
    exists a, audioRef (env w) = Some a /\
              Sink.src a = currentTrackUrl (state w) /\
              Qeq (Sink.volume a) (volume (state w))
}.

(** The records that a batch adds when the store accepts every file: in
    the order of the files, with consecutive keys from [k] on, the name
    without its extension and no cover or video. *)
Fixpoint numbered (k : Z) (files : list (File * IDBOutcome)) : list Track :=
  match files with
  | [] => []
  | fo :: rest =>
      mkTrack k (stripExtension (blob_name (fst fo))) (fst fo) None None
      :: numbered (k + 1) rest
  end.


(** ** Lyrics ([src/components/NowPlayingView.tsx], second revision) *)

Module LyricLine.
Record t : Type := mk {
  time : Q;
  text : string
}.
End LyricLine.

(** [\d]. *)
Definition isDigit (c : ascii) : bool :=
  (48 <=? nat_of_ascii c)%nat && (nat_of_ascii c <=? 57)%nat.

(** [parseInt(digits, 10)] on a group of decimal digits. *)
Definition parseInt (digits : list ascii) : nat :=
  fold_left (fun acc c => (10 * acc + (nat_of_ascii c - 48))%nat) digits O.

(** The fixed part [\[(\d{2}):(\d{2}):(\d{2})\.(\d{3})\]] of the pattern
    at the start of the characters, with its four groups. *)
Definition stampAt (cs : list ascii)
  : option (list ascii * list ascii * list ascii * list ascii) :=
  match cs with
  | o :: a :: b :: c1 :: c :: d :: c2 :: e :: f :: p :: g :: h :: i :: cl
    :: _ =>
      if (o =? "[")%char && isDigit a && isDigit b && (c1 =? ":")%char
         && isDigit c && isDigit d && (c2 =? ":")%char
         && isDigit e && isDigit f && (p =? ".")%char
         && isDigit g && isDigit h && isDigit i && (cl =? "]")%char
      then Some ([a; b], [c; d], [e; f], [g; h; i])
      else None
  | _ => None
  end.

(** [line.match(regex)]: the groups of the leftmost match.  After the
    fixed part the pattern takes optional white space and then any
    characters, which match whatever follows, so there is a match exactly
    where the fixed part matches. *)
Fixpoint matchLine (cs : list ascii)
  : option (list ascii * list ascii * list ascii * list ascii) :=
  match stampAt cs with
  | Some groups => Some groups
  | None =>
      match cs with
      | [] => None
      | _ :: rest => matchLine rest
      end
  end.

(** [text.split('\n')]. *)
Fixpoint splitLines (cs : list ascii) (current : list ascii)
  : list (list ascii) :=
  match cs with
  | [] => [rev current]
  | c :: rest =>
      if (c =? "010")%char then rev current :: splitLines rest []
      else splitLines rest (c :: current)
  end.

(** White space below code unit 128, and [trim] on such characters. *)
Definition isSpace (c : ascii) : bool :=
  let n := nat_of_ascii c in
  ((9 <=? n)%nat && (n <=? 13)%nat) || (n =? 32)%nat.

Fixpoint trimStart (cs : list ascii) : list ascii :=
  match cs with
  | c :: rest => if isSpace c then trimStart rest else cs
  | [] => []
  end.

Definition trim (cs : list ascii) : list ascii :=
  rev (trimStart (rev (trimStart cs))).

Section Lyrics.

(** The value of [parseInt(minutes, 10) * 60 + parseInt(seconds, 10) +
    parseInt(ms, 10) / 1000] in double precision, as a function of the
    three integers. *)
Variable stamp : nat -> nat -> nat -> Q.

(** The body of the loop of [parseLyrics] for one line.  The array pattern
    [[, minutes, seconds, ms, text]] binds the first four groups. *)
Definition parseLine (line : list ascii) : list LyricLine.t :=
  match matchLine line with
  | Some (minutes, seconds, ms, text) =>
      match trim text with
      | [] => []
      | _ :: _ =>
          [LyricLine.mk (stamp (parseInt minutes) (parseInt seconds)
                               (parseInt ms))
                        (string_of_list_ascii (trim text))]
      end
  | None => []
  end.

Definition parseLyrics (lyricText : string) : list LyricLine.t :=
  if negb (truthy_string lyricText) then []
  else flat_map parseLine (splitLines (list_ascii_of_string lyricText) []).

Inductive LyricsStatus : Type := loading | success | error | idle.

(** What [generateLyrics] sets once the request is settled:
    [response.text] may be [undefined], which [parseLyrics] takes as
    empty. *)
Definition generateLyrics (response : Promise (option string))
  : list LyricLine.t * LyricsStatus :=
  match response with
  | Resolved text =>
      let parsed :=
        match text with Some s => parseLyrics s | None => [] end in
      match parsed with
      | _ :: _ => (parsed, success)
      | [] => ([], error)
      end
  | Rejected _ => ([], error)
  end.

End Lyrics.

(** The effect that highlights a line:
    [lyrics.findIndex((line, index) => currentTime >= line.time &&
    (!nextLine || currentTime < nextLine.time))]. *)
Fixpoint lyricIndex_from (k : Z) (currentTime : Q)
    (lyrics : list LyricLine.t) : Z :=
  match lyrics with
  | [] => -1
  | line :: rest =>
      if Qle_bool (LyricLine.time line) currentTime
         && match rest with
            | [] => true
            | nextLine :: _ =>
                negb (Qle_bool (LyricLine.time nextLine) currentTime)
            end
      then k
      else lyricIndex_from (k + 1) currentTime rest
  end.

Definition lyricIndex (currentTime : Q) (lyrics : list LyricLine.t) : Z :=
  lyricIndex_from 0 currentTime lyrics.

(** A line as the prompt of [generateLyrics] asks for it:
    [[mm:ss.SSS]] and the words. *)
Definition promptedLine (a b c d e f g : ascii) (words : list ascii)
  : list ascii :=
  "["%char :: a :: b :: ":"%char :: c :: d :: "."%char :: e :: f :: g
  :: "]"%char :: words.

(** Lines joined by line feeds. *)
Fixpoint joinLines (lines : list (list ascii)) : list ascii :=
  match lines with
  | [] => []
  | [line] => line
  | line :: rest => line ++ "010"%char :: joinLines rest
  end.

Definition isPrompted (line : list ascii) : Prop :=
  exists a b c d e f g words,
    line = promptedLine a b c d e f g words /\
    Forall (fun x => isDigit x = true) [a; b; c; d; e; f; g] /\
    Forall (fun x => x <> "["%char /\ x <> "010"%char) words.

(** The handler left the element mounted with its volume, and with a
    source that is the bound URL of the next state unless a new URL was
    bound. *)
Definition element_kept (w w' : World) (a : Sink.t) : Prop :=
  exists a1,
    audioRef (env w') = Some a1 /\
    Sink.volume a1 = Sink.volume a /\
    (Sink.src a1 = currentTrackUrl (state w') \/
     (currentTrackUrl (state w) <> currentTrackUrl (state w') /\
      truthy_string (currentTrackUrl (state w')) = true)).

(** A character that an extension may have. *)
Definition plain (c : ascii) : Prop := c <> "."%char /\ c <> "/"%char.

(** * Properties *)

(** ** JavaScript values *)

Lemma strict_eq_true (a b : option Z) : strict_eq a b = true <-> a = b.
Proof.
  destruct a as [x|], b as [y|]; simpl; split; intros H;
    try discriminate; try reflexivity.
  - apply Z.eqb_eq in H. now subst.
  - injection H as ->. apply Z.eqb_refl.
Qed.

Lemma strict_eq_refl (a : option Z) : strict_eq a a = true.
Proof. now apply strict_eq_true. Qed.

Lemma strict_eq_false (a b : option Z) : strict_eq a b = false <-> a <> b.
Proof.
  split.
  - intros H E. apply strict_eq_true in E. congruence.
  - intros H. destruct (strict_eq a b) eqn:E; [|reflexivity].
    apply strict_eq_true in E. contradiction.
Qed.

Lemma truthy_string_false (s : string) : truthy_string s = false <-> s = "".
Proof. destruct s; simpl; split; congruence. Qed.

Lemma truthy_string_true (s : string) : truthy_string s = true <-> s <> "".
Proof. destruct s; simpl; split; congruence. Qed.

Lemma blobUrl_truthy (n : nat) : truthy_string (blobUrl n) = true.
Proof. reflexivity. Qed.

Lemma to_uint_nonnil (n : nat) : Nat.to_uint n <> Decimal.Nil.
Proof.
  rewrite <- (DecimalNat.Unsigned.of_to n) at 1.
  rewrite DecimalNat.Unsigned.to_of.
  apply DecimalFacts.unorm_nonnil.
Qed.

Lemma blobUrl_inj (m n : nat) : blobUrl m = blobUrl n -> m = n.
Proof.
  unfold blobUrl. simpl. intros H.
  injection H as H.
  apply DecimalNat.Unsigned.to_uint_inj.
  assert (E : Some (Nat.to_uint m) = Some (Nat.to_uint n)).
  { rewrite <- (NilZero.usu (Nat.to_uint m)) by apply to_uint_nonnil.
    rewrite <- (NilZero.usu (Nat.to_uint n)) by apply to_uint_nonnil.
    now rewrite H. }
  now injection E.
Qed.

(** ** Looking tracks up *)

Lemma find_track_Some (i : option Z) (ts : list Track) (t : Track) :
  find_track i ts = Some t -> In t ts /\ i = Some (id t).
Proof.
  unfold find_track. intros H. apply find_some in H as [Hin He].
  apply strict_eq_true in He. now split.
Qed.

Lemma find_track_None (i : Z) (ts : list Track) :
  find_track (Some i) ts = None <-> ~ In i (map id ts).
Proof.
  unfold find_track. induction ts as [|t ts IH]; simpl.
  - tauto.
  - destruct (id t =? i) eqn:E.
    + apply Z.eqb_eq in E. split; [discriminate | intros H; exfalso; auto].
    + apply Z.eqb_neq in E. rewrite IH. tauto.
Qed.

Lemma find_track_null (ts : list Track) : find_track None ts = None.
Proof. unfold find_track. induction ts; simpl; auto. Qed.

Lemma find_track_app (i : option Z) (ts us : list Track) (t : Track) :
  find_track i ts = Some t -> find_track i (ts ++ us) = Some t.
Proof.
  unfold find_track. induction ts as [|x ts IH]; simpl; [discriminate|].
  destruct (strict_eq (Some (id x)) i); [trivial | exact IH].
Qed.

Lemma find_track_filter (i k : Z) (ts : list Track) :
  i <> k ->
  find_track (Some i) (filter (fun t => negb (id t =? k)) ts)
  = find_track (Some i) ts.
Proof.
  intros Hik. unfold find_track.
  induction ts as [|x ts IH]; simpl; [reflexivity|].
  destruct (id x =? k) eqn:Ek; simpl.
  - apply Z.eqb_eq in Ek.
    destruct (id x =? i) eqn:Ei; [apply Z.eqb_eq in Ei; congruence | exact IH].
  - destruct (id x =? i); [reflexivity | exact IH].
Qed.

Lemma find_track_map (f : Track -> Track) (i : option Z) (ts : list Track) :
  (forall t, id (f t) = id t) ->
  find_track i (map f ts) = option_map f (find_track i ts).
Proof.
  intros Hf. unfold find_track.
  induction ts as [|x ts IH]; simpl; [reflexivity|].
  rewrite Hf. destruct (strict_eq (Some (id x)) i); [reflexivity | exact IH].
Qed.

Lemma find_track_nodup (ts : list Track) (t : Track) :
  NoDup (map id ts) -> In t ts -> find_track (Some (id t)) ts = Some t.
Proof.
  unfold find_track. induction ts as [|x ts IH]; simpl; [tauto|].
  intros Hnd [->|Hin].
  - now rewrite Z.eqb_refl.
  - inversion Hnd as [|? ? Hx Hnd']; subst.
    destruct (id x =? id t) eqn:E; [|now apply IH].
    apply Z.eqb_eq in E. exfalso. apply Hx. rewrite E. now apply in_map.
Qed.

Lemma findIndex_from_range (k : Z) (i : option Z) (ts : list Track) :
  findIndex_from k i ts = -1 \/
  k <= findIndex_from k i ts < k + Z.of_nat (List.length ts).
Proof.
  revert k. induction ts as [|x ts IH]; intros k; simpl List.length; simpl.
  - now left.
  - destruct (strict_eq (Some (id x)) i).
    + right. lia.
    + destruct (IH (k + 1)) as [H|H]; [now left | right; lia].
Qed.

Lemma findIndex_from_found (k : Z) (i : option Z) (ts : list Track) :
  0 <= k -> k <= findIndex_from k i ts ->
  exists t, nth_error ts (Z.to_nat (findIndex_from k i ts - k)) = Some t
            /\ i = Some (id t).
Proof.
  revert k. induction ts as [|x ts IH]; intros k Hk; simpl.
  - lia.
  - destruct (strict_eq (Some (id x)) i) eqn:E.
    + intros _. rewrite Z.sub_diag. simpl. exists x.
      apply strict_eq_true in E. now split.
    + intros H.
      destruct (findIndex_from_range (k + 1) i ts) as [R|R]; [lia|].
      destruct (IH (k + 1)) as [t [Ht Hi]]; [lia | lia |].
      exists t. split; [|exact Hi].
      replace (Z.to_nat (findIndex_from (k + 1) i ts - k))
        with (S (Z.to_nat (findIndex_from (k + 1) i ts - (k + 1)))) by lia.
      exact Ht.
Qed.

Lemma findIndex_from_missing (k : Z) (i : option Z) (ts : list Track) :
  0 <= k -> find_track i ts = None -> findIndex_from k i ts = -1.
Proof.
  unfold find_track. revert k. induction ts as [|x ts IH]; intros k Hk; simpl.
  - reflexivity.
  - destruct (strict_eq (Some (id x)) i); [discriminate|].
    intros H. apply IH; [lia | exact H].
Qed.

Lemma findIndex_range (i : option Z) (ts : list Track) :
  findIndex i ts = -1 \/ 0 <= findIndex i ts < Z.of_nat (List.length ts).
Proof. apply (findIndex_from_range 0). Qed.

Lemma findIndex_found (i : option Z) (ts : list Track) :
  0 <= findIndex i ts ->
  exists t, at_index ts (findIndex i ts) = Some t /\ i = Some (id t).
Proof.
  intros H. unfold at_index.
  destruct (findIndex i ts <? 0) eqn:E; [apply Z.ltb_lt in E; lia|].
  destruct (findIndex_from_found 0 i ts) as [t [Ht Hi]];
    [lia | exact H |].
  exists t. split; [|exact Hi].
  unfold findIndex. now rewrite Z.sub_0_r in Ht.
Qed.

Lemma findIndex_missing (i : option Z) (ts : list Track) :
  find_track i ts = None -> findIndex i ts = -1.
Proof. apply findIndex_from_missing. lia. Qed.

Lemma at_index_Some {A : Type} (xs : list A) (k : Z) :
  0 <= k < Z.of_nat (List.length xs) -> exists x, at_index xs k = Some x.
Proof.
  intros H. unfold at_index.
  destruct (k <? 0) eqn:E; [apply Z.ltb_lt in E; lia|].
  destruct (nth_error xs (Z.to_nat k)) eqn:N; [eauto|].
  apply nth_error_None in N. lia.
Qed.

Lemma at_index_In {A : Type} (xs : list A) (k : Z) (x : A) :
  at_index xs k = Some x -> In x xs.
Proof.
  unfold at_index. destruct (k <? 0); [discriminate|]. apply nth_error_In.
Qed.

Lemma at_index_nodup (ts : list Track) (j k : Z) (a b : Track) :
  NoDup (map id ts) ->
  at_index ts j = Some a -> at_index ts k = Some b -> id a = id b -> j = k.
Proof.
  unfold at_index. intros Hnd.
  destruct (j <? 0) eqn:Ej; [discriminate|].
  destruct (k <? 0) eqn:Ek; [discriminate|].
  apply Z.ltb_ge in Ej, Ek. intros Ha Hb Hid.
  assert (Hj : nth_error (map id ts) (Z.to_nat j) = Some (id a))
    by (now apply map_nth_error).
  assert (Hk : nth_error (map id ts) (Z.to_nat k) = Some (id b))
    by (now apply map_nth_error).
  rewrite <- Hid in Hk.
  assert (Hlt : (Z.to_nat j < List.length (map id ts))%nat)
    by (apply nth_error_Some; congruence).
  pose proof (proj1 (NoDup_nth_error (map id ts)) Hnd
                (Z.to_nat j) (Z.to_nat k) Hlt) as Hinj.
  specialize (Hinj (eq_trans Hj (eq_sym Hk))). lia.
Qed.

(** ** The object store *)

Lemma store_ok_empty : store_ok emptyStore.
Proof. repeat split; simpl; try constructor; lia. Qed.

Lemma sorted_snoc (l : list Z) (k : Z) :
  StronglySorted Z.lt l -> Forall (fun x => x < k) l ->
  StronglySorted Z.lt (l ++ [k]).
Proof.
  induction 1 as [|a l Hs IH Ha]; intros Hk; simpl.
  - repeat constructor.
  - inversion Hk; subst. constructor; [now apply IH|].
    apply Forall_app. split; [exact Ha | now repeat constructor].
Qed.

Lemma sorted_nodup (l : list Z) : StronglySorted Z.lt l -> NoDup l.
Proof.
  induction 1 as [|a l Hs IH Ha]; constructor; [|exact IH].
  intros Hin. rewrite Forall_forall in Ha. specialize (Ha a Hin). lia.
Qed.

Lemma sorted_filter (p : Track -> bool) (rs : list Track) :
  StronglySorted Z.lt (map id rs) ->
  StronglySorted Z.lt (map id (filter p rs)).
Proof.
  induction rs as [|r rs IH]; simpl; intros H; [constructor|].
  inversion H as [|? ? Hs Hall]; subst.
  destruct (p r); simpl; [|now apply IH].
  constructor; [now apply IH|].
  rewrite Forall_forall in *. intros x Hx. apply Hall.
  apply in_map_iff in Hx as [t [<- Ht]]. apply filter_In in Ht as [Ht _].
  now apply in_map.
Qed.

Lemma store_add_ok (nm : string) (f : File) (d : ObjectStore) :
  store_ok d -> store_ok (snd (store_add nm f d)).
Proof.
  intros (Hs & Hb & Hg). unfold store_add. simpl. repeat split; simpl.
  - rewrite map_app. simpl. apply sorted_snoc; [exact Hs|].
    rewrite Forall_forall in *. intros x Hx.
    apply in_map_iff in Hx as [t [<- Ht]]. apply Hb in Ht. lia.
  - apply Forall_app. split.
    + eapply Forall_impl; [|exact Hb]. simpl. intros; lia.
    + repeat constructor; simpl; lia.
  - lia.
Qed.

Lemma store_delete_ok (i : Z) (d : ObjectStore) :
  store_ok d -> store_ok (store_delete i d).
Proof.
  intros (Hs & Hb & Hg). unfold store_delete. repeat split; simpl.
  - now apply sorted_filter.
  - rewrite Forall_forall in *. intros x Hx.
    apply filter_In in Hx as [Hx _]. now apply Hb.
  - exact Hg.
Qed.

Lemma store_delete_absent (i : Z) (d : ObjectStore) :
  ~ In i (map id (records (store_delete i d))).
Proof.
  unfold store_delete. simpl. intros H.
  apply in_map_iff in H as [t [E Ht]]. apply filter_In in Ht as [_ Ht].
  apply negb_true_iff, Z.eqb_neq in Ht. contradiction.
Qed.

Lemma put_sorted_In (t x : Track) (rs : list Track) :
  In x (put_sorted t rs) -> x = t \/ In x rs.
Proof.
  induction rs as [|r rs IH]; simpl.
  - intros [<-|[]]. now left.
  - destruct (id r =? id t).
    + intros [<-|H]; [now left | right; now right].
    + destruct (id t <? id r).
      * intros [<-|H]; [now left | now right].
      * intros [<-|H]; [right; now left|].
        destruct (IH H) as [->|H']; [now left | right; now right].
Qed.

Lemma put_sorted_sorted (t : Track) (rs : list Track) :
  StronglySorted Z.lt (map id rs) ->
  StronglySorted Z.lt (map id (put_sorted t rs)).
Proof.
  induction rs as [|r rs IH]; simpl; intros H.
  - repeat constructor.
  - inversion H as [|? ? Hs Hall]; subst.
    destruct (id r =? id t) eqn:E.
    + apply Z.eqb_eq in E. simpl. rewrite <- E. now constructor.
    + apply Z.eqb_neq in E. destruct (id t <? id r) eqn:L; simpl.
      * apply Z.ltb_lt in L. constructor; [exact H|].
        constructor; [exact L|].
        eapply Forall_impl; [|exact Hall]. simpl. intros; lia.
      * apply Z.ltb_ge in L. constructor; [now apply IH|].
        rewrite Forall_forall in *. intros x Hx.
        apply in_map_iff in Hx as [y [<- Hy]].
        apply put_sorted_In in Hy as [->|Hy]; [lia|].
        apply Hall. now apply in_map.
Qed.

Lemma put_sorted_find (t : Track) (rs : list Track) :
  StronglySorted Z.lt (map id rs) ->
  find_track (Some (id t)) (put_sorted t rs) = Some t.
Proof.
  unfold find_track.
  induction rs as [|r rs IH]; simpl; intros H.
  - now rewrite Z.eqb_refl.
  - destruct (id r =? id t) eqn:E; simpl.
    + now rewrite Z.eqb_refl.
    + destruct (id t <? id r); simpl.
      * now rewrite Z.eqb_refl.
      * rewrite E. apply IH. now inversion H.
Qed.

Lemma store_put_ok (t : Track) (d : ObjectStore) :
  store_ok d -> 1 <= id t < keyGenerator d -> store_ok (store_put t d).
Proof.
  intros (Hs & Hb & Hg) Ht. unfold store_put.
  destruct (keyGenerator d <=? id t) eqn:E; [apply Z.leb_le in E; lia|].
  repeat split; simpl.
  - now apply put_sorted_sorted.
  - rewrite Forall_forall in *. intros x Hx.
    apply put_sorted_In in Hx as [->|Hx]; [exact Ht | now apply Hb].
  - exact Hg.
Qed.

(** ** Ingesting a batch *)

Lemma ingestOne_generator (fo : File * IDBOutcome) (d : ObjectStore) :
  keyGenerator d <= keyGenerator (snd (ingestOne fo d)).
Proof.
  destruct fo as [f o]. unfold ingestOne, addTrackToDB.
  destruct o; simpl; lia.
Qed.

Lemma ingestOne_ok (fo : File * IDBOutcome) (d : ObjectStore) :
  store_ok d -> store_ok (snd (ingestOne fo d)).
Proof.
  destruct fo as [f o]. unfold ingestOne, addTrackToDB.
  destruct o; simpl; auto.
  intros H. apply (store_add_ok (stripExtension (blob_name f)) f d H).
Qed.

Lemma ingestAll_cons (fo : File * IDBOutcome)
    (rest : list (File * IDBOutcome)) (d : ObjectStore) :
  ingestAll (fo :: rest) d
  = (fst (ingestOne fo d) :: fst (ingestAll rest (snd (ingestOne fo d))),
     snd (ingestAll rest (snd (ingestOne fo d)))).
Proof.
  simpl. destruct (ingestOne fo d) as [p d1]. simpl.
  now destruct (ingestAll rest d1).
Qed.

Lemma ingestAll_generator (files : list (File * IDBOutcome))
    (d : ObjectStore) :
  keyGenerator d <= keyGenerator (snd (ingestAll files d)).
Proof.
  revert d. induction files as [|fo rest IH]; intros d.
  - simpl. lia.
  - rewrite ingestAll_cons. simpl.
    pose proof (ingestOne_generator fo d).
    pose proof (IH (snd (ingestOne fo d))). lia.
Qed.

Lemma ingestAll_ok (files : list (File * IDBOutcome)) (d : ObjectStore) :
  store_ok d -> store_ok (snd (ingestAll files d)).
Proof.
  revert d. induction files as [|fo rest IH]; intros d H.
  - exact H.
  - rewrite ingestAll_cons. simpl. apply IH. now apply ingestOne_ok.
Qed.

Lemma ingestOne_accepted (fo : File * IDBOutcome) (d : ObjectStore) :
  accepted fo = true ->
  let t := mkTrack (keyGenerator d) (stripExtension (blob_name (fst fo)))
                   (fst fo) None None in
  ingestOne fo d = (Resolved t, mkStore (records d ++ [t]) (keyGenerator d + 1)).
Proof.
  destruct fo as [f o]. unfold accepted, ingestOne, addTrackToDB. simpl.
  destruct o; simpl; intros H; try discriminate. reflexivity.
Qed.

Lemma ingestOne_refused (fo : File * IDBOutcome) (d : ObjectStore) :
  accepted fo = false ->
  exists r, ingestOne fo d = (Rejected r, d).
Proof.
  destruct fo as [f o]. unfold accepted, ingestOne, addTrackToDB. simpl.
  destruct o; simpl; intros H; try discriminate; eauto.
Qed.

Lemma ingestAll_resolved (files : list (File * IDBOutcome)) (d : ObjectStore)
    (newTracks : list Track) :
  Promise_all (fst (ingestAll files d)) = Resolved newTracks ->
  StronglySorted Z.lt (map id newTracks) /\
  Forall (fun t => keyGenerator d <= id t
                   < keyGenerator (snd (ingestAll files d))) newTracks /\
  records (snd (ingestAll files d)) = records d ++ newTracks /\
  map file newTracks = map fst files /\
  forallb accepted files = true.
Proof.
  revert d newTracks. induction files as [|fo rest IH]; intros d newTracks.
  - simpl. intros [= <-]. rewrite app_nil_r. repeat split; constructor.
  - rewrite ingestAll_cons. simpl fst. simpl snd.
    destruct (accepted fo) eqn:A.
    + rewrite (ingestOne_accepted fo d A). cbn [fst snd Promise_all].
      set (t := mkTrack _ _ _ _ _).
      set (d1 := mkStore _ _).
      destruct (Promise_all (fst (ingestAll rest d1))) as [l|r] eqn:P;
        [|discriminate].
      intros [= <-].
      destruct (IH d1 l P) as (Hs & Hb & Hr & Hf & Ha).
      pose proof (ingestAll_generator rest d1) as Hg.
      subst d1. simpl in Hb, Hr, Hg.
      repeat split.
      * simpl. constructor; [exact Hs|].
        rewrite Forall_forall in *. intros x Hx.
        apply in_map_iff in Hx as [y [<- Hy]].
        apply Hb in Hy. subst t. simpl. lia.
      * constructor; [subst t; simpl; lia|].
        eapply Forall_impl; [|exact Hb]. simpl. intros; lia.
      * rewrite Hr, <- app_assoc. reflexivity.
      * simpl. now rewrite Hf.
      * simpl. now rewrite A, Ha.
    + destruct (ingestOne_refused fo d A) as [r ->]. discriminate.
Qed.

Lemma ingestAll_rejected (files : list (File * IDBOutcome)) (d : ObjectStore) :
  forallb accepted files = false ->
  exists r, Promise_all (fst (ingestAll files d)) = Rejected r.
Proof.
  revert d. induction files as [|fo rest IH]; intros d; [discriminate|].
  rewrite ingestAll_cons. simpl fst. simpl forallb.
  destruct (accepted fo) eqn:A; simpl andb.
  - rewrite (ingestOne_accepted fo d A). cbn [fst snd Promise_all].
    intros H.
    match goal with
    | |- context [ingestAll rest ?d1] => destruct (IH d1 H) as [r ->]
    end.
    eauto.
  - intros _. destruct (ingestOne_refused fo d A) as [r ->].
    cbn [fst Promise_all]. eauto.
Qed.

Lemma ingestAll_persisted (files : list (File * IDBOutcome))
    (d : ObjectStore) :
  map file (records (snd (ingestAll files d)))
  = map file (records d) ++ map fst (filter accepted files).
Proof.
  revert d. induction files as [|fo rest IH]; intros d.
  - simpl. now rewrite app_nil_r.
  - rewrite ingestAll_cons. simpl snd. rewrite IH. simpl filter.
    destruct (accepted fo) eqn:A.
    + rewrite (ingestOne_accepted fo d A). simpl.
      rewrite map_app, <- app_assoc. reflexivity.
    + destruct (ingestOne_refused fo d A) as [r ->]. reflexivity.
Qed.

(** ** Effects *)

Ltac effect_cases :=
  unfold runEffects;
  repeat match goal with
         | |- context [if ?c then _ else _] => destruct c
         | |- context [match ?r with Rev1 => _ | Rev2 => _ end] => destruct r
         end.

Lemma runEffects_db (rev : Revision) (p n : State) (e : Env) :
  db (runEffects rev p n e) = db e.
Proof. effect_cases; reflexivity. Qed.

Lemma runEffects_urlSeq (rev : Revision) (p n : State) (e : Env) :
  urlSeq (runEffects rev p n e) = urlSeq e.
Proof. effect_cases; reflexivity. Qed.

Lemma runEffects_console (rev : Revision) (p n : State) (e : Env) :
  console (runEffects rev p n e) = console e.
Proof. effect_cases; reflexivity. Qed.

Lemma runEffects_urlLog (rev : Revision) (p n : State) (e : Env) :
  urlLog (runEffects rev p n e)
  = if negb (currentTrackUrl p =? currentTrackUrl n)%string
       && truthy_string (currentTrackUrl p)
    then Revoked (currentTrackUrl p) :: urlLog e
    else urlLog e.
Proof.
  unfold runEffects.
  destruct (negb (currentTrackUrl p =? currentTrackUrl n)%string
            && truthy_string (currentTrackUrl p));
    repeat match goal with
           | |- context [if ?c then _ else _] => destruct c
           | |- context [match ?r with Rev1 => _ | Rev2 => _ end] => destruct r
           end; reflexivity.
Qed.

Lemma runEffects_mounted (rev : Revision) (p n : State) (e : Env) :
  audioRef e <> None -> audioRef (runEffects rev p n e) <> None.
Proof.
  intros H. destruct (audioRef e) as [a|] eqn:A; [|contradiction].
  effect_cases; simpl; rewrite ?A; simpl; discriminate.
Qed.

Lemma Qeq_bool_refl (q : Q) : Qeq_bool q q = true.
Proof. apply Qeq_bool_iff. reflexivity. Qed.

(** A render that changes none of the dependencies runs no effect. *)
Lemma runEffects_idle (rev : Revision) (p n : State) (e : Env) :
  currentTrackUrl p = currentTrackUrl n ->
  isPlaying p = isPlaying n ->
  currentTrackId p = currentTrackId n ->
  volume p = volume n ->
  runEffects rev p n e = e.
Proof.
  intros Hu Hp Hi Hv. unfold runEffects.
  rewrite Hu, Hp, Hi, Hv, String.eqb_refl, Bool.eqb_reflx, strict_eq_refl,
    Qeq_bool_refl.
  now destruct rev.
Qed.

Lemma settle_unchanged (rev : Revision) (w : World) :
  settle rev (state w) w = w.
Proof.
  unfold settle. rewrite runEffects_idle by reflexivity. now destruct w.
Qed.

(** ** The invariant of the reachable states *)

Lemma Inv_install : Inv install.
Proof.
  constructor; simpl; try (repeat constructor; fail).
  - apply store_ok_empty.
  - discriminate.
  - discriminate.
Qed.

(** Intents that leave the library, the store, the active track and the
    object URLs alone keep the invariant. *)
Lemma Inv_frame (w w' : World) :
  Inv w ->
  tracks (state w') = tracks (state w) ->
  currentTrackId (state w') = currentTrackId (state w) ->
  currentTrackUrl (state w') = currentTrackUrl (state w) ->
  db (env w') = db (env w) ->
  urlLog (env w') = urlLog (env w) ->
  urlSeq (env w') = urlSeq (env w) ->
  audioRef (env w') <> None ->
  Inv w'.
Proof.
  intros [] Ht Hi Hu Hd Hl Hs Ha.
  constructor; rewrite ?Ht, ?Hi, ?Hu, ?Hd, ?Hl, ?Hs; assumption.
Qed.

Lemma Inv_settle_frame (rev : Revision) (w w' : World) :
  Inv w ->
  tracks (state w') = tracks (state w) ->
  currentTrackId (state w') = currentTrackId (state w) ->
  currentTrackUrl (state w') = currentTrackUrl (state w) ->
  db (env w') = db (env w) ->
  urlLog (env w') = urlLog (env w) ->
  urlSeq (env w') = urlSeq (env w) ->
  audioRef (env w') <> None ->
  Inv (settle rev (state w) w').
Proof.
  intros HI Ht Hi Hu Hd Hl Hs Ha.
  apply (Inv_frame w); unfold settle; simpl; auto.
  - now rewrite runEffects_db.
  - rewrite runEffects_urlLog, Hu, String.eqb_refl. exact Hl.
  - now rewrite runEffects_urlSeq.
  - now apply runEffects_mounted.
Qed.

(** Intents that change the library and the store, and leave the active
    track and the object URLs alone. *)
Lemma Inv_library (rev : Revision) (w w' : World) :
  Inv w ->
  store_ok (db (env w')) ->
  NoDup (map id (tracks (state w'))) ->
  Forall (fun t => 1 <= id t < keyGenerator (db (env w')))
         (tracks (state w')) ->
  (forall x t,
     currentTrackId (state w) = Some x ->
     find_track (Some x) (tracks (state w)) = Some t ->
     exists t', find_track (Some x) (tracks (state w')) = Some t'
                /\ file t' = file t) ->
  currentTrackId (state w') = currentTrackId (state w) ->
  currentTrackUrl (state w') = currentTrackUrl (state w) ->
  urlLog (env w') = urlLog (env w) ->
  urlSeq (env w') = urlSeq (env w) ->
  audioRef (env w') <> None ->
  Inv (settle rev (state w) w').
Proof.
  intros [] Hs Hn Hk Hf Hi Hu Hl Hq Ha.
  constructor; unfold settle; simpl;
    rewrite ?runEffects_db, ?runEffects_urlSeq, ?runEffects_urlLog,
      ?Hu, ?String.eqb_refl, ?Hi, ?Hl, ?Hq; simpl; auto.
  - intros x Hx. destruct (inv_active0 x Hx) as (t & k & Ft & Hlt & Eu & El).
    destruct (Hf x t Hx Ft) as (t' & Ft' & Efile).
    exists t', k. rewrite Efile. auto.
  - now apply runEffects_mounted.
Qed.

Lemma with_audio_mounted (f : Sink.t -> Sink.t) (e : Env) :
  audioRef e <> None -> audioRef (with_audio f e) <> None.
Proof. unfold with_audio. simpl. destruct (audioRef e); simpl; congruence. Qed.

Lemma Inv_handleFilesSelected (rev : Revision)
    (files : list (File * IDBOutcome)) (w : World) :
  Inv w -> Inv (settle rev (state w) (handleFilesSelected files w)).
Proof.
  intros HI. pose proof HI as [].
  unfold handleFilesSelected.
  destruct (ingestAll files (db (env w))) as [ps d] eqn:E.
  assert (Ed : d = snd (ingestAll files (db (env w)))) by now rewrite E.
  assert (Ep : ps = fst (ingestAll files (db (env w)))) by now rewrite E.
  pose proof (ingestAll_ok files _ inv_store0) as Hok.
  pose proof (ingestAll_generator files (db (env w))) as Hgen.
  rewrite <- Ed in Hok, Hgen.
  destruct (Promise_all ps) as [newTracks|r] eqn:P.
  - rewrite Ep in P. apply ingestAll_resolved in P
      as (Hs & Hb & Hr & Hf & Ha). rewrite <- Ed in Hb.
    apply Inv_library; simpl; auto.
    + rewrite map_app. apply NoDup_app; repeat split.
      * exact inv_unique0.
      * now apply sorted_nodup.
      * intros x Hx Hy.
        apply in_map_iff in Hx as [t [<- Ht]].
        apply in_map_iff in Hy as [u [Eu Hu]].
        rewrite Forall_forall in inv_keys0, Hb.
        apply inv_keys0 in Ht. apply Hb in Hu. lia.
    + apply Forall_app. split.
      * eapply Forall_impl; [|exact inv_keys0]. simpl. intros; lia.
      * eapply Forall_impl; [|exact Hb]. simpl.
        destruct inv_store0 as (_ & _ & Hg). intros; lia.
    + intros x t _ Ft. exists t. split; [|reflexivity].
      now apply find_track_app.
  - apply Inv_library; simpl; auto.
    + eapply Forall_impl; [|exact inv_keys0]. simpl. intros; lia.
    + intros x t _ Ft. eauto.
Qed.

Lemma nodup_ids_filter (p : Track -> bool) (ts : list Track) :
  NoDup (map id ts) -> NoDup (map id (filter p ts)).
Proof.
  induction ts as [|t ts IH]; simpl; intros H; [constructor|].
  inversion H as [|? ? Hx Hnd]; subst.
  destruct (p t); simpl; [|now apply IH].
  constructor; [|now apply IH].
  intros Hin. apply Hx.
  apply in_map_iff in Hin as [u [E Hu]]. apply filter_In in Hu as [Hu _].
  rewrite <- E. now apply in_map.
Qed.

Lemma blobUrl_eqb (m n : nat) : m <> n -> (blobUrl m =? blobUrl n)%string = false.
Proof.
  intros H. apply String.eqb_neq. intros E. now apply blobUrl_inj in E.
Qed.

Lemma blobUrl_nonempty (n : nat) : (blobUrl n =? "")%string = false.
Proof. reflexivity. Qed.

Lemma blobUrl_not_empty (n : nat) : blobUrl n <> "".
Proof. discriminate. Qed.

Opaque blobUrl.

Lemma applyPatch_id (data : EditData) (orig t : Track) :
  id orig = edit_id data -> id (applyPatch data orig t) = id t.
Proof.
  intros H. unfold applyPatch. destruct (id t =? edit_id data) eqn:E.
  - apply Z.eqb_eq in E. simpl. congruence.
  - reflexivity.
Qed.

Lemma handleEditorSave_found (data : EditData) (o : IDBOutcome) (w : World)
    (orig : Track) :
  find_track (Some (edit_id data)) (tracks (state w)) = Some orig ->
  handleEditorSave data o w
  = if succeeds o
    then (Resolved tt,
          mkWorld (set_editingTrackId None
                     (set_tracks (map (applyPatch data orig)
                                      (tracks (state w))) (state w)))
                  (set_db (store_put (patched data orig) (db (env w)))
                          (env w)))
    else (rejection o "Error updating track",
          mkWorld (state w) (set_db (db (env w)) (env w))).
Proof.
  intros H. unfold handleEditorSave. rewrite H. unfold updateTrackInDB.
  destruct o; reflexivity.
Qed.

Lemma handleEditorSave_missing (data : EditData) (o : IDBOutcome) (w : World) :
  find_track (Some (edit_id data)) (tracks (state w)) = None ->
  handleEditorSave data o w = (Resolved tt, w).
Proof. intros H. unfold handleEditorSave. now rewrite H. Qed.

Lemma Inv_handleEditorSave (rev : Revision) (data : EditData)
    (o : IDBOutcome) (w : World) :
  Inv w -> Inv (settle rev (state w) (snd (handleEditorSave data o w))).
Proof.
  intros HI. pose proof HI as [].
  destruct (find_track (Some (edit_id data)) (tracks (state w)))
    as [orig|] eqn:F.
  - rewrite (handleEditorSave_found data o w orig F).
    apply find_track_Some in F as Forig. destruct Forig as [Hin Hid].
    injection Hid as Hid. symmetry in Hid.
    assert (Hkey : 1 <= id orig < keyGenerator (db (env w))).
    { rewrite Forall_forall in inv_keys0. now apply inv_keys0. }
    assert (Hids : map id (map (applyPatch data orig) (tracks (state w)))
                   = map id (tracks (state w))).
    { rewrite map_map. apply map_ext. intros t. now apply applyPatch_id. }
    assert (Hgen : (if keyGenerator (db (env w)) <=? id orig
                    then id orig + 1 else keyGenerator (db (env w)))
                   = keyGenerator (db (env w))).
    { destruct (keyGenerator (db (env w)) <=? id orig) eqn:E;
        [apply Z.leb_le in E; lia | reflexivity]. }
    destruct (succeeds o); simpl.
    + apply Inv_library; simpl; auto.
      * now apply store_put_ok.
      * now rewrite Hids.
      * rewrite Hgen. apply Forall_forall. intros t Ht.
        apply in_map_iff in Ht as [u [<- Hu]].
        rewrite (applyPatch_id data orig u Hid).
        rewrite Forall_forall in inv_keys0. now apply inv_keys0.
      * intros x t _ Ft.
        exists (applyPatch data orig t). split.
        -- rewrite find_track_map by (intros; now apply applyPatch_id).
           now rewrite Ft.
        -- unfold applyPatch. destruct (id t =? edit_id data) eqn:E;
             [|reflexivity].
           apply Z.eqb_eq in E. simpl.
           apply find_track_Some in Ft as Ht. destruct Ht as [_ Hx].
           assert (Some orig = Some t) as [= ->]; [|reflexivity].
           rewrite <- F, <- Ft. congruence.
    + apply Inv_library; simpl; auto. eauto.
  - rewrite (handleEditorSave_missing data o w F). simpl.
    now rewrite settle_unchanged.
Qed.

Lemma Inv_reload (o : IDBOutcome) (w : World) :
  Inv w ->
  Inv (boot o (db (env w)) (Unloaded :: urlLog (env w)) (urlSeq (env w))).
Proof.
  intros []. pose proof inv_store0 as (Hs & Hb & Hg).
  unfold boot, getAllTracksFromDB.
  destruct (succeeds o); [|destruct o]; constructor; simpl;
    try (now apply sorted_nodup); try discriminate; auto;
    try (constructor; fail); try (split; [lia | assumption]).
Qed.

(** ** Selecting and deleting *)

Lemma handleTrackSelect_switch (i : Z) (w : World) (track : Track) :
  find_track (Some i) (tracks (state w)) = Some track ->
  currentTrackId (state w) <> Some i ->
  handleTrackSelect i w
  = mkWorld
      (set_isPlaying true
         (set_currentTrackUrl (blobUrl (urlSeq (env w)))
            (set_currentTrackId (Some i) (state w))))
      (snd (createObjectURL (file track)
              (if truthy_string (currentTrackUrl (state w))
               then revokeObjectURL (currentTrackUrl (state w)) (env w)
               else env w))).
Proof.
  intros F Hne. unfold handleTrackSelect. rewrite F.
  apply find_track_Some in F as [_ [= ->]].
  assert (E : strict_eq (Some (id track)) (currentTrackId (state w)) = false)
    by (apply strict_eq_false; congruence).
  rewrite E. simpl. now destruct (truthy_string (currentTrackUrl (state w))).
Qed.

Lemma handleTrackSelect_same (i : Z) (w : World) (track : Track) :
  find_track (Some i) (tracks (state w)) = Some track ->
  currentTrackId (state w) = Some i ->
  handleTrackSelect i w = handlePlayPause w.
Proof.
  intros F Hc. unfold handleTrackSelect. rewrite F.
  apply find_track_Some in F as [_ [= ->]].
  now rewrite Hc, strict_eq_refl.
Qed.

Lemma handleTrackSelect_missing (i : Z) (w : World) :
  find_track (Some i) (tracks (state w)) = None ->
  handleTrackSelect i w = w.
Proof. intros F. unfold handleTrackSelect. now rewrite F. Qed.

Lemma handlePlayPause_frame (w : World) :
  tracks (state (handlePlayPause w)) = tracks (state w) /\
  currentTrackId (state (handlePlayPause w)) = currentTrackId (state w) /\
  currentTrackUrl (state (handlePlayPause w)) = currentTrackUrl (state w) /\
  env (handlePlayPause w) = env w.
Proof.
  unfold handlePlayPause.
  destruct (negb (truthy_id (currentTrackId (state w)))); simpl; auto.
Qed.

Lemma Inv_handlePlayPause (rev : Revision) (w : World) :
  Inv w -> Inv (settle rev (state w) (handlePlayPause w)).
Proof.
  intros HI. destruct (handlePlayPause_frame w) as (Ht & Hi & Hu & He).
  apply Inv_settle_frame; auto; rewrite He; auto. apply HI.
Qed.

Lemma Inv_handleTrackSelect (rev : Revision) (i : Z) (w : World) :
  Inv w -> Inv (settle rev (state w) (handleTrackSelect i w)).
Proof.
  intros HI.
  destruct (find_track (Some i) (tracks (state w))) as [track|] eqn:F.
  2:{ rewrite (handleTrackSelect_missing i w F).
      now rewrite settle_unchanged. }
  destruct (strict_eq (currentTrackId (state w)) (Some i)) eqn:E.
  { apply strict_eq_true in E.
    rewrite (handleTrackSelect_same i w track F E).
    now apply Inv_handlePlayPause. }
  apply strict_eq_false in E.
  rewrite (handleTrackSelect_switch i w track F E).
  pose proof HI as [].
  destruct (currentTrackId (state w)) as [x|] eqn:C.
  - destruct (inv_active0 x eq_refl) as (t & k & Ft & Hk & Eu & El).
    rewrite Eu, blobUrl_truthy.
    assert (Hne : (blobUrl k =? blobUrl (urlSeq (env w)))%string = false)
      by (apply blobUrl_eqb; lia).
    assert (Hne' : (blobUrl (urlSeq (env w)) =? blobUrl k)%string = false)
      by (apply blobUrl_eqb; lia).
    constructor; unfold settle; simpl;
      rewrite ?runEffects_db, ?runEffects_urlSeq, ?runEffects_urlLog;
      simpl; rewrite ?Eu, ?Hne, ?blobUrl_truthy; simpl; rewrite ?El; simpl;
      rewrite ?String.eqb_refl, ?Hne'; simpl; auto.
    + discriminate.
    + intros y [= <-]. exists track, (urlSeq (env w)). auto.
    + apply runEffects_mounted. simpl. auto.
  - destruct (inv_idle0 eq_refl) as [Eu El].
    rewrite Eu. simpl.
    constructor; unfold settle; simpl;
      rewrite ?runEffects_db, ?runEffects_urlSeq, ?runEffects_urlLog;
      simpl; rewrite ?Eu; simpl; rewrite ?Bool.andb_false_r, ?El; simpl;
      rewrite ?El; auto.
    + discriminate.
    + intros y [= <-]. exists track, (urlSeq (env w)). auto.
    + apply runEffects_mounted. simpl. auto.
Qed.

Lemma handleTrackDelete_other (i : Z) (o : IDBOutcome) (w : World) :
  currentTrackId (state w) <> Some i ->
  snd (handleTrackDelete i o w)
  = if succeeds o
    then mkWorld (set_tracks (filter (fun t => negb (id t =? i))
                                     (tracks (state w))) (state w))
                 (set_db (store_delete i (db (env w))) (env w))
    else mkWorld (state w) (set_db (db (env w)) (env w)).
Proof.
  intros H. unfold handleTrackDelete.
  assert (E : strict_eq (Some i) (currentTrackId (state w)) = false)
    by (apply strict_eq_false; congruence).
  rewrite E. unfold deleteTrackFromDB. now destruct o.
Qed.

Lemma handleTrackDelete_active (i : Z) (o : IDBOutcome) (w : World) :
  currentTrackId (state w) = Some i ->
  truthy_string (currentTrackUrl (state w)) = true ->
  snd (handleTrackDelete i o w)
  = let e := released (currentTrackUrl (state w)) (env w) in
    if succeeds o
    then mkWorld (set_tracks (filter (fun t => negb (id t =? i))
                                     (tracks (state w)))
                             (stopped (state w)))
                 (set_db (store_delete i (db (env w))) e)
    else mkWorld (stopped (state w)) (set_db (db (env w)) e).
Proof.
  intros Hc Hu. unfold handleTrackDelete.
  rewrite Hc, strict_eq_refl, Hu. unfold deleteTrackFromDB.
  now destruct o.
Qed.

Lemma Inv_handleTrackDelete (rev : Revision) (i : Z) (o : IDBOutcome)
    (w : World) :
  Inv w -> Inv (settle rev (state w) (snd (handleTrackDelete i o w))).
Proof.
  intros HI. pose proof HI as [].
  destruct (strict_eq (currentTrackId (state w)) (Some i)) eqn:E.
  - apply strict_eq_true in E.
    destruct (inv_active0 i E) as (t & k & Ft & Hk & Eu & El).
    rewrite (handleTrackDelete_active i o w E)
      by (rewrite Eu; apply blobUrl_truthy).
    cbv zeta. rewrite Eu.
    destruct (succeeds o);
      constructor; unfold settle; simpl;
      rewrite ?runEffects_db, ?runEffects_urlSeq, ?runEffects_urlLog;
      simpl; rewrite ?Eu, ?blobUrl_nonempty, ?blobUrl_truthy; simpl;
      rewrite ?El; simpl; rewrite ?String.eqb_refl; simpl; auto;
      try discriminate;
      try (apply runEffects_mounted; simpl; now apply with_audio_mounted).
    + now apply store_delete_ok.
    + now apply nodup_ids_filter.
    + rewrite Forall_forall in *. intros x Hx.
      apply filter_In in Hx as [Hx _]. now apply inv_keys0.
  - apply strict_eq_false in E.
    rewrite (handleTrackDelete_other i o w E).
    destruct (succeeds o).
    + apply Inv_library; simpl; auto.
      * now apply store_delete_ok.
      * now apply nodup_ids_filter.
      * rewrite Forall_forall in *. intros x Hx.
        apply filter_In in Hx as [Hx _]. now apply inv_keys0.
      * intros x t Hx Ft. exists t. split; [|reflexivity].
        rewrite find_track_filter; [exact Ft | congruence].
    + apply Inv_library; simpl; auto. eauto.
Qed.

(** ** Advancing *)

Lemma playNextTrack_cases (w : World) :
  playNextTrack w = w \/
  playNextTrack w
  = mkWorld (state w)
      (with_audio (fun a => Sink.play (Sink.set_currentTime 0%Q a)) (env w)) \/
  exists i, playNextTrack w = handleTrackSelect i w.
Proof.
  unfold playNextTrack, selectAt.
  destruct (Z.of_nat (List.length (tracks (state w))) =? 0); [now left|].
  match goal with |- context [if ?c then _ else _] => destruct c end;
    [right; now left|].
  match goal with |- context [at_index ?l ?k] => destruct (at_index l k) end;
    [right; right; eauto | now left].
Qed.

Lemma playPrevTrack_cases (w : World) :
  playPrevTrack w = w \/ exists i, playPrevTrack w = handleTrackSelect i w.
Proof.
  unfold playPrevTrack, selectAt.
  destruct (Z.of_nat (List.length (tracks (state w))) <? 2); [now left|].
  match goal with |- context [at_index ?l ?k] => destruct (at_index l k) end;
    [right; eauto | now left].
Qed.

Lemma Inv_playNextTrack (rev : Revision) (w : World) :
  Inv w -> Inv (settle rev (state w) (playNextTrack w)).
Proof.
  intros HI. destruct (playNextTrack_cases w) as [-> | [-> | [i ->]]].
  - now rewrite settle_unchanged.
  - apply Inv_settle_frame; simpl; auto.
    apply with_audio_mounted, HI.
  - now apply Inv_handleTrackSelect.
Qed.

Lemma Inv_playPrevTrack (rev : Revision) (w : World) :
  Inv w -> Inv (settle rev (state w) (playPrevTrack w)).
Proof.
  intros HI. destruct (playPrevTrack_cases w) as [-> | [i ->]].
  - now rewrite settle_unchanged.
  - now apply Inv_handleTrackSelect.
Qed.

Lemma Inv_step (rev : Revision) (i : Intent) (w : World) :
  Inv w -> Inv (step rev i w).
Proof.
  intros HI. destruct i; simpl.
  - now apply Inv_handleFilesSelected.
  - now apply Inv_handleTrackDelete.
  - apply Inv_settle_frame; simpl; auto. apply HI.
  - now apply Inv_handleEditorSave.
  - now apply Inv_handleTrackSelect.
  - now apply Inv_handlePlayPause.
  - now apply Inv_playNextTrack.
  - now apply Inv_playPrevTrack.
  - unfold handleSeek. pose proof (inv_mounted w HI) as Hm.
    destruct (audioRef (env w)) eqn:A; [|contradiction].
    apply Inv_settle_frame; simpl; auto. rewrite A. discriminate.
  - apply Inv_settle_frame; simpl; auto. apply HI.
  - apply Inv_settle_frame; simpl; auto. apply HI.
  - apply Inv_settle_frame; simpl; auto. apply HI.
  - apply Inv_settle_frame; simpl; auto. apply HI.
  - unfold onTimeUpdate. pose proof (inv_mounted w HI) as Hm.
    destruct (audioRef (env w)) eqn:A; [|contradiction].
    apply Inv_settle_frame; simpl; auto. rewrite A. discriminate.
  - unfold onLoadedMetadata. pose proof (inv_mounted w HI) as Hm.
    destruct (audioRef (env w)) eqn:A; [|contradiction].
    apply Inv_settle_frame; simpl; auto. rewrite A. discriminate.
  - now apply Inv_playNextTrack.
  - now apply Inv_reload.
Qed.

Lemma Inv_reachable (rev : Revision) (w : World) : reachable rev w -> Inv w.
Proof.
  induction 1 as [|i w Hr IH]; [apply Inv_install | now apply Inv_step].
Qed.

Lemma reachable_run (rev : Revision) (intents : list Intent) (w : World) :
  reachable rev w -> reachable rev (run rev intents w).
Proof.
  revert w. induction intents as [|i rest IH]; intros w H; simpl.
  - exact H.
  - apply IH. now constructor.
Qed.

(** * The claims *)

(** ** C1 *)

(** C1. For every sequence of intents from the first visit on (selections
    and deletions among them), at every moment of the history of the
    document's object URLs at most one audio handle is live: a select
    revokes the previous URL before it creates the new one. *)
Theorem at_most_one_live_handle (rev : Revision) (intents : list Intent) :
  never_two (urlLog (env (run rev intents install))) /\
  (List.length (live (urlLog (env (run rev intents install)))) <= 1)%nat.
Proof.
  pose proof (Inv_reachable rev _
                (reachable_run rev intents install (reach_install rev)))
    as HI.
  split; [apply HI|].
  destruct (currentTrackId (state (run rev intents install))) as [x|] eqn:C.
  - destruct (inv_active _ HI x C) as (t & k & _ & _ & _ & El).
    rewrite El. simpl. lia.
  - destruct (inv_idle _ HI C) as [_ El]. rewrite El. simpl. lia.
Qed.

(** A switch to another track revokes the bound URL, then creates the new
    one. *)
Lemma select_releases_before_binding (i : Z) (w : World) (track : Track) :
  find_track (Some i) (tracks (state w)) = Some track ->
  currentTrackId (state w) <> Some i ->
  truthy_string (currentTrackUrl (state w)) = true ->
  urlLog (env (handleTrackSelect i w))
  = Created (blobUrl (urlSeq (env w))) (file track)
    :: Revoked (currentTrackUrl (state w)) :: urlLog (env w).
Proof.
  intros F Hne Hu. rewrite (handleTrackSelect_switch i w track F Hne).
  now rewrite Hu.
Qed.

Example live_after_advance :
  live (urlLog (env playingB)) = [(blobUrl 0, song "B.mp3")] /\
  live (urlLog (env (run Rev1 [Next] playingB)))
  = [(blobUrl 1, song "C.mp3")] /\
  live (urlLog (env (run Rev1 [Next; DeleteTrack 3 RequestSucceeds]
                         playingB))) = [].
Proof. repeat split; vm_compute; reflexivity. Qed.

(** ** C2 *)

(** C2. After every intent has settled, [currentTrackId] is [null] exactly
    when [currentTrackUrl] is the empty string. *)
Theorem active_handle_consistency (rev : Revision) (intents : list Intent) :
  currentTrackId (state (run rev intents install)) = None <->
  currentTrackUrl (state (run rev intents install)) = "".
Proof.
  pose proof (Inv_reachable rev _
                (reachable_run rev intents install (reach_install rev)))
    as HI.
  split.
  - intros C. now destruct (inv_idle _ HI C).
  - intros U.
    destruct (currentTrackId (state (run rev intents install)))
      as [x|] eqn:C; [|reflexivity].
    destruct (inv_active _ HI x C) as (t & k & _ & _ & Eu & _).
    rewrite Eu in U. now apply blobUrl_not_empty in U.
Qed.

(** ** C3 *)

Lemma ingestAll_fst_snd (files : list (File * IDBOutcome)) (d : ObjectStore) :
  ingestAll files d = (fst (ingestAll files d), snd (ingestAll files d)).
Proof. now destruct (ingestAll files d). Qed.

(** C3, as the code has it. When the store refuses a file of a batch,
    [Promise.all] rejects and [setTracks] is not reached: no record is
    appended to the library, although every accepted file is in the store;
    one message is logged and [isUploading] is reset. *)
Theorem ingest_partial_failure (rev : Revision)
    (files : list (File * IDBOutcome)) (w : World) :
  forallb accepted files = false ->
  tracks (state (step rev (IngestFiles files) w)) = tracks (state w) /\
  map file (records (db (env (step rev (IngestFiles files) w))))
  = map file (records (db (env w))) ++ map fst (filter accepted files) /\
  (exists r, console (env (step rev (IngestFiles files) w))
             = ("Failed to add tracks: " ++ r)%string :: console (env w)) /\
  isUploading (state (step rev (IngestFiles files) w)) = false.
Proof.
  intros H. simpl. unfold settle, handleFilesSelected.
  rewrite (ingestAll_fst_snd files (db (env w))).
  destruct (ingestAll_rejected files (db (env w)) H) as [r ->].
  simpl. rewrite runEffects_db, runEffects_console. simpl.
  repeat split.
  - apply ingestAll_persisted.
  - now exists r.
Qed.

Lemma ingest_partial_failure_witness :
  forallb accepted batchAxC = false /\
  tracks (state (step Rev1 (IngestFiles batchAxC) install)) = [] /\
  List.length (records (db (env (step Rev1 (IngestFiles batchAxC) install))))
  = 2%nat.
Proof.
  split; [reflexivity|].
  split.
  - exact (proj1 (ingest_partial_failure Rev1 batchAxC install eq_refl)).
  - reflexivity.
Defined.

(** The batch of three whose second file is refused adds no record to the
    library, not two; the two accepted files are in the store. *)
Lemma ingest_partial_failure_counterexample :
  tracks (state (step Rev1 (IngestFiles batchAxC) install)) = [] /\
  List.length (tracks (state (step Rev1 (IngestFiles batchAxC) install)))
  <> (List.length (tracks (state install)) + 2)%nat /\
  map id (records (db (env (step Rev1 (IngestFiles batchAxC) install))))
  = [1; 2].
Proof. repeat split; [discriminate]. Qed.

Lemma ingestAll_accepted (files : list (File * IDBOutcome)) (d : ObjectStore) :
  forallb accepted files = true ->
  exists newTracks, Promise_all (fst (ingestAll files d)) = Resolved newTracks.
Proof.
  revert d. induction files as [|fo rest IH]; intros d H.
  - now exists [].
  - simpl in H. apply andb_true_iff in H as [A H].
    rewrite ingestAll_cons. simpl fst.
    rewrite (ingestOne_accepted fo d A). cbn [fst snd Promise_all].
    match goal with
    | |- context [ingestAll rest ?d1] => destruct (IH d1 H) as [l ->]
    end.
    eauto.
Qed.

(** When the store accepts every file, the records are appended. *)
Lemma ingest_all_accepted (rev : Revision)
    (files : list (File * IDBOutcome)) (w : World) :
  forallb accepted files = true ->
  exists newTracks,
    tracks (state (step rev (IngestFiles files) w))
    = tracks (state w) ++ newTracks /\
    records (db (env (step rev (IngestFiles files) w)))
    = records (db (env w)) ++ newTracks /\
    map file newTracks = map fst files.
Proof.
  intros H. simpl. unfold settle, handleFilesSelected.
  rewrite (ingestAll_fst_snd files (db (env w))).
  destruct (ingestAll_accepted files (db (env w)) H) as [newTracks P].
  rewrite P. apply ingestAll_resolved in P as (_ & _ & Hr & Hf & _).
  exists newTracks. simpl. rewrite runEffects_db. simpl. auto.
Qed.

(** ** C4 *)

(** C4, as the code has it. For an id that no track of the library has,
    [handleEditorSave] returns at its guard: the promise resolves (there is
    no error), no store request is issued whatever the store would have
    answered, and neither the store nor the library nor anything else
    changes. *)
Theorem edit_missing_is_silent (rev : Revision) (data : EditData)
    (o : IDBOutcome) (w : World) :
  ~ In (edit_id data) (map id (tracks (state w))) ->
  handleEditorSave data o w = (Resolved tt, w) /\
  step rev (EditTrack data o) w = w.
Proof.
  intros H. apply find_track_None in H.
  rewrite (handleEditorSave_missing data o w H). split; [reflexivity|].
  simpl. rewrite (handleEditorSave_missing data o w H). simpl.
  apply settle_unchanged.
Qed.

Lemma edit_missing_is_silent_witness :
  ~ In 7 (map id (tracks (state libraryABC))) /\
  step Rev1 (EditTrack (mkEditData 7 (Some picture) None) RequestErrors)
       libraryABC = libraryABC.
Proof.
  assert (H : ~ In 7 (map id (tracks (state libraryABC)))).
  { vm_compute. intros [H|[H|[H|[]]]]; discriminate. }
  split; [exact H|].
  exact (proj2 (edit_missing_is_silent Rev1
                  (mkEditData 7 (Some picture) None) RequestErrors
                  libraryABC H)).
Defined.

(** The edit of an absent id does not fail: its promise resolves. *)
Lemma edit_missing_counterexample :
  ~ In 7 (map id (tracks (state libraryABC))) /\
  isRejected
    (fst (handleEditorSave (mkEditData 7 (Some picture) None)
            RequestSucceeds libraryABC)) = false.
Proof.
  split; [|reflexivity].
  vm_compute. intros [H|[H|[H|[]]]]; discriminate.
Qed.

(** ** C5, C10: advancing *)

Lemma settle_select (rev : Revision) (w : World) (t : Track) :
  find_track (Some (id t)) (tracks (state w)) = Some t ->
  currentTrackId (state w) <> Some (id t) ->
  selects t w (settle rev (state w) (handleTrackSelect (id t) w)).
Proof.
  intros F Hne. rewrite (handleTrackSelect_switch (id t) w t F Hne).
  unfold selects, settle. simpl. repeat split; [exact F|].
  rewrite runEffects_urlLog. simpl.
  destruct (truthy_string (currentTrackUrl (state w)));
    match goal with |- context [if ?c then _ else _] => destruct c end;
    simpl; auto.
Qed.

Lemma playNextTrack_many (w : World) :
  2 <= Z.of_nat (List.length (tracks (state w))) ->
  playNextTrack w
  = selectAt (Z.rem (findIndex (currentTrackId (state w)) (tracks (state w)) + 1)
                    (Z.of_nat (List.length (tracks (state w))))) w.
Proof.
  intros H. unfold playNextTrack.
  destruct (Z.of_nat (List.length (tracks (state w))) =? 0) eqn:E0;
    [apply Z.eqb_eq in E0; lia|].
  destruct (Z.of_nat (List.length (tracks (state w))) =? 1) eqn:E1;
    [apply Z.eqb_eq in E1; lia|].
  reflexivity.
Qed.

Lemma playPrevTrack_many (w : World) :
  2 <= Z.of_nat (List.length (tracks (state w))) ->
  playPrevTrack w
  = selectAt (Z.rem (findIndex (currentTrackId (state w)) (tracks (state w))
                     - 1 + Z.of_nat (List.length (tracks (state w))))
                    (Z.of_nat (List.length (tracks (state w))))) w.
Proof.
  intros H. unfold playPrevTrack.
  destruct (Z.of_nat (List.length (tracks (state w))) <? 2) eqn:E;
    [apply Z.ltb_lt in E; lia | reflexivity].
Qed.

Lemma playNextTrack_empty (w : World) :
  tracks (state w) = [] -> playNextTrack w = w.
Proof. intros H. unfold playNextTrack. now rewrite H. Qed.

Lemma playPrevTrack_few (w : World) :
  (List.length (tracks (state w)) < 2)%nat -> playPrevTrack w = w.
Proof.
  intros H. unfold playPrevTrack.
  destruct (Z.of_nat (List.length (tracks (state w))) <? 2) eqn:E;
    [reflexivity | apply Z.ltb_ge in E; lia].
Qed.

(** The selection of the track at an index of a library without duplicate
    ids, when that track is not the active one. *)
Lemma settle_selectAt (rev : Revision) (w : World) (k : Z) (t : Track) :
  NoDup (map id (tracks (state w))) ->
  at_index (tracks (state w)) k = Some t ->
  currentTrackId (state w) <> Some (id t) ->
  selects t w (settle rev (state w) (selectAt k w)).
Proof.
  intros Hnd Hk Hne. unfold selectAt. rewrite Hk.
  apply settle_select; [|exact Hne].
  apply find_track_nodup; [exact Hnd | now apply at_index_In in Hk].
Qed.

(** C5. In a library of at least two tracks that contains the active
    track at index [k], [playNextTrack] selects the track at index
    [(k + 1) mod count] and [playPrevTrack] the track at index
    [(k - 1 + count) mod count]; with no track [playNextTrack] changes
    nothing, and with fewer than two tracks [playPrevTrack] changes
    nothing. *)
Theorem circular_advance (rev : Revision) (w : World) :
  (tracks (state w) = [] -> step rev Next w = w) /\
  ((List.length (tracks (state w)) < 2)%nat -> step rev Previous w = w) /\
  (forall k count,
     count = Z.of_nat (List.length (tracks (state w))) ->
     k = findIndex (currentTrackId (state w)) (tracks (state w)) ->
     NoDup (map id (tracks (state w))) ->
     2 <= count ->
     0 <= k ->
     (exists t, at_index (tracks (state w)) ((k + 1) mod count) = Some t /\
                selects t w (step rev Next w)) /\
     (exists t, at_index (tracks (state w)) ((k - 1 + count) mod count)
                = Some t /\
                selects t w (step rev Previous w))).
Proof.
  split; [|split].
  - intros H. simpl. rewrite (playNextTrack_empty w H).
    apply settle_unchanged.
  - intros H. simpl. rewrite (playPrevTrack_few w H).
    apply settle_unchanged.
  - intros k count -> -> Hnd Hn Hk.
    set (ts := tracks (state w)) in *.
    set (n := Z.of_nat (List.length ts)) in *.
    set (k := findIndex (currentTrackId (state w)) ts) in *.
    destruct (findIndex_range (currentTrackId (state w)) ts) as [R|R];
      fold k in R; [lia|]. fold n in R.
    destruct (findIndex_found (currentTrackId (state w)) ts Hk)
      as (tk & Hat & Hcur). fold k in Hat.
    assert (Hother : forall j t, at_index ts j = Some t -> j <> k ->
                                 currentTrackId (state w) <> Some (id t)).
    { intros j t Hj Hjk E. rewrite Hcur in E. injection E as E.
      apply Hjk. symmetry. now apply (at_index_nodup ts k j tk t). }
    split.
    + destruct (at_index_Some ts ((k + 1) mod n)) as [t Ht];
        [apply Z.mod_pos_bound; lia|].
      exists t. split; [exact Ht|].
      simpl. rewrite (playNextTrack_many w Hn). fold ts n k.
      rewrite Z.rem_mod_nonneg by lia.
      apply settle_selectAt; [exact Hnd | exact Ht |].
      apply (Hother _ _ Ht).
      destruct (Z.eq_dec (k + 1) n) as [E|E].
      * rewrite E, Z.mod_same by lia. lia.
      * rewrite Z.mod_small by lia. lia.
    + destruct (at_index_Some ts ((k - 1 + n) mod n)) as [t Ht];
        [apply Z.mod_pos_bound; lia|].
      exists t. split; [exact Ht|].
      simpl. rewrite (playPrevTrack_many w Hn). fold ts n k.
      rewrite Z.rem_mod_nonneg by lia.
      apply settle_selectAt; [exact Hnd | exact Ht |].
      apply (Hother _ _ Ht).
      destruct (Z.eq_dec k 0) as [E|E].
      * rewrite E. rewrite Z.mod_small by lia. lia.
      * replace (k - 1 + n) with (k - 1 + 1 * n) by lia.
        rewrite Z.mod_add by lia. rewrite Z.mod_small by lia. lia.
Qed.

Ltac distinct_ids :=
  vm_compute;
  repeat (constructor; [intros H; simpl in H; intuition discriminate|]);
  constructor.

Lemma circular_advance_witness :
  step Rev1 Next install = install /\
  step Rev1 Previous playingOnlyA = playingOnlyA /\
  (exists t, at_index (tracks (state playingB)) 2 = Some t /\
             selects t playingB (step Rev1 Next playingB)) /\
  (exists t, at_index (tracks (state playingB)) 0 = Some t /\
             selects t playingB (step Rev1 Previous playingB)).
Proof.
  split; [|split].
  - exact (proj1 (circular_advance Rev1 install) eq_refl).
  - apply (proj1 (proj2 (circular_advance Rev1 playingOnlyA))).
    vm_compute. lia.
  - apply (proj2 (proj2 (circular_advance Rev1 playingB)) 1 3).
    + reflexivity.
    + reflexivity.
    + distinct_ids.
    + lia.
    + lia.
Defined.

(** The example of the specification: in [A, B, C] with [B] active, one
    advance makes [C] active and the next one wraps to [A]. *)
Example circular_advance_wraps :
  currentTrackId (state (run Rev1 [Next] playingB)) = Some 3 /\
  currentTrackId (state (run Rev1 [Next; Next] playingB)) = Some 1.
Proof. split; reflexivity. Qed.

(** C10. In a library of at least two tracks in which the active id is
    [null] or the id of no track, the computed index is [-1]:
    [playNextTrack] selects the track at index [0] and [playPrevTrack] the
    track at index [count - 2]. *)
Theorem advance_without_active (rev : Revision) (w : World) (count : Z) :
  count = Z.of_nat (List.length (tracks (state w))) ->
  NoDup (map id (tracks (state w))) ->
  2 <= count ->
  find_track (currentTrackId (state w)) (tracks (state w)) = None ->
  findIndex (currentTrackId (state w)) (tracks (state w)) = -1 /\
  (exists t, at_index (tracks (state w)) 0 = Some t /\
             selects t w (step rev Next w)) /\
  (exists t, at_index (tracks (state w)) (count - 2) = Some t /\
             selects t w (step rev Previous w)).
Proof.
  intros -> Hnd Hn Hmiss.
  set (ts := tracks (state w)) in *.
  set (n := Z.of_nat (List.length ts)) in *.
  pose proof (findIndex_missing _ _ Hmiss) as Hidx. fold ts in Hidx.
  assert (Hother : forall t, In t ts ->
                             currentTrackId (state w) <> Some (id t)).
  { intros t Hin E. rewrite E in Hmiss.
    apply find_track_None in Hmiss. apply Hmiss. now apply in_map. }
  split; [exact Hidx|]. split.
  - destruct (at_index_Some ts 0) as [t Ht]; [lia|].
    exists t. split; [exact Ht|].
    simpl. rewrite (playNextTrack_many w Hn). fold ts n. rewrite Hidx.
    replace (Z.rem (-1 + 1) n) with 0
      by (rewrite Z.rem_mod_nonneg by lia; now rewrite Z.mod_0_l by lia).
    apply settle_selectAt; [exact Hnd | exact Ht |].
    apply Hother. now apply at_index_In in Ht.
  - destruct (at_index_Some ts (n - 2)) as [t Ht]; [lia|].
    exists t. split; [exact Ht|].
    simpl. rewrite (playPrevTrack_many w Hn). fold ts n. rewrite Hidx.
    replace (Z.rem (-1 - 1 + n) n) with (n - 2)
      by (rewrite Z.rem_mod_nonneg by lia; rewrite Z.mod_small by lia; lia).
    apply settle_selectAt; [exact Hnd | exact Ht |].
    apply Hother. now apply at_index_In in Ht.
Qed.

Lemma advance_without_active_witness :
  (exists t, at_index (tracks (state libraryABC)) 0 = Some t /\
             selects t libraryABC (step Rev1 Next libraryABC)) /\
  (exists t, at_index (tracks (state libraryABC)) 1 = Some t /\
             selects t libraryABC (step Rev1 Previous libraryABC)).
Proof.
  apply (advance_without_active Rev1 libraryABC 3).
  - reflexivity.
  - distinct_ids.
  - lia.
  - reflexivity.
Defined.

(** With nothing active in [A, B, C], "next" starts [A] and "previous"
    starts [B], the second-to-last track. *)
Example advance_without_active_ids :
  currentTrackId (state (step Rev1 Next libraryABC)) = Some 1 /\
  currentTrackId (state (step Rev1 Previous libraryABC)) = Some 2.
Proof. split; reflexivity. Qed.

(** ** C6 *)

(** C6. When the library is the single active track, the end of the track
    sets the position of the element to zero and plays it again: the state
    of the component (the active id and its URL among the rest) is
    unchanged, no object URL is created and none is revoked. *)
Theorem loop_of_one (rev : Revision) (w : World) (t : Track) (a : Sink.t) :
  tracks (state w) = [t] ->
  currentTrackId (state w) = Some (id t) ->
  audioRef (env w) = Some a ->
  state (step rev Ended w) = state w /\
  urlLog (env (step rev Ended w)) = urlLog (env w) /\
  urlSeq (env (step rev Ended w)) = urlSeq (env w) /\
  db (env (step rev Ended w)) = db (env w) /\
  audioRef (env (step rev Ended w))
  = Some (Sink.play (Sink.set_currentTime 0%Q a)) /\
  Sink.currentTime (Sink.play (Sink.set_currentTime 0%Q a)) = 0%Q /\
  Sink.paused (Sink.play (Sink.set_currentTime 0%Q a)) = false /\
  Sink.src (Sink.play (Sink.set_currentTime 0%Q a)) = Sink.src a.
Proof.
  intros Ht Hc Ha. simpl. unfold playNextTrack.
  rewrite Ht, Hc. simpl List.length. cbn [Z.of_nat Pos.of_succ_nat Z.eqb].
  rewrite strict_eq_refl. simpl andb. cbv iota.
  unfold settle. simpl state. rewrite runEffects_idle by reflexivity.
  simpl. rewrite Ha. simpl. repeat split.
Qed.

Lemma loop_of_one_witness :
  tracks (state playingOnlyA)
  = [mkTrack 1 "A" (song "A.mp3") None None] /\
  currentTrackId (state (step Rev1 Ended playingOnlyA)) = Some 1 /\
  urlLog (env (step Rev1 Ended playingOnlyA)) = urlLog (env playingOnlyA).
Proof.
  assert (Ht : tracks (state playingOnlyA)
               = [mkTrack 1 "A" (song "A.mp3") None None]) by reflexivity.
  assert (Ha : audioRef (env playingOnlyA)
               = Some (Sink.mk (blobUrl 0) 0%Q 0%Q false (75 # 100)%Q))
    by reflexivity.
  pose proof (loop_of_one Rev1 playingOnlyA _ _ Ht eq_refl Ha)
    as (Hs & Hl & _).
  split; [exact Ht|]. split; [|exact Hl].
  rewrite Hs. reflexivity.
Defined.

(** ** C7 *)

(** C7. Deleting the active track [X], whatever the transport flag is,
    leaves the coordinator idle: [isPlaying] is false, the active id is
    [null], the URL is revoked and no URL is live, the element has no
    source and is paused; and when the store has performed the deletion,
    neither the store nor the library has a record with the id of [X].
    This holds in every state the application can reach. *)
Theorem delete_active_resets (rev : Revision) (w : World) (X : Z)
    (o : IDBOutcome) :
  reachable rev w ->
  currentTrackId (state w) = Some X ->
  isPlaying (state (step rev (DeleteTrack X o) w)) = false /\
  currentTrackId (state (step rev (DeleteTrack X o) w)) = None /\
  currentTrackUrl (state (step rev (DeleteTrack X o) w)) = "" /\
  In (Revoked (currentTrackUrl (state w)))
     (urlLog (env (step rev (DeleteTrack X o) w))) /\
  live (urlLog (env (step rev (DeleteTrack X o) w))) = [] /\
  (exists a, audioRef (env (step rev (DeleteTrack X o) w)) = Some a /\
             Sink.src a = "" /\ Sink.paused a = true) /\
  (succeeds o = true ->
   ~ In X (map id (tracks (state (step rev (DeleteTrack X o) w)))) /\
   ~ In X (map id (records (db (env (step rev (DeleteTrack X o) w)))))).
Proof.
  intros Hr Hc. apply Inv_reachable in Hr.
  destruct (inv_active w Hr X Hc) as (t & k & Ft & Hk & Eu & El).
  pose proof (inv_mounted w Hr) as Hm.
  destruct (audioRef (env w)) as [a|] eqn:Ha; [|contradiction].
  assert (Hpost : Inv (step rev (DeleteTrack X o) w)) by now apply Inv_step.
  simpl in *.
  rewrite (handleTrackDelete_active X o w Hc) in *
    by (rewrite Eu; apply blobUrl_truthy).
  cbv zeta in *. rewrite Eu in *.
  assert (Hidle : forall st', currentTrackId st' = None ->
                              strict_eq (currentTrackId (state w))
                                        (currentTrackId st') = false).
  { intros st' E. rewrite E, Hc. reflexivity. }
  destruct (succeeds o) eqn:So; unfold settle in *; simpl in *.
  - repeat split.
    + rewrite runEffects_urlLog. simpl.
      rewrite Eu, blobUrl_nonempty, blobUrl_truthy. simpl. auto.
    + now destruct (inv_idle _ Hpost eq_refl).
    + unfold runEffects. simpl.
      rewrite Eu, blobUrl_nonempty, blobUrl_truthy, Qeq_bool_refl, Hc.
      simpl. rewrite Bool.orb_true_r, Bool.andb_false_r. simpl.
      rewrite Ha. simpl. eexists. repeat split.
    + intros Hin. apply in_map_iff in Hin as [u [E Hu]].
      apply filter_In in Hu as [_ Hu].
      apply negb_true_iff, Z.eqb_neq in Hu. contradiction.
    + rewrite runEffects_db. simpl. apply store_delete_absent.
  - repeat split.
    + rewrite runEffects_urlLog. simpl.
      rewrite Eu, blobUrl_nonempty, blobUrl_truthy. simpl. auto.
    + now destruct (inv_idle _ Hpost eq_refl).
    + unfold runEffects. simpl.
      rewrite Eu, blobUrl_nonempty, blobUrl_truthy, Qeq_bool_refl, Hc.
      simpl. rewrite Bool.orb_true_r, Bool.andb_false_r. simpl.
      rewrite Ha. simpl. eexists. repeat split.
    + discriminate.
    + discriminate.
Qed.

Lemma reachable_playingB : reachable Rev1 playingB.
Proof.
  unfold playingB, libraryABC.
  apply reachable_run, reachable_run, reach_install.
Qed.

Lemma delete_active_resets_witness :
  reachable Rev1 playingB /\
  currentTrackId (state playingB) = Some 2 /\
  isPlaying (state (step Rev1 (DeleteTrack 2 RequestSucceeds) playingB))
  = false /\
  currentTrackId (state (step Rev1 (DeleteTrack 2 RequestSucceeds) playingB))
  = None.
Proof.
  split; [exact reachable_playingB|]. split; [reflexivity|].
  pose proof (delete_active_resets Rev1 playingB 2 RequestSucceeds
                reachable_playingB eq_refl) as (Hp & Hi & _).
  split; [exact Hp | exact Hi].
Defined.

(** ** C8 *)

(** The ids of the library are keys of the store: they are positive. *)
Lemma reachable_active_positive (rev : Revision) (w : World) (X : Z) :
  reachable rev w -> currentTrackId (state w) = Some X ->
  1 <= X /\ exists t, find_track (Some X) (tracks (state w)) = Some t.
Proof.
  intros Hr Hc. apply Inv_reachable in Hr.
  destruct (inv_active w Hr X Hc) as (t & k & Ft & _).
  split; [|eauto].
  apply find_track_Some in Ft as Hin. destruct Hin as [Hin [= ->]].
  pose proof (inv_keys w Hr) as Hk. rewrite Forall_forall in Hk.
  apply Hk in Hin. lia.
Qed.

(** C8. In every reachable state whose active track is [X], selecting [X]
    has the effect of [handlePlayPause]: the two settled worlds are equal,
    only [isPlaying] is flipped in the state of the component, and no
    object URL is created or revoked. *)
Theorem select_active_is_toggle (rev : Revision) (w : World) (X : Z) :
  reachable rev w ->
  currentTrackId (state w) = Some X ->
  step rev (SelectTrack X) w = step rev TogglePlayPause w /\
  state (step rev (SelectTrack X) w)
  = set_isPlaying (negb (isPlaying (state w))) (state w) /\
  urlLog (env (step rev (SelectTrack X) w)) = urlLog (env w) /\
  urlSeq (env (step rev (SelectTrack X) w)) = urlSeq (env w).
Proof.
  intros Hr Hc.
  destruct (reachable_active_positive rev w X Hr Hc) as [Hpos [t Ft]].
  simpl. rewrite (handleTrackSelect_same X w t Ft Hc).
  split; [reflexivity|].
  unfold handlePlayPause. rewrite Hc. simpl.
  destruct (X =? 0) eqn:E; [apply Z.eqb_eq in E; lia|]. simpl.
  rewrite runEffects_urlLog, runEffects_urlSeq. simpl.
  rewrite String.eqb_refl. auto.
Qed.

Lemma select_active_is_toggle_witness :
  reachable Rev1 playingB /\
  currentTrackId (state playingB) = Some 2 /\
  step Rev1 (SelectTrack 2) playingB = step Rev1 TogglePlayPause playingB /\
  isPlaying (state (step Rev1 (SelectTrack 2) playingB)) = false.
Proof.
  split; [exact reachable_playingB|]. split; [reflexivity|].
  pose proof (select_active_is_toggle Rev1 playingB 2
                reachable_playingB eq_refl) as (He & Hs & _).
  split; [exact He|]. rewrite Hs. reflexivity.
Defined.

(** ** C9 *)

Lemma put_sorted_has (t : Track) (rs : list Track) : In t (put_sorted t rs).
Proof.
  induction rs as [|r rs IH]; simpl; [now left|].
  destruct (id r =? id t); [now left|].
  destruct (id t <? id r); [now left | now right].
Qed.

(** C9. For a track [t] of the library, [handleEditorSave] leaves the
    record with that id in the library with the [id], the [name] and the
    audio [file] of [t]; a field that the patch does not give keeps its
    value (absent stays absent); when the store has taken the update, a
    field that the patch gives has the patched value and the same record is
    in the store; every other track of the library is kept as it is. *)
Theorem edit_preserves_untouched (rev : Revision) (data : EditData)
    (o : IDBOutcome) (w : World) (t : Track) :
  find_track (Some (edit_id data)) (tracks (state w)) = Some t ->
  exists t',
    find_track (Some (edit_id data))
               (tracks (state (step rev (EditTrack data o) w))) = Some t' /\
    id t' = id t /\ name t' = name t /\ file t' = file t /\
    (edit_coverArt data = None -> coverArt t' = coverArt t) /\
    (edit_video data = None -> video t' = video t) /\
    (succeeds o = true ->
     (forall c, edit_coverArt data = Some c -> coverArt t' = Some c) /\
     (forall v, edit_video data = Some v -> video t' = Some v) /\
     In t' (records (db (env (step rev (EditTrack data o) w))))) /\
    (forall u, In u (tracks (state w)) -> id u <> edit_id data ->
               In u (tracks (state (step rev (EditTrack data o) w)))).
Proof.
  intros F. simpl. rewrite (handleEditorSave_found data o w t F).
  apply find_track_Some in F as Hin. destruct Hin as [Hin [= Hid]].
  destruct (succeeds o) eqn:So; simpl.
  - exists (patched data t). repeat split.
    + rewrite find_track_map by (intros; now apply applyPatch_id).
      rewrite F. simpl. unfold applyPatch. now rewrite <- Hid, Z.eqb_refl.
    + intros E. simpl. now rewrite E.
    + intros E. simpl. now rewrite E.
    + intros c E. simpl. now rewrite E.
    + intros v E. simpl. now rewrite E.
    + rewrite runEffects_db. simpl. apply put_sorted_has.
    + intros u Hu Hne. apply in_map_iff. exists u. split; [|exact Hu].
      unfold applyPatch.
      destruct (id u =? edit_id data) eqn:E;
        [apply Z.eqb_eq in E; contradiction | reflexivity].
  - exists t. repeat split; auto; discriminate.
Qed.

(** The example of the specification: a cover for the song with id 1. *)
Lemma edit_preserves_untouched_witness :
  find_track (Some 1) (tracks (state libraryABC))
  = Some (mkTrack 1 "A" (song "A.mp3") None None) /\
  exists t',
    find_track (Some 1)
      (tracks (state (step Rev1
                        (EditTrack (mkEditData 1 (Some picture) None)
                                   RequestSucceeds) libraryABC)))
    = Some t' /\
    name t' = "A" /\ file t' = song "A.mp3" /\
    coverArt t' = Some picture /\ video t' = None.
Proof.
  assert (F : find_track (Some 1) (tracks (state libraryABC))
              = Some (mkTrack 1 "A" (song "A.mp3") None None))
    by reflexivity.
  split; [exact F|].
  destruct (edit_preserves_untouched Rev1 (mkEditData 1 (Some picture) None)
              RequestSucceeds libraryABC _ F)
    as (t' & F' & _ & Hn & Hf & _ & Hv & Hs & _).
  exists t'. split; [exact F'|].
  split; [exact Hn|]. split; [exact Hf|].
  split; [exact (proj1 (Hs eq_refl) picture eq_refl) | exact (Hv eq_refl)].
Defined.

Example edit_example :
  tracks (state (step Rev1
                   (EditTrack (mkEditData 1 (Some picture) None)
                              RequestSucceeds) libraryABC))
  = [mkTrack 1 "A" (song "A.mp3") (Some picture) None;
     mkTrack 2 "B" (song "B.mp3") None None;
     mkTrack 3 "C" (song "C.mp3") None None].
Proof. reflexivity. Qed.

(** * Further properties of the code *)

(** ** The element after the effects *)

Lemma runEffects_element (rev : Revision) (p n : State) (e : Env)
    (a : Sink.t) :
  audioRef e = Some a ->
  exists a',
    audioRef (runEffects rev p n e) = Some a' /\
    Sink.src a'
    = (if match rev with
          | Rev1 => negb (currentTrackUrl p =? currentTrackUrl n)%string
          | Rev2 => negb (currentTrackUrl p =? currentTrackUrl n)%string
                    || negb (Bool.eqb (isPlaying p) (isPlaying n))
          end && truthy_string (currentTrackUrl n)
       then currentTrackUrl n else Sink.src a) /\
    Sink.volume a'
    = (if negb (Qeq_bool (volume p) (volume n))
       then volume n else Sink.volume a).
Proof.
  intros Ha. unfold runEffects.
  destruct (negb (currentTrackUrl p =? currentTrackUrl n)%string);
    destruct (truthy_string (currentTrackUrl p));
    destruct (negb (Qeq_bool (volume p) (volume n)));
    destruct (negb (Bool.eqb (isPlaying p) (isPlaying n)));
    destruct (negb (strict_eq (currentTrackId p) (currentTrackId n)));
    destruct (truthy_string (currentTrackUrl n));
    destruct (isPlaying n); destruct (truthy_id (currentTrackId n));
    destruct rev; simpl; rewrite Ha; simpl; eexists; repeat split.
Qed.

(** The element keeps the bound URL and the volume through a settled
    intent whose handler leaves a source that is the next URL, or binds a
    new URL. *)
Lemma settle_element (rev : Revision) (w w' : World) (a : Sink.t) :
  audioRef (env w') = Some a ->
  Qeq (Sink.volume a) (volume (state w)) ->
  Sink.src a = currentTrackUrl (state w') \/
  (currentTrackUrl (state w) <> currentTrackUrl (state w') /\
   truthy_string (currentTrackUrl (state w')) = true) ->
  exists a', audioRef (env (settle rev (state w) w')) = Some a' /\
             Sink.src a' = currentTrackUrl (state w') /\
             Qeq (Sink.volume a') (volume (state w')).
Proof.
  intros Ha Hv Hs. unfold settle. simpl.
  destruct (runEffects_element rev (state w) (state w') (env w') a Ha)
    as (a' & Ha' & Hsrc & Hvol).
  exists a'. split; [exact Ha'|]. split.
  - rewrite Hsrc. destruct Hs as [Hs | [Hne Ht]].
    + now destruct (_ && _).
    + rewrite Ht. apply String.eqb_neq in Hne. rewrite Hne.
      now destruct rev.
  - rewrite Hvol.
    destruct (Qeq_bool (volume (state w)) (volume (state w'))) eqn:E; simpl.
    + apply Qeq_bool_iff in E. now rewrite Hv.
    + reflexivity.
Qed.

(** ** The library mirrors the store, the element mirrors the state *)

Lemma handleTrackSelect_library (i : Z) (w : World) :
  tracks (state (handleTrackSelect i w)) = tracks (state w) /\
  db (env (handleTrackSelect i w)) = db (env w) /\
  audioRef (env (handleTrackSelect i w)) = audioRef (env w).
Proof.
  unfold handleTrackSelect, handlePlayPause.
  destruct (find_track (Some i) (tracks (state w))); [|auto].
  destruct (negb (strict_eq _ _)); simpl.
  - now destruct (truthy_string (currentTrackUrl (state w))).
  - now destruct (negb (truthy_id (currentTrackId (state w)))).
Qed.

Lemma playNextTrack_library (w : World) :
  tracks (state (playNextTrack w)) = tracks (state w) /\
  db (env (playNextTrack w)) = db (env w).
Proof.
  destruct (playNextTrack_cases w) as [-> | [-> | [i ->]]]; auto.
  destruct (handleTrackSelect_library i w) as (? & ? & ?). auto.
Qed.

Lemma playPrevTrack_library (w : World) :
  tracks (state (playPrevTrack w)) = tracks (state w) /\
  db (env (playPrevTrack w)) = db (env w).
Proof.
  destruct (playPrevTrack_cases w) as [-> | [i ->]]; auto.
  destruct (handleTrackSelect_library i w) as (? & ? & ?). auto.
Qed.

Lemma ingestAll_keeps (files : list (File * IDBOutcome)) (d : ObjectStore)
    (t : Track) :
  In t (records d) -> In t (records (snd (ingestAll files d))).
Proof.
  revert d. induction files as [|fo rest IH]; intros d H; [exact H|].
  rewrite ingestAll_cons. simpl snd. apply IH.
  destruct (accepted fo) eqn:A.
  - rewrite (ingestOne_accepted fo d A). simpl. apply in_or_app. now left.
  - destruct (ingestOne_refused fo d A) as [r ->]. exact H.
Qed.

Lemma put_sorted_keeps (t x : Track) (rs : list Track) :
  In x rs -> id x <> id t -> In x (put_sorted t rs).
Proof.
  induction rs as [|r rs IH]; simpl; [tauto|].
  intros [->|Hin] Hne.
  - destruct (id x =? id t) eqn:E; [apply Z.eqb_eq in E; contradiction|].
    destruct (id t <? id x); [right; now left | now left].
  - destruct (id r =? id t); [now right|].
    destruct (id t <? id r); [right; now right | right; now apply IH].
Qed.

(** The tracks of the library stay records of the store. *)
Lemma backed_handle (i : Intent) (w : World) :
  (forall t, In t (tracks (state w)) -> In t (records (db (env w)))) ->
  forall t, In t (tracks (state (handle i w))) ->
            In t (records (db (env (handle i w)))).
Proof.
  intros Hb. destruct i; simpl; try exact Hb.
  - (* handleFilesSelected *)
    unfold handleFilesSelected.
    rewrite (ingestAll_fst_snd files (db (env w))).
    destruct (Promise_all (fst (ingestAll files (db (env w)))))
      as [newTracks|r] eqn:P; simpl; intros t Ht.
    + apply ingestAll_resolved in P as (_ & _ & Hr & _ & _).
      rewrite Hr. apply in_app_or in Ht as [Ht|Ht]; apply in_or_app;
        [left; now apply Hb | now right].
    + apply ingestAll_keeps. now apply Hb.
  - (* handleTrackDelete *)
    unfold handleTrackDelete, deleteTrackFromDB.
    destruct (strict_eq (Some i) (currentTrackId (state w)));
      destruct (truthy_string (currentTrackUrl (state w)));
      destruct o; simpl; intros t Ht;
      try (now apply Hb);
      apply filter_In in Ht as [Ht Hp]; apply filter_In; split; auto.
  - (* handleEditorSave *)
    destruct (find_track (Some (edit_id data)) (tracks (state w)))
      as [orig|] eqn:F.
    + rewrite (handleEditorSave_found data o w orig F).
      apply find_track_Some in F as [_ [= Hid]].
      destruct (succeeds o); simpl; [|exact Hb].
      intros t Ht. apply in_map_iff in Ht as [u [<- Hu]].
      unfold applyPatch. destruct (id u =? edit_id data) eqn:E.
      * apply put_sorted_has.
      * apply put_sorted_keeps; [now apply Hb|].
        apply Z.eqb_neq in E. simpl. congruence.
    + now rewrite (handleEditorSave_missing data o w F).
  - (* handleTrackSelect *)
    destruct (handleTrackSelect_library i w) as (-> & -> & _). exact Hb.
  - (* handlePlayPause *)
    destruct (handlePlayPause_frame w) as (-> & _ & _ & ->). exact Hb.
  - destruct (playNextTrack_library w) as (-> & ->). exact Hb.
  - destruct (playPrevTrack_library w) as (-> & ->). exact Hb.
  - unfold handleSeek. now destruct (audioRef (env w)).
  - unfold onTimeUpdate. now destruct (audioRef (env w)).
  - unfold onLoadedMetadata. now destruct (audioRef (env w)).
  - destruct (playNextTrack_library w) as (-> & ->). exact Hb.
  - (* reload *)
    unfold boot, getAllTracksFromDB.
    destruct (succeeds o); [|destruct o]; simpl; tauto.
Qed.

(** In a reachable state the URL that the next [createObjectURL] hands
    out is not the bound one. *)
Lemma bound_url_not_next (w : World) :
  Inv w -> currentTrackUrl (state w) <> blobUrl (urlSeq (env w)).
Proof.
  intros HI E.
  destruct (currentTrackId (state w)) as [x|] eqn:C.
  - destruct (inv_active w HI x C) as (t & k & _ & Hk & Eu & _).
    rewrite Eu in E. apply blobUrl_inj in E. lia.
  - destruct (inv_idle w HI C) as [Eu _]. rewrite Eu in E.
    symmetry in E. now apply blobUrl_not_empty in E.
Qed.

Lemma element_kept_refl (w : World) (a : Sink.t) :
  audioRef (env w) = Some a -> Sink.src a = currentTrackUrl (state w) ->
  element_kept w w a.
Proof. intros Ha Hs. exists a. auto. Qed.

Lemma element_handlePlayPause (w : World) (a : Sink.t) :
  audioRef (env w) = Some a -> Sink.src a = currentTrackUrl (state w) ->
  element_kept w (handlePlayPause w) a.
Proof.
  intros Ha Hs. destruct (handlePlayPause_frame w) as (_ & _ & Hu & He).
  exists a. rewrite He, Hu. auto.
Qed.

Lemma element_handleTrackSelect (i : Z) (w : World) (a : Sink.t) :
  Inv w ->
  audioRef (env w) = Some a -> Sink.src a = currentTrackUrl (state w) ->
  element_kept w (handleTrackSelect i w) a.
Proof.
  intros HI Ha Hs.
  destruct (find_track (Some i) (tracks (state w))) as [track|] eqn:F.
  2:{ rewrite (handleTrackSelect_missing i w F).
      now apply element_kept_refl. }
  destruct (strict_eq (currentTrackId (state w)) (Some i)) eqn:E.
  { apply strict_eq_true in E.
    rewrite (handleTrackSelect_same i w track F E).
    now apply element_handlePlayPause. }
  apply strict_eq_false in E.
  destruct (handleTrackSelect_library i w) as (_ & _ & Haudio).
  exists a. rewrite Haudio.
  rewrite (handleTrackSelect_switch i w track F E). simpl.
  repeat split; auto. right. split.
  - now apply bound_url_not_next.
  - apply blobUrl_truthy.
Qed.

Lemma element_handle (i : Intent) (w : World) (a : Sink.t) :
  Inv w ->
  match i with Reload _ => False | _ => True end ->
  audioRef (env w) = Some a -> Sink.src a = currentTrackUrl (state w) ->
  element_kept w (handle i w) a.
Proof.
  intros HI Hi Ha Hs.
  destruct i; simpl; try contradiction;
    try (now apply element_kept_refl);
    try (now apply element_handleTrackSelect);
    try (now apply element_handlePlayPause).
  - (* handleFilesSelected *)
    unfold handleFilesSelected.
    destruct (ingestAll files (db (env w))) as [ps d].
    destruct (Promise_all ps); exists a; simpl; auto.
  - (* handleTrackDelete *)
    destruct (strict_eq (currentTrackId (state w)) (Some i)) eqn:E.
    + apply strict_eq_true in E.
      destruct (inv_active w HI i E) as (t & k & _ & _ & Eu & _).
      rewrite (handleTrackDelete_active i o w E)
        by (rewrite Eu; apply blobUrl_truthy).
      cbv zeta. exists (Sink.set_src "" a).
      destruct (succeeds o); simpl; rewrite Ha; simpl; auto.
    + apply strict_eq_false in E.
      rewrite (handleTrackDelete_other i o w E).
      exists a. destruct (succeeds o); simpl; auto.
  - exists a. simpl. auto.
  - (* handleEditorSave *)
    destruct (find_track (Some (edit_id data)) (tracks (state w)))
      as [orig|] eqn:F.
    + rewrite (handleEditorSave_found data o w orig F).
      exists a. destruct (succeeds o); simpl; auto.
    + rewrite (handleEditorSave_missing data o w F).
      now apply element_kept_refl.
  - (* playNextTrack *)
    destruct (playNextTrack_cases w) as [-> | [-> | [i ->]]].
    + now apply element_kept_refl.
    + eexists. simpl. rewrite Ha. simpl. repeat split. now left.
    + now apply element_handleTrackSelect.
  - (* playPrevTrack *)
    destruct (playPrevTrack_cases w) as [-> | [i ->]].
    + now apply element_kept_refl.
    + now apply element_handleTrackSelect.
  - unfold handleSeek. rewrite Ha. eexists. simpl. rewrite Ha. simpl.
    repeat split. now left.
  - exists a. simpl. auto.
  - exists a. simpl. auto.
  - exists a. simpl. auto.
  - exists a. simpl. auto.
  - unfold onTimeUpdate. rewrite Ha. eexists. simpl. rewrite Ha. simpl.
    repeat split. now left.
  - unfold onLoadedMetadata. rewrite Ha. eexists. simpl. rewrite Ha. simpl.
    repeat split. now left.
  - destruct (playNextTrack_cases w) as [-> | [-> | [i ->]]].
    + now apply element_kept_refl.
    + eexists. simpl. rewrite Ha. simpl. repeat split. now left.
    + now apply element_handleTrackSelect.
Qed.

Lemma Sync_install : Sync install.
Proof.
  constructor; simpl; [tauto|].
  eexists; repeat split; reflexivity.
Qed.

Lemma Sync_step (rev : Revision) (i : Intent) (w : World) :
  Inv w -> Sync w -> Sync (step rev i w).
Proof.
  intros HI [Hb (a & Ha & Hs & Hv)].
  assert (Hreload : forall o, Sync (handle (Reload o) w)).
  { intros o. constructor; [now apply backed_handle|].
    simpl. unfold boot, getAllTracksFromDB.
    destruct (succeeds o); [|destruct o]; simpl;
      eexists; repeat split; reflexivity. }
  assert (Hother : match i with Reload _ => False | _ => True end ->
                   Sync (settle rev (state w) (handle i w))).
  { intros Hi. constructor.
    - unfold settle. simpl. rewrite runEffects_db. now apply backed_handle.
    - destruct (element_handle i w a HI Hi Ha Hs) as (a1 & Ha1 & Hv1 & Hs1).
      apply (settle_element rev w (handle i w) a1 Ha1); [|exact Hs1].
      now rewrite Hv1. }
  destruct i; try (apply Hother; exact I). apply Hreload.
Qed.

Lemma Sync_reachable (rev : Revision) (w : World) : reachable rev w -> Sync w.
Proof.
  induction 1 as [|i w Hr IH]; [apply Sync_install|].
  apply Sync_step; [now apply (Inv_reachable rev) | exact IH].
Qed.

(** ** Invariants of every run *)

Lemma run_invariants (rev : Revision) (intents : list Intent) :
  Inv (run rev intents install) /\ Sync (run rev intents install).
Proof.
  pose proof (reachable_run rev intents install (reach_install rev)) as Hr.
  split; [now apply (Inv_reachable rev) | now apply (Sync_reachable rev)].
Qed.

(** X1. After every run, the ids of the library are pairwise distinct and
    positive, and so are the keys of the store: [store.add] takes them from
    a key generator that starts at 1. *)
Theorem library_ids_unique (rev : Revision) (intents : list Intent) :
  NoDup (map id (tracks (state (run rev intents install)))) /\
  Forall (fun t => 1 <= id t) (tracks (state (run rev intents install))) /\
  NoDup (map id (records (db (env (run rev intents install))))) /\
  Forall (fun t => 1 <= id t) (records (db (env (run rev intents install)))).
Proof.
  destruct (run_invariants rev intents) as [HI _].
  pose proof (inv_store _ HI) as (Hs & Hb & _).
  split; [apply HI|]. split; [|split].
  - eapply Forall_impl; [|apply (inv_keys _ HI)]. simpl. intros; lia.
  - now apply sorted_nodup.
  - eapply Forall_impl; [|exact Hb]. simpl. intros; lia.
Qed.



(** X4. After every run, the element is mounted and its [src] is the bound
    URL [currentTrackUrl]: it is empty, or it is the one live object URL,
    never a revoked one. *)
Theorem element_source_is_bound_url (rev : Revision)
    (intents : list Intent) :
  exists a,
    audioRef (env (run rev intents install)) = Some a /\
    Sink.src a = currentTrackUrl (state (run rev intents install)) /\
    (Sink.src a = "" \/
     exists b, live (urlLog (env (run rev intents install)))
               = [(Sink.src a, b)]).
Proof.
  destruct (run_invariants rev intents) as [HI HS].
  destruct (sync_element _ HS) as (a & Ha & Hs & _).
  exists a. split; [exact Ha|]. split; [exact Hs|]. rewrite Hs.
  destruct (currentTrackId (state (run rev intents install))) as [x|] eqn:C.
  - destruct (inv_active _ HI x C) as (t & k & _ & _ & Eu & El).
    right. exists (file t). now rewrite Eu.
  - left. now destruct (inv_idle _ HI C).
Qed.

(** X5. After every run, the volume of the element is the [volume] of the
    state: the effect on [volume] carries every change over. *)
Theorem element_volume_is_state_volume (rev : Revision)
    (intents : list Intent) :
  exists a,
    audioRef (env (run rev intents install)) = Some a /\
    Qeq (Sink.volume a) (volume (state (run rev intents install))).
Proof.
  destruct (run_invariants rev intents) as [_ HS].
  destruct (sync_element _ HS) as (a & Ha & _ & Hv). eauto.
Qed.

Example invariants_on_a_run :
  let w := run Rev2 [SelectTrack 3; SetVolume (1 # 4);
                     EditTrack (mkEditData 3 (Some picture) None)
                               RequestSucceeds;
                     DeleteTrack 1 RequestErrors; Previous] libraryABC in
  map id (tracks (state w)) = [1; 2; 3] /\
  tracks (state w) = records (db (env w)) /\
  currentTrackId (state w) = Some 2 /\
  option_map Sink.src (audioRef (env w)) = Some (currentTrackUrl (state w)) /\
  option_map Sink.volume (audioRef (env w)) = Some (1 # 4)%Q.
Proof. vm_compute. repeat split. Qed.

(** ** Deleting *)

Lemma env_eta (e : Env) : set_db (db e) e = e.
Proof. now destruct e. Qed.

(** X6. Deleting a track that is not the active one never touches
    playback: the active id, the transport flag, the bound URL, the object
    URLs and the element are as before.  When the store performs the
    deletion the track is gone from the library and from the store and
    every other track of the library stays; when the store refuses, nothing
    at all changes. *)
Theorem delete_other_keeps_playback (rev : Revision) (w : World) (i : Z)
    (o : IDBOutcome) :
  currentTrackId (state w) <> Some i ->
  currentTrackId (state (step rev (DeleteTrack i o) w))
  = currentTrackId (state w) /\
  isPlaying (state (step rev (DeleteTrack i o) w)) = isPlaying (state w) /\
  currentTrackUrl (state (step rev (DeleteTrack i o) w))
  = currentTrackUrl (state w) /\
  urlLog (env (step rev (DeleteTrack i o) w)) = urlLog (env w) /\
  audioRef (env (step rev (DeleteTrack i o) w)) = audioRef (env w) /\
  (succeeds o = true ->
   ~ In i (map id (tracks (state (step rev (DeleteTrack i o) w)))) /\
   ~ In i (map id (records (db (env (step rev (DeleteTrack i o) w))))) /\
   forall t, In t (tracks (state w)) -> id t <> i ->
             In t (tracks (state (step rev (DeleteTrack i o) w)))) /\
  (succeeds o = false -> step rev (DeleteTrack i o) w = w).
Proof.
  intros Hne. simpl. rewrite (handleTrackDelete_other i o w Hne).
  unfold settle.
  destruct (succeeds o); simpl;
    rewrite runEffects_idle by reflexivity; simpl; repeat split;
    try discriminate.
  - intros Hin. apply in_map_iff in Hin as [u [E Hu]].
    apply filter_In in Hu as [_ Hu].
    apply negb_true_iff, Z.eqb_neq in Hu. contradiction.
  - apply store_delete_absent.
  - intros t Ht Hid. apply filter_In. split; [exact Ht|].
    now apply negb_true_iff, Z.eqb_neq.
  - intros _. rewrite env_eta. now destruct w.
Qed.

Lemma delete_other_keeps_playback_witness :
  currentTrackId (state playingB) <> Some 3 /\
  currentTrackId (state (step Rev1 (DeleteTrack 3 RequestSucceeds) playingB))
  = Some 2 /\
  isPlaying (state (step Rev1 (DeleteTrack 3 RequestSucceeds) playingB))
  = true.
Proof.
  assert (H : currentTrackId (state playingB) <> Some 3) by discriminate.
  split; [exact H|].
  pose proof (delete_other_keeps_playback Rev1 playingB 3 RequestSucceeds H)
    as (Hi & Hp & _).
  split; [exact Hi | exact Hp].
Defined.

(** X7. When the store refuses the deletion of the active track, playback
    has already been reset (the reset precedes the [await]): the coordinator
    is idle and no URL is live, while the track is still in the library and
    in the store, so it can be selected again. *)
Theorem delete_active_store_failure (rev : Revision) (w : World) (X : Z)
    (o : IDBOutcome) :
  reachable rev w ->
  currentTrackId (state w) = Some X ->
  succeeds o = false ->
  tracks (state (step rev (DeleteTrack X o) w)) = tracks (state w) /\
  db (env (step rev (DeleteTrack X o) w)) = db (env w) /\
  currentTrackId (state (step rev (DeleteTrack X o) w)) = None /\
  isPlaying (state (step rev (DeleteTrack X o) w)) = false /\
  live (urlLog (env (step rev (DeleteTrack X o) w))) = [] /\
  In X (map id (tracks (state (step rev (DeleteTrack X o) w)))) /\
  In X (map id (records (db (env (step rev (DeleteTrack X o) w))))).
Proof.
  intros Hr Hc So.
  pose proof (Inv_reachable rev w Hr) as HI.
  pose proof (Sync_reachable rev w Hr) as HS.
  pose proof (Inv_step rev (DeleteTrack X o) w HI) as Hpost.
  destruct (inv_active w HI X Hc) as (t & k & Ft & Hk & Eu & El).
  apply find_track_Some in Ft as [Hin [= HX]].
  assert (Hlib : In X (map id (tracks (state w))))
    by (rewrite HX; now apply in_map).
  assert (Hsto : In X (map id (records (db (env w)))))
    by (rewrite HX; apply in_map; now apply (sync_backed w HS)).
  simpl in *.
  rewrite (handleTrackDelete_active X o w Hc) in *
    by (rewrite Eu; apply blobUrl_truthy).
  cbv zeta in *. rewrite So in *. unfold settle in *. simpl in *.
  rewrite runEffects_db. simpl. repeat split; auto.
  now destruct (inv_idle _ Hpost eq_refl).
Qed.

Lemma delete_active_store_failure_witness :
  reachable Rev1 playingB /\
  currentTrackId (state playingB) = Some 2 /\
  currentTrackId (state (step Rev1 (DeleteTrack 2 RequestErrors) playingB))
  = None /\
  map id (tracks (state (step Rev1 (DeleteTrack 2 RequestErrors) playingB)))
  = [1; 2; 3].
Proof.
  split; [exact reachable_playingB|]. split; [reflexivity|].
  pose proof (delete_active_store_failure Rev1 playingB 2 RequestErrors
                reachable_playingB eq_refl eq_refl) as (Ht & _ & Hi & _).
  split; [exact Hi|]. rewrite Ht. reflexivity.
Defined.

(** ** Selecting and toggling *)

(** X8. Selecting an id that no track of the library has changes nothing:
    no state is set, no object URL is created or revoked, the element is
    not touched. *)
Theorem select_missing_is_noop (rev : Revision) (w : World) (i : Z) :
  ~ In i (map id (tracks (state w))) ->
  step rev (SelectTrack i) w = w.
Proof.
  intros H. apply find_track_None in H. simpl.
  rewrite (handleTrackSelect_missing i w H). apply settle_unchanged.
Qed.

Lemma select_missing_is_noop_witness :
  ~ In 9 (map id (tracks (state playingB))) /\
  step Rev1 (SelectTrack 9) playingB = playingB.
Proof.
  assert (H : ~ In 9 (map id (tracks (state playingB)))).
  { vm_compute. intros [H|[H|[H|[]]]]; discriminate. }
  split; [exact H | exact (select_missing_is_noop Rev1 playingB 9 H)].
Defined.

(** X9. In a reachable state, selecting a track of the library that is not
    the active one binds the element to the new object URL and starts it
    from the beginning: the [src] of the element is the new URL, its
    position is zero, it is not paused, and that URL is the only live one
    and refers to the audio of the selected track. *)
Theorem select_binds_element (rev : Revision) (w : World) (i : Z)
    (t : Track) :
  reachable rev w ->
  find_track (Some i) (tracks (state w)) = Some t ->
  currentTrackId (state w) <> Some i ->
  currentTrackId (state (step rev (SelectTrack i) w)) = Some i /\
  isPlaying (state (step rev (SelectTrack i) w)) = true /\
  currentTrackUrl (state (step rev (SelectTrack i) w))
  = blobUrl (urlSeq (env w)) /\
  live (urlLog (env (step rev (SelectTrack i) w)))
  = [(blobUrl (urlSeq (env w)), file t)] /\
  exists a,
    audioRef (env (step rev (SelectTrack i) w)) = Some a /\
    Sink.src a = blobUrl (urlSeq (env w)) /\
    Sink.currentTime a = 0%Q /\
    Sink.paused a = false.
Proof.
  intros Hr F Hne.
  pose proof (Inv_reachable rev w Hr) as HI.
  pose proof (Inv_step rev (SelectTrack i) w HI) as Hpost.
  pose proof (bound_url_not_next w HI) as Hfresh.
  apply String.eqb_neq in Hfresh.
  pose proof (inv_mounted w HI) as Hm.
  destruct (audioRef (env w)) as [a|] eqn:Ha; [|contradiction].
  assert (Hpos : 1 <= i).
  { apply find_track_Some in F as [Hin [= ->]].
    pose proof (inv_keys w HI) as Hk. rewrite Forall_forall in Hk.
    apply Hk in Hin. lia. }
  assert (Hid : strict_eq (currentTrackId (state w)) (Some i) = false)
    by now apply strict_eq_false.
  assert (Hst : state (step rev (SelectTrack i) w)
                = set_isPlaying true
                    (set_currentTrackUrl (blobUrl (urlSeq (env w)))
                       (set_currentTrackId (Some i) (state w)))).
  { simpl. now rewrite (handleTrackSelect_switch i w t F Hne). }
  assert (Hc : currentTrackId (state (step rev (SelectTrack i) w)) = Some i)
    by now rewrite Hst.
  destruct (inv_active _ Hpost i Hc) as (t' & k & Ft & _ & Eu & El).
  rewrite Hst in Ft, Eu.
  cbn [tracks currentTrackUrl set_isPlaying set_currentTrackUrl
       set_currentTrackId] in Ft, Eu.
  rewrite F in Ft. injection Ft as <-.
  rewrite El, <- Eu, Hst.
  split; [reflexivity|]. split; [reflexivity|]. split; [reflexivity|].
  split; [reflexivity|].
  simpl. rewrite (handleTrackSelect_switch i w t F Hne).
  unfold settle, runEffects. simpl.
  rewrite Hfresh, blobUrl_truthy, Qeq_bool_refl, Hid. simpl.
  destruct (i =? 0) eqn:E0; [apply Z.eqb_eq in E0; lia|]. simpl.
  rewrite Bool.orb_true_r.
  destruct (truthy_string (currentTrackUrl (state w)));
    destruct rev; simpl; rewrite Ha; simpl; eexists; repeat split.
Qed.

Lemma select_binds_element_witness :
  reachable Rev1 playingB /\
  find_track (Some 3) (tracks (state playingB))
  = Some (mkTrack 3 "C" (song "C.mp3") None None) /\
  currentTrackId (state playingB) <> Some 3 /\
  live (urlLog (env (step Rev1 (SelectTrack 3) playingB)))
  = [(blobUrl 1, song "C.mp3")].
Proof.
  assert (F : find_track (Some 3) (tracks (state playingB))
              = Some (mkTrack 3 "C" (song "C.mp3") None None))
    by reflexivity.
  assert (H : currentTrackId (state playingB) <> Some 3) by discriminate.
  split; [exact reachable_playingB|]. split; [exact F|]. split; [exact H|].
  pose proof (select_binds_element Rev1 playingB 3 _
                reachable_playingB F H) as (_ & _ & _ & Hl & _).
  exact Hl.
Defined.

(** X10. In a reachable state with an active track, [handlePlayPause]
    drives the element: after the effects the element is paused exactly
    when [isPlaying] was true before, and its source is still the bound
    URL.  In the first revision the position of the element is kept; in
    the second the effect on [currentTrackUrl, isPlaying] assigns
    [audio.src] again, so the element starts over from zero. *)
Theorem toggle_drives_element (rev : Revision) (w : World) (X : Z)
    (a : Sink.t) :
  reachable rev w ->
  currentTrackId (state w) = Some X ->
  audioRef (env w) = Some a ->
  exists a',
    audioRef (env (step rev TogglePlayPause w)) = Some a' /\
    Sink.paused a' = isPlaying (state w) /\
    isPlaying (state (step rev TogglePlayPause w))
    = negb (isPlaying (state w)) /\
    Sink.src a' = currentTrackUrl (state w) /\
    Sink.currentTime a'
    = match rev with Rev1 => Sink.currentTime a | Rev2 => 0%Q end.
Proof.
  intros Hr Hc Ha.
  pose proof (Inv_reachable rev w Hr) as HI.
  pose proof (Sync_reachable rev w Hr) as HS.
  destruct (reachable_active_positive rev w X Hr Hc) as [Hpos _].
  destruct (inv_active w HI X Hc) as (t & k & _ & _ & Eu & _).
  destruct (sync_element w HS) as (a0 & Ha0 & Hsrc & _).
  rewrite Ha in Ha0. injection Ha0 as <-.
  assert (Ht : truthy_id (currentTrackId (state w)) = true).
  { rewrite Hc. simpl. apply negb_true_iff, Z.eqb_neq. lia. }
  simpl. unfold handlePlayPause. rewrite Ht. simpl.
  unfold settle, runEffects. simpl.
  rewrite String.eqb_refl, Qeq_bool_refl, strict_eq_refl, Ht, Eu,
    blobUrl_truthy. simpl.
  rewrite Eu in Hsrc.
  destruct (isPlaying (state w)); destruct rev; simpl; rewrite Ha; simpl;
    eexists; repeat split; auto.
Qed.

Lemma toggle_drives_element_witness :
  reachable Rev2
    (run Rev2 [IngestFiles batchABC; SelectTrack 2; Seek (5 # 1)] install) /\
  option_map Sink.currentTime
    (audioRef
       (env (run Rev2 [IngestFiles batchABC; SelectTrack 2; Seek (5 # 1)]
                 install))) = Some (5 # 1)%Q /\
  exists a',
    audioRef
      (env (step Rev2 TogglePlayPause
              (run Rev2 [IngestFiles batchABC; SelectTrack 2; Seek (5 # 1)]
                   install))) = Some a' /\
    Sink.paused a' = true /\ Sink.currentTime a' = 0%Q.
Proof.
  assert (Hr : reachable Rev2
                 (run Rev2 [IngestFiles batchABC; SelectTrack 2;
                            Seek (5 # 1)] install))
    by apply reachable_run, reach_install.
  split; [exact Hr|]. split; [reflexivity|].
  destruct (toggle_drives_element Rev2 _ 2
              (Sink.mk (blobUrl 0) (5 # 1)%Q 0%Q false (75 # 100)%Q)
              Hr eq_refl eq_refl)
    as (a' & Ha' & Hp & _ & _ & Ht).
  exists a'. split; [exact Ha'|]. split; [exact Hp | exact Ht].
Defined.

(** X11. Two presses of play/pause in a row restore the state of the
    component, whatever it is, and create or revoke no object URL. *)
Theorem toggle_twice_restores_state (rev : Revision) (w : World) :
  state (run rev [TogglePlayPause; TogglePlayPause] w) = state w /\
  urlLog (env (run rev [TogglePlayPause; TogglePlayPause] w))
  = urlLog (env w).
Proof.
  simpl. unfold handlePlayPause, settle.
  destruct (truthy_id (currentTrackId (state w))) eqn:T; simpl.
  - rewrite T. simpl.
    rewrite !runEffects_urlLog. simpl. rewrite String.eqb_refl. simpl.
    rewrite Bool.negb_involutive. split; [now destruct (state w) | reflexivity].
  - rewrite T. simpl. rewrite !runEffects_urlLog.
    rewrite String.eqb_refl. simpl. auto.
Qed.

(** ** Advancing round the library *)

Lemma findIndex_from_none (k : Z) (i : option Z) (ts : list Track) :
  0 <= k -> findIndex_from k i ts = -1 -> find_track i ts = None.
Proof.
  unfold find_track. revert k. induction ts as [|x ts IH]; intros k Hk; simpl.
  - reflexivity.
  - destruct (strict_eq (Some (id x)) i); [lia|].
    apply IH. lia.
Qed.

Lemma findIndex_at (ts : list Track) (j : Z) (t : Track) :
  NoDup (map id ts) -> at_index ts j = Some t ->
  findIndex (Some (id t)) ts = j.
Proof.
  intros Hnd Hj.
  destruct (findIndex_range (Some (id t)) ts) as [R|R].
  - apply (findIndex_from_none 0) in R; [|lia].
    apply find_track_None in R. exfalso. apply R.
    apply in_map. now apply at_index_In in Hj.
  - destruct (findIndex_found (Some (id t)) ts) as (u & Hu & [= E]); [lia|].
    now apply (at_index_nodup ts _ j u t).
Qed.

Lemma selects_index (t : Track) (w w' : World) (j : Z) :
  selects t w w' ->
  NoDup (map id (tracks (state w))) ->
  at_index (tracks (state w)) j = Some t ->
  tracks (state w') = tracks (state w) /\
  currentTrackId (state w') = Some (id t) /\
  findIndex (currentTrackId (state w')) (tracks (state w')) = j.
Proof.
  intros (Hst & _ & _) Hnd Hj. rewrite Hst. simpl.
  repeat split. now apply findIndex_at.
Qed.

(** The index after one [playNextTrack] or [playPrevTrack] in a library of
    at least two tracks with distinct ids that contains the active one. *)
Lemma advance_index (rev : Revision) (w : World) (forward : bool) :
  NoDup (map id (tracks (state w))) ->
  2 <= Z.of_nat (List.length (tracks (state w))) ->
  0 <= findIndex (currentTrackId (state w)) (tracks (state w)) ->
  let n := Z.of_nat (List.length (tracks (state w))) in
  let k := findIndex (currentTrackId (state w)) (tracks (state w)) in
  let w' := step rev (if forward then Next else Previous) w in
  tracks (state w') = tracks (state w) /\
  findIndex (currentTrackId (state w')) (tracks (state w'))
  = (if forward then (k + 1) mod n else (k - 1 + n) mod n).
Proof.
  intros Hnd Hn Hk n k w'. subst w'.
  set (ts := tracks (state w)) in *.
  destruct (findIndex_range (currentTrackId (state w)) ts) as [R|R];
    fold k in R; [lia|]. fold n in R.
  destruct (findIndex_found (currentTrackId (state w)) ts Hk)
    as (tk & Hat & Hcur). fold k in Hat.
  assert (Hother : forall j t, at_index ts j = Some t -> j <> k ->
                               currentTrackId (state w) <> Some (id t)).
  { intros j t Hj Hjk E. rewrite Hcur in E. injection E as E.
    apply Hjk. symmetry. now apply (at_index_nodup ts k j tk t). }
  destruct forward.
  - destruct (at_index_Some ts ((k + 1) mod n)) as [t Ht];
      [apply Z.mod_pos_bound; lia|].
    assert (Hsel : selects t w (step rev Next w)).
    { simpl. rewrite (playNextTrack_many w Hn). fold ts n k.
      rewrite Z.rem_mod_nonneg by lia.
      apply settle_selectAt; [exact Hnd | exact Ht |].
      apply (Hother _ _ Ht).
      destruct (Z.eq_dec (k + 1) n) as [E|E].
      - rewrite E, Z.mod_same by lia. lia.
      - rewrite Z.mod_small by lia. lia. }
    destruct (selects_index t w _ _ Hsel Hnd Ht) as (H1 & _ & H2). auto.
  - destruct (at_index_Some ts ((k - 1 + n) mod n)) as [t Ht];
      [apply Z.mod_pos_bound; lia|].
    assert (Hsel : selects t w (step rev Previous w)).
    { simpl. rewrite (playPrevTrack_many w Hn). fold ts n k.
      rewrite Z.rem_mod_nonneg by lia.
      apply settle_selectAt; [exact Hnd | exact Ht |].
      apply (Hother _ _ Ht).
      destruct (Z.eq_dec k 0) as [E|E].
      - rewrite E. rewrite Z.mod_small by lia. lia.
      - replace (k - 1 + n) with (k - 1 + 1 * n) by lia.
        rewrite Z.mod_add by lia. rewrite Z.mod_small by lia. lia. }
    destruct (selects_index t w _ _ Hsel Hnd Ht) as (H1 & _ & H2). auto.
Qed.

Lemma mod_succ_pred (n k : Z) :
  2 <= n -> 0 <= k < n -> ((k + 1) mod n - 1 + n) mod n = k.
Proof.
  intros Hn Hk. destruct (Z.eq_dec (k + 1) n) as [E|E].
  - rewrite E, Z.mod_same by lia.
    replace (0 - 1 + n) with (n - 1) by lia. rewrite Z.mod_small; lia.
  - rewrite (Z.mod_small (k + 1)) by lia.
    replace (k + 1 - 1 + n) with (k + 1 * n) by lia.
    rewrite Z.mod_add by lia. apply Z.mod_small. lia.
Qed.

Lemma mod_pred_succ (n k : Z) :
  2 <= n -> 0 <= k < n -> ((k - 1 + n) mod n + 1) mod n = k.
Proof.
  intros Hn Hk. destruct (Z.eq_dec k 0) as [E|E].
  - subst k. replace (0 - 1 + n) with (n - 1) by lia.
    rewrite (Z.mod_small (n - 1)) by lia.
    replace (n - 1 + 1) with n by lia. apply Z.mod_same. lia.
  - replace (k - 1 + n) with (k - 1 + 1 * n) by lia.
    rewrite Z.mod_add by lia. rewrite (Z.mod_small (k - 1)) by lia.
    replace (k - 1 + 1) with k by lia. apply Z.mod_small. lia.
Qed.

(** The active id is determined by its index. *)
Lemma same_index_same_id (ts : list Track) (a b : option Z) :
  0 <= findIndex a ts -> findIndex b ts = findIndex a ts -> a = b.
Proof.
  intros Ha Hb.
  destruct (findIndex_found a ts Ha) as (t & Ht & ->).
  destruct (findIndex_found b ts) as (u & Hu & ->); [lia|].
  rewrite Hb, Ht in Hu. now injection Hu as ->.
Qed.

(** X12. In a library of at least two tracks with distinct ids that
    contains the active track, "next" followed by "previous", and
    "previous" followed by "next", come back to the same active track. *)
Theorem next_previous_cancel (rev : Revision) (w : World) :
  NoDup (map id (tracks (state w))) ->
  2 <= Z.of_nat (List.length (tracks (state w))) ->
  0 <= findIndex (currentTrackId (state w)) (tracks (state w)) ->
  currentTrackId (state (run rev [Next; Previous] w))
  = currentTrackId (state w) /\
  currentTrackId (state (run rev [Previous; Next] w))
  = currentTrackId (state w).
Proof.
  intros Hnd Hn Hk.
  set (ts := tracks (state w)) in *.
  set (n := Z.of_nat (List.length ts)) in *.
  set (k := findIndex (currentTrackId (state w)) ts) in *.
  destruct (findIndex_range (currentTrackId (state w)) ts) as [R|R];
    fold k in R; [lia|]. fold n in R.
  assert (Hback : forall forward : bool,
            currentTrackId
              (state (step rev (if forward then Previous else Next)
                        (step rev (if forward then Next else Previous) w)))
            = currentTrackId (state w)).
  { intros forward.
    destruct (advance_index rev w forward Hnd Hn Hk) as (Ht1 & Hi1).
    fold ts n k in Ht1, Hi1.
    set (w1 := step rev (if forward then Next else Previous) w) in *.
    assert (Hk1 : 0 <= findIndex (currentTrackId (state w1))
                                (tracks (state w1))).
    { rewrite Hi1. destruct forward; apply Z.mod_pos_bound; lia. }
    assert (Hnd1 : NoDup (map id (tracks (state w1)))) by now rewrite Ht1.
    assert (Hn1 : 2 <= Z.of_nat (List.length (tracks (state w1))))
      by now rewrite Ht1.
    destruct (advance_index rev w1 (negb forward) Hnd1 Hn1 Hk1)
      as (Ht2 & Hi2).
    rewrite Hi1, Ht1 in Hi2. fold ts n in Hi2.
    replace (if negb forward then Next else Previous)
      with (if forward then Previous else Next) in Ht2, Hi2
      by now destruct forward.
    symmetry. apply (same_index_same_id ts); [exact Hk|].
    rewrite Ht2, Ht1 in Hi2. fold ts in Hi2. fold k. rewrite Hi2.
    destruct forward; cbn [negb].
    - now apply mod_succ_pred.
    - now apply mod_pred_succ. }
  split; [exact (Hback true) | exact (Hback false)].
Qed.

Lemma next_previous_cancel_witness :
  NoDup (map id (tracks (state playingB))) /\
  currentTrackId (state (run Rev1 [Next; Previous] playingB)) = Some 2 /\
  currentTrackId (state (run Rev1 [Previous; Next] playingB)) = Some 2.
Proof.
  assert (Hnd : NoDup (map id (tracks (state playingB)))) by distinct_ids.
  split; [exact Hnd|].
  apply (next_previous_cancel Rev1 playingB Hnd); vm_compute; discriminate.
Defined.

Lemma advance_many (rev : Revision) (j : nat) (w : World) :
  NoDup (map id (tracks (state w))) ->
  2 <= Z.of_nat (List.length (tracks (state w))) ->
  0 <= findIndex (currentTrackId (state w)) (tracks (state w)) ->
  tracks (state (run rev (repeat Next j) w)) = tracks (state w) /\
  findIndex (currentTrackId (state (run rev (repeat Next j) w)))
            (tracks (state w))
  = (findIndex (currentTrackId (state w)) (tracks (state w)) + Z.of_nat j)
    mod Z.of_nat (List.length (tracks (state w))).
Proof.
  revert w. induction j as [|j IH]; intros w Hnd Hn Hk.
  - simpl run. split; [reflexivity|].
    destruct (findIndex_range (currentTrackId (state w)) (tracks (state w)))
      as [R|R]; [lia|].
    rewrite Z.add_0_r. symmetry. apply Z.mod_small. lia.
  - change (run rev (repeat Next (S j)) w)
      with (run rev (repeat Next j) (step rev Next w)).
    destruct (advance_index rev w true Hnd Hn Hk) as (Ht1 & Hi1).
    cbv zeta in Ht1, Hi1.
    set (w1 := step rev Next w) in *.
    destruct (IH w1) as (Ht2 & Hi2).
    + now rewrite Ht1.
    + now rewrite Ht1.
    + rewrite Hi1. apply Z.mod_pos_bound. lia.
    + rewrite Ht1 in Ht2, Hi2, Hi1. split; [exact Ht2|].
      rewrite Hi2, Hi1. rewrite Z.add_mod_idemp_l by lia.
      f_equal. lia.
Qed.

(** X13. The library is a circular playlist: in a library of [count] >= 2
    tracks with distinct ids that contains the active track at index [k],
    [j] presses of "next" make the track at index [(k + j) mod count]
    active, and [count] presses come back to the track that was active. *)
Theorem next_cycles_through_library (rev : Revision) (w : World) (j : nat) :
  NoDup (map id (tracks (state w))) ->
  2 <= Z.of_nat (List.length (tracks (state w))) ->
  0 <= findIndex (currentTrackId (state w)) (tracks (state w)) ->
  (exists t,
     at_index (tracks (state w))
       ((findIndex (currentTrackId (state w)) (tracks (state w))
         + Z.of_nat j) mod Z.of_nat (List.length (tracks (state w))))
     = Some t /\
     currentTrackId (state (run rev (repeat Next j) w)) = Some (id t)) /\
  currentTrackId
    (state (run rev (repeat Next (List.length (tracks (state w)))) w))
  = currentTrackId (state w).
Proof.
  intros Hnd Hn Hk. split.
  - destruct (advance_many rev j w Hnd Hn Hk) as (Ht & Hi).
    destruct (findIndex_found
                (currentTrackId (state (run rev (repeat Next j) w)))
                (tracks (state w)))
      as (t & Hat & Hc).
    + rewrite Hi. apply Z.mod_pos_bound. lia.
    + exists t. rewrite Hi in Hat. auto.
  - destruct (advance_many rev (List.length (tracks (state w))) w Hnd Hn Hk)
      as (Ht & Hi).
    symmetry. apply (same_index_same_id (tracks (state w))); [exact Hk|].
    rewrite Hi.
    destruct (findIndex_range (currentTrackId (state w)) (tracks (state w)))
      as [R|R]; [lia|].
    replace (findIndex (currentTrackId (state w)) (tracks (state w))
             + Z.of_nat (List.length (tracks (state w))))
      with (findIndex (currentTrackId (state w)) (tracks (state w))
            + 1 * Z.of_nat (List.length (tracks (state w)))) by lia.
    rewrite Z.mod_add by lia. apply Z.mod_small. lia.
Qed.

Lemma next_cycles_through_library_witness :
  NoDup (map id (tracks (state playingB))) /\
  currentTrackId (state (run Rev1 [Next; Next; Next] playingB)) = Some 2.
Proof.
  assert (Hnd : NoDup (map id (tracks (state playingB)))) by distinct_ids.
  split; [exact Hnd|].
  apply (proj2 (next_cycles_through_library Rev1 playingB 3 Hnd
                  ltac:(vm_compute; discriminate)
                  ltac:(vm_compute; discriminate))).
Defined.

(** ** Ingesting and reloading *)

Lemma ingestAll_numbered (files : list (File * IDBOutcome)) (d : ObjectStore) :
  forallb accepted files = true ->
  Promise_all (fst (ingestAll files d))
  = Resolved (numbered (keyGenerator d) files) /\
  snd (ingestAll files d)
  = mkStore (records d ++ numbered (keyGenerator d) files)
            (keyGenerator d + Z.of_nat (List.length files)).
Proof.
  revert d. induction files as [|fo rest IH]; intros d H.
  - simpl. rewrite app_nil_r, Z.add_0_r. now destruct d.
  - simpl in H. apply andb_true_iff in H as [A H].
    rewrite ingestAll_cons. simpl fst. simpl snd.
    rewrite (ingestOne_accepted fo d A). cbn [fst snd Promise_all].
    match goal with
    | |- context [ingestAll rest ?d1] => destruct (IH d1 H) as [-> ->]
    end.
    simpl. rewrite <- app_assoc. split; [reflexivity|].
    f_equal. lia.
Qed.

(** X14. When the store accepts every file of a batch, the library and
    the store both gain, in the order of the files, one record per file:
    its audio is the file, its name is the file name without the last
    extension, it has no cover and no video, and the ids are consecutive
    from the number of the key generator on.  Nothing is logged. *)
Theorem ingest_appends_in_order (rev : Revision)
    (files : list (File * IDBOutcome)) (w : World) :
  forallb accepted files = true ->
  tracks (state (step rev (IngestFiles files) w))
  = tracks (state w) ++ numbered (keyGenerator (db (env w))) files /\
  records (db (env (step rev (IngestFiles files) w)))
  = records (db (env w)) ++ numbered (keyGenerator (db (env w))) files /\
  keyGenerator (db (env (step rev (IngestFiles files) w)))
  = keyGenerator (db (env w)) + Z.of_nat (List.length files) /\
  console (env (step rev (IngestFiles files) w)) = console (env w) /\
  isUploading (state (step rev (IngestFiles files) w)) = false.
Proof.
  intros H. simpl. unfold settle, handleFilesSelected.
  rewrite (ingestAll_fst_snd files (db (env w))).
  destruct (ingestAll_numbered files (db (env w)) H) as [-> ->].
  simpl. rewrite runEffects_db, runEffects_console. simpl. auto.
Qed.

Lemma ingest_appends_in_order_witness :
  forallb accepted batchABC = true /\
  tracks (state (step Rev1 (IngestFiles batchABC) libraryABC))
  = tracks (state libraryABC)
    ++ [mkTrack 4 "A" (song "A.mp3") None None;
        mkTrack 5 "B" (song "B.mp3") None None;
        mkTrack 6 "C" (song "C.mp3") None None].
Proof.
  split; [reflexivity|].
  exact (proj1 (ingest_appends_in_order Rev1 batchABC libraryABC eq_refl)).
Defined.

(** X15. A reload that reads the store makes the library equal to the
    store.  After a batch, accepted or not as a whole, and such a reload,
    the library holds the audio of the records the store had, followed by
    every file the store accepted: the files of a partly refused batch,
    which [handleFilesSelected] did not show, appear. *)
Theorem reload_recovers_accepted_files (rev : Revision)
    (files : list (File * IDBOutcome)) (w : World) :
  tracks (state (run rev [IngestFiles files; Reload RequestSucceeds] w))
  = records (db (env (run rev [IngestFiles files; Reload RequestSucceeds] w)))
  /\
  map file
    (tracks (state (run rev [IngestFiles files; Reload RequestSucceeds] w)))
  = map file (records (db (env w))) ++ map fst (filter accepted files).
Proof.
  simpl. unfold settle, handleFilesSelected.
  rewrite (ingestAll_fst_snd files (db (env w))).
  destruct (Promise_all (fst (ingestAll files (db (env w))))); simpl;
    rewrite runEffects_db; simpl; (split; [reflexivity|]);
    apply ingestAll_persisted.
Qed.

Example reload_after_partial_failure :
  map name
    (tracks (state (run Rev1 [IngestFiles batchAxC] install))) = [] /\
  map name
    (tracks (state (run Rev1 [IngestFiles batchAxC; Reload RequestSucceeds]
                        install))) = ["A"; "C"].
Proof. split; reflexivity. Qed.

(** ** Ids are not handed out twice *)








Example ids_after_delete_and_ingest :
  map id (tracks (state
    (run Rev1 [DeleteTrack 2 RequestSucceeds; IngestFiles batchABC;
               Reload RequestSucceeds] playingB))) = [1; 3; 4; 5; 6].
Proof. reflexivity. Qed.

(** ** Round trips through the store ([src/services/db.ts]) *)

Lemma find_track_snoc (j : Z) (rs : list Track) (t : Track) :
  find_track (Some j) (rs ++ [t])
  = match find_track (Some j) rs with
    | Some r => Some r
    | None => if id t =? j then Some t else None
    end.
Proof.
  unfold find_track. induction rs as [|r rs IH]; simpl.
  - reflexivity.
  - destruct (id r =? j); [reflexivity | exact IH].
Qed.

Lemma put_sorted_other (t : Track) (j : Z) (rs : list Track) :
  j <> id t ->
  find_track (Some j) (put_sorted t rs) = find_track (Some j) rs.
Proof.
  intros Hne. unfold find_track.
  assert (Et : (id t =? j) = false) by (apply Z.eqb_neq; congruence).
  induction rs as [|r rs IH]; simpl.
  - now rewrite Et.
  - destruct (id r =? id t) eqn:E.
    + apply Z.eqb_eq in E. simpl. rewrite Et.
      rewrite E, Et. reflexivity.
    + destruct (id t <? id r); simpl.
      * now rewrite Et.
      * destruct (id r =? j); [reflexivity | exact IH].
Qed.

Lemma put_sorted_length (t : Track) (rs : list Track) :
  StronglySorted Z.lt (map id rs) ->
  List.length (put_sorted t rs)
  = if existsb (fun r => id r =? id t) rs
    then List.length rs else S (List.length rs).
Proof.
  induction rs as [|r rs IH]; simpl; intros H; [reflexivity|].
  inversion H as [|? ? Hs Hall]; subst.
  destruct (id r =? id t) eqn:E; simpl; [reflexivity|].
  destruct (id t <? id r) eqn:L; simpl.
  - apply Z.ltb_lt in L.
    assert (Hnone : existsb (fun r0 => id r0 =? id t) rs = false).
    { apply not_true_is_false. intros Hex.
      apply existsb_exists in Hex as [u [Hu Eu]]. apply Z.eqb_eq in Eu.
      rewrite Forall_forall in Hall.
      assert (id r < id u) by (apply Hall; now apply in_map). lia. }
    now rewrite Hnone.
  - rewrite (IH Hs). now destruct (existsb _ rs).
Qed.

Lemma filter_all {A : Type} (p : A -> bool) (l : list A) :
  (forall x, In x l -> p x = true) -> filter p l = l.
Proof.
  induction l as [|x l IH]; simpl; intros H; [reflexivity|].
  rewrite (H x) by now left. f_equal. apply IH. intros y Hy. apply H.
  now right.
Qed.

(** X17. [addTrackToDB] on a store in order resolves with the number of
    the key generator, which is the key of no record yet; afterwards the
    record with that key is the one added, with no cover and no video,
    every other key is looked up as before, and the next key is one
    more. *)
Theorem add_then_lookup (nm : string) (f : File) (d : ObjectStore) :
  store_ok d ->
  fst (addTrackToDB RequestSucceeds nm f d) = Resolved (keyGenerator d) /\
  ~ In (keyGenerator d) (map id (records d)) /\
  find_track (Some (keyGenerator d))
             (records (snd (addTrackToDB RequestSucceeds nm f d)))
  = Some (mkTrack (keyGenerator d) nm f None None) /\
  (forall j, j <> keyGenerator d ->
             find_track (Some j)
                        (records (snd (addTrackToDB RequestSucceeds nm f d)))
             = find_track (Some j) (records d)) /\
  keyGenerator (snd (addTrackToDB RequestSucceeds nm f d))
  = keyGenerator d + 1 /\
  store_ok (snd (addTrackToDB RequestSucceeds nm f d)).
Proof.
  intros Hok. pose proof Hok as (Hs & Hb & Hg).
  assert (Hfresh : ~ In (keyGenerator d) (map id (records d))).
  { intros Hin. apply in_map_iff in Hin as [r [E Hr]].
    rewrite Forall_forall in Hb. apply Hb in Hr. lia. }
  unfold addTrackToDB. simpl.
  split; [reflexivity|]. split; [exact Hfresh|]. split; [|split; [|split]].
  - rewrite find_track_snoc.
    apply find_track_None in Hfresh. rewrite Hfresh. simpl.
    now rewrite Z.eqb_refl.
  - intros j Hj. rewrite find_track_snoc. simpl.
    destruct (find_track (Some j) (records d)); [reflexivity|].
    destruct (keyGenerator d =? j) eqn:E; [|reflexivity].
    apply Z.eqb_eq in E. congruence.
  - reflexivity.
  - apply (store_add_ok nm f d Hok).
Qed.

Lemma add_then_lookup_witness :
  store_ok emptyStore /\
  find_track (Some 1)
    (records (snd (addTrackToDB RequestSucceeds "A" (song "A.mp3")
                     emptyStore)))
  = Some (mkTrack 1 "A" (song "A.mp3") None None).
Proof.
  split; [exact store_ok_empty|].
  exact (proj1 (proj2 (proj2
           (add_then_lookup "A" (song "A.mp3") emptyStore store_ok_empty)))).
Defined.

(** X18. [updateTrackInDB] is an upsert on a store in key order: the
    record with the key of the track is the track afterwards, every other
    key is looked up as before, the records stay in key order, and their
    number is unchanged when the key existed and one more when it did
    not. *)
Theorem update_then_lookup (t : Track) (d : ObjectStore) :
  StronglySorted Z.lt (map id (records d)) ->
  find_track (Some (id t))
             (records (snd (updateTrackInDB RequestSucceeds t d)))
  = Some t /\
  (forall j, j <> id t ->
             find_track (Some j)
                        (records (snd (updateTrackInDB RequestSucceeds t d)))
             = find_track (Some j) (records d)) /\
  StronglySorted Z.lt
    (map id (records (snd (updateTrackInDB RequestSucceeds t d)))) /\
  List.length (records (snd (updateTrackInDB RequestSucceeds t d)))
  = (if existsb (fun r => id r =? id t) (records d)
     then List.length (records d) else S (List.length (records d))).
Proof.
  intros Hs. unfold updateTrackInDB, store_put. simpl.
  split; [now apply put_sorted_find|].
  split; [intros j Hj; now apply put_sorted_other|].
  split; [now apply put_sorted_sorted | now apply put_sorted_length].
Qed.

Lemma update_then_lookup_witness :
  StronglySorted Z.lt (map id (records (db (env libraryABC)))) /\
  map id (records (snd (updateTrackInDB RequestSucceeds
                          (mkTrack 2 "B" (song "B.mp3") (Some picture) None)
                          (db (env libraryABC))))) = [1; 2; 3] /\
  List.length
    (records (snd (updateTrackInDB RequestSucceeds
                     (mkTrack 9 "Z" (song "Z.mp3") None None)
                     (db (env libraryABC))))) = 4%nat.
Proof.
  assert (Hs : StronglySorted Z.lt (map id (records (db (env libraryABC))))).
  { vm_compute. repeat constructor. }
  split; [exact Hs|]. split; [reflexivity|].
  exact (proj2 (proj2 (proj2
           (update_then_lookup (mkTrack 9 "Z" (song "Z.mp3") None None)
              (db (env libraryABC)) Hs)))).
Defined.

(** X19. [deleteTrackFromDB] resolves whether the key exists or not:
    afterwards no record has the key and every other key is looked up as
    before; when no record had the key, the records are unchanged. *)
Theorem delete_then_lookup (i : Z) (d : ObjectStore) :
  fst (deleteTrackFromDB RequestSucceeds i d) = Resolved tt /\
  find_track (Some i) (records (snd (deleteTrackFromDB RequestSucceeds i d)))
  = None /\
  (forall j, j <> i ->
             find_track (Some j)
                        (records (snd (deleteTrackFromDB RequestSucceeds i d)))
             = find_track (Some j) (records d)) /\
  (~ In i (map id (records d)) ->
   records (snd (deleteTrackFromDB RequestSucceeds i d)) = records d).
Proof.
  unfold deleteTrackFromDB. simpl. split; [reflexivity|].
  split; [|split].
  - apply find_track_None. apply (store_delete_absent i d).
  - intros j Hj. now apply find_track_filter.
  - intros Hn. apply filter_all. intros x Hx.
    apply negb_true_iff, Z.eqb_neq. intros E. apply Hn.
    rewrite <- E. now apply in_map.
Qed.

(** ** The name of an ingested file *)

Lemma list_ascii_of_append (a b : string) :
  list_ascii_of_string (a ++ b)%string
  = list_ascii_of_string a ++ list_ascii_of_string b.
Proof. induction a as [|c a IH]; simpl; [reflexivity | now rewrite IH]. Qed.

Lemma extension_cut_scan (l rest : list ascii) (seen : nat) :
  Forall plain l ->
  extension_cut (l ++ "."%char :: rest) seen
  = match (seen + List.length l)%nat with
    | O => None
    | S _ => Some rest
    end.
Proof.
  revert seen. induction l as [|c l IH]; intros seen H; simpl.
  - now rewrite Nat.add_0_r.
  - inversion H as [|? ? [Hd Hs] Hl]; subst.
    apply Ascii.eqb_neq in Hd, Hs. rewrite Hd, Hs.
    rewrite (IH (S seen) Hl). now rewrite Nat.add_succ_r.
Qed.

Lemma extension_cut_Some (l kept : list ascii) (seen : nat) :
  extension_cut l seen = Some kept ->
  exists ext, l = ext ++ "."%char :: kept /\ Forall plain ext /\
              (seen + List.length ext <> 0)%nat.
Proof.
  revert seen. induction l as [|c l IH]; intros seen; simpl; [discriminate|].
  destruct (c =? ".")%char eqn:Ed.
  - apply Ascii.eqb_eq in Ed. subst c.
    destruct seen; [discriminate|]. intros [= ->].
    exists []. repeat split; [constructor | simpl; lia].
  - destruct (c =? "/")%char eqn:Es; [discriminate|].
    intros H. destruct (IH _ H) as (ext & -> & Hp & Hn).
    exists (c :: ext). repeat split.
    + constructor; [|exact Hp].
      apply Ascii.eqb_neq in Ed, Es. now split.
    + simpl. lia.
Qed.

Lemma extension_cut_no_dot (l : list ascii) (seen : nat) :
  ~ In "."%char l -> extension_cut l seen = None.
Proof.
  revert seen. induction l as [|c l IH]; intros seen H; simpl; [reflexivity|].
  destruct (c =? ".")%char eqn:Ed.
  - apply Ascii.eqb_eq in Ed. exfalso. apply H. now left.
  - destruct (c =? "/")%char; [reflexivity|].
    apply IH. intros Hin. apply H. now right.
Qed.

(** X20. The name of an ingested track is the file name without its last
    extension: for a name [base.ext] whose [ext] is not empty and has
    neither a dot nor a slash, [stripExtension] returns [base], whatever
    dots and slashes [base] has. *)
Theorem stripExtension_drops_extension (base ext : string) :
  ext <> "" ->
  Forall plain (list_ascii_of_string ext) ->
  stripExtension (base ++ "." ++ ext)%string = base.
Proof.
  intros Hne Hp. unfold stripExtension.
  rewrite !list_ascii_of_append. simpl list_ascii_of_string at 2.
  simpl app at 2. rewrite rev_app_distr. simpl rev at 1.
  rewrite <- app_assoc. simpl app at 2.
  rewrite extension_cut_scan by (apply Forall_rev; exact Hp).
  rewrite length_rev. simpl.
  destruct (list_ascii_of_string ext) as [|c l] eqn:E.
  - exfalso. apply Hne.
    rewrite <- (string_of_list_ascii_of_string ext), E. reflexivity.
  - simpl. rewrite rev_involutive. apply string_of_list_ascii_of_string.
Qed.

Lemma stripExtension_drops_extension_witness :
  Forall plain (list_ascii_of_string "mp3") /\
  stripExtension "live/05.take.2.mp3" = "live/05.take.2".
Proof.
  assert (Hp : Forall plain (list_ascii_of_string "mp3")).
  { repeat constructor; discriminate. }
  split; [exact Hp|].
  apply (stripExtension_drops_extension "live/05.take.2" "mp3");
    [discriminate | exact Hp].
Defined.

(** X21. [stripExtension] removes at most one final extension, and
    nothing else: either it returns the name as it is, or the name is the
    result followed by a dot and a non-empty extension without dot and
    slash.  A name without a dot is returned as it is. *)
Theorem stripExtension_only_drops_extension (s : string) :
  (stripExtension s = s \/
   exists ext, s = (stripExtension s ++ "." ++ ext)%string /\
               ext <> "" /\ Forall plain (list_ascii_of_string ext)) /\
  (~ In "."%char (list_ascii_of_string s) -> stripExtension s = s).
Proof.
  split.
  - unfold stripExtension.
    destruct (extension_cut (rev (list_ascii_of_string s)) 0) as [kept|] eqn:E;
      [right | now left].
    apply extension_cut_Some in E as (ext & Hl & Hp & Hn).
    exists (string_of_list_ascii (rev ext)).
    rewrite list_ascii_of_string_of_list_ascii. repeat split.
    + rewrite <- (string_of_list_ascii_of_string s) at 1.
      rewrite <- (rev_involutive (list_ascii_of_string s)), Hl.
      rewrite rev_app_distr. simpl. rewrite <- app_assoc. simpl.
      rewrite <- (list_ascii_of_string_of_list_ascii (rev kept)) at 1.
      rewrite <- (list_ascii_of_string_of_list_ascii
                    ("."%char :: rev ext)).
      rewrite <- list_ascii_of_append.
      rewrite string_of_list_ascii_of_string. reflexivity.
    + intros E. apply (f_equal list_ascii_of_string) in E.
      rewrite list_ascii_of_string_of_list_ascii in E. simpl in E.
      destruct ext; [simpl in Hn; lia|].
      simpl in E. now destruct (rev ext).
    + now apply Forall_rev.
  - intros Hno. unfold stripExtension.
    rewrite extension_cut_no_dot; [reflexivity|].
    intros Hin. apply Hno. now apply in_rev.
Qed.

Example stripExtension_examples :
  stripExtension "song" = "song" /\
  stripExtension "song." = "song." /\
  stripExtension ".hidden" = "" /\
  stripExtension "a.b/c" = "a.b/c" /\
  stripExtension "a.tar.gz" = "a.tar".
Proof. repeat split. Qed.

(** ** Editing *)

Lemma same_id_same_track (ts : list Track) (u v : Track) :
  NoDup (map id ts) -> In u ts -> In v ts -> id u = id v -> u = v.
Proof.
  intros Hnd Hu Hv E.
  pose proof (find_track_nodup ts u Hnd Hu) as Fu.
  pose proof (find_track_nodup ts v Hnd Hv) as Fv.
  rewrite E, Fv in Fu. now injection Fu.
Qed.

Lemma Forall2_map_in {A : Type} (R : A -> A -> Prop) (f : A -> A)
    (l : list A) :
  (forall u, In u l -> R u (f u)) -> Forall2 R l (map f l).
Proof.
  induction l as [|u l IH]; intros H; simpl; constructor.
  - apply H. now left.
  - apply IH. intros v Hv. apply H. now right.
Qed.

Lemma applyPatch_fields (data : EditData) (ts : list Track) (orig u : Track) :
  NoDup (map id ts) ->
  find_track (Some (edit_id data)) ts = Some orig ->
  In u ts ->
  id (applyPatch data orig u) = id u /\
  name (applyPatch data orig u) = name u /\
  file (applyPatch data orig u) = file u /\
  coverArt (applyPatch data orig u)
  = (if id u =? edit_id data
     then or_else (edit_coverArt data) (coverArt u) else coverArt u) /\
  video (applyPatch data orig u)
  = (if id u =? edit_id data
     then or_else (edit_video data) (video u) else video u).
Proof.
  intros Hnd F Hu. apply find_track_Some in F as [Hin [= Hid]].
  unfold applyPatch. destruct (id u =? edit_id data) eqn:E; [|auto].
  apply Z.eqb_eq in E.
  assert (u = orig) as -> by (apply (same_id_same_track ts); congruence).
  simpl. auto.
Qed.

(** X22. An edit never touches playback, and in a library with distinct
    ids it changes nothing but the cover and the video of the edited
    track: the active id, the transport flag, the bound URL, the object
    URLs and the element are as before, and the ids, the names and the
    audio of all tracks are as before, in the same order. *)
Theorem edit_keeps_playback_and_audio (rev : Revision) (data : EditData)
    (o : IDBOutcome) (w : World) :
  NoDup (map id (tracks (state w))) ->
  currentTrackId (state (step rev (EditTrack data o) w))
  = currentTrackId (state w) /\
  isPlaying (state (step rev (EditTrack data o) w)) = isPlaying (state w) /\
  currentTrackUrl (state (step rev (EditTrack data o) w))
  = currentTrackUrl (state w) /\
  urlLog (env (step rev (EditTrack data o) w)) = urlLog (env w) /\
  audioRef (env (step rev (EditTrack data o) w)) = audioRef (env w) /\
  map id (tracks (state (step rev (EditTrack data o) w)))
  = map id (tracks (state w)) /\
  map name (tracks (state (step rev (EditTrack data o) w)))
  = map name (tracks (state w)) /\
  map file (tracks (state (step rev (EditTrack data o) w)))
  = map file (tracks (state w)).
Proof.
  intros Hnd. simpl.
  destruct (find_track (Some (edit_id data)) (tracks (state w)))
    as [orig|] eqn:F.
  - rewrite (handleEditorSave_found data o w orig F). unfold settle.
    destruct (succeeds o); simpl;
      rewrite runEffects_idle by reflexivity; simpl; repeat split;
      rewrite map_map; apply map_ext_in; intros u Hu;
      now destruct (applyPatch_fields data _ orig u Hnd F Hu)
        as (? & ? & ? & _).
  - rewrite (handleEditorSave_missing data o w F). unfold settle. simpl.
    rewrite runEffects_idle by reflexivity. repeat split.
Qed.

Lemma edit_keeps_playback_and_audio_witness :
  NoDup (map id (tracks (state playingB))) /\
  map name
    (tracks (state (step Rev1
                      (EditTrack (mkEditData 2 (Some picture) None)
                                 RequestSucceeds) playingB)))
  = ["A"; "B"; "C"] /\
  isPlaying
    (state (step Rev1 (EditTrack (mkEditData 2 (Some picture) None)
                                 RequestSucceeds) playingB)) = true.
Proof.
  assert (Hnd : NoDup (map id (tracks (state playingB)))) by distinct_ids.
  split; [exact Hnd|].
  pose proof (edit_keeps_playback_and_audio Rev1
                (mkEditData 2 (Some picture) None) RequestSucceeds
                playingB Hnd) as (_ & Hp & _ & _ & _ & _ & Hn & _).
  split; [rewrite Hn; reflexivity | rewrite Hp; reflexivity].
Defined.

(** X23. An edit can replace a cover or a video but cannot remove one: in
    a library with distinct ids, a track that has a cover (a video) still
    has one after any edit, and saving the editor without choosing a file
    leaves every track of the library exactly as it is. *)
Theorem edit_never_removes_media (rev : Revision) (data : EditData)
    (o : IDBOutcome) (w : World) :
  NoDup (map id (tracks (state w))) ->
  Forall2 (fun u u' =>
             (coverArt u <> None -> coverArt u' <> None) /\
             (video u <> None -> video u' <> None))
          (tracks (state w))
          (tracks (state (step rev (EditTrack data o) w))) /\
  (edit_coverArt data = None -> edit_video data = None ->
   tracks (state (step rev (EditTrack data o) w)) = tracks (state w)).
Proof.
  intros Hnd. simpl.
  assert (Hrefl : forall l : list Track,
            Forall2 (fun u u' =>
                       (coverArt u <> None -> coverArt u' <> None) /\
                       (video u <> None -> video u' <> None)) l l).
  { induction l; constructor; auto. }
  destruct (find_track (Some (edit_id data)) (tracks (state w)))
    as [orig|] eqn:F.
  - rewrite (handleEditorSave_found data o w orig F).
    destruct (succeeds o); simpl; [|split; [apply Hrefl | reflexivity]].
    assert (Hfields : forall u, In u (tracks (state w)) ->
              (coverArt u <> None ->
               coverArt (applyPatch data orig u) <> None) /\
              (video u <> None -> video (applyPatch data orig u) <> None) /\
              (edit_coverArt data = None -> edit_video data = None ->
               applyPatch data orig u = u)).
    { intros u Hu.
      destruct (applyPatch_fields data _ orig u Hnd F Hu)
        as (Hi & Hn & Hf & Hc & Hv).
      repeat split.
      - rewrite Hc. destruct (id u =? edit_id data); [|auto].
        destruct (edit_coverArt data); simpl; [discriminate | auto].
      - rewrite Hv. destruct (id u =? edit_id data); [|auto].
        destruct (edit_video data); simpl; [discriminate | auto].
      - intros Ec Ev. rewrite Ec, Ev in *. simpl in Hc, Hv.
        destruct (applyPatch data orig u), u. simpl in *.
        destruct (_ =? _); congruence. }
    split.
    + apply Forall2_map_in. intros u Hu.
      destruct (Hfields u Hu) as (? & ? & _). auto.
    + intros Ec Ev. rewrite <- (map_id (tracks (state w))) at 2.
      apply map_ext_in. intros u Hu.
      destruct (Hfields u Hu) as (_ & _ & H). now apply H.
  - rewrite (handleEditorSave_missing data o w F). simpl.
    split; [apply Hrefl | reflexivity].
Qed.

Lemma edit_never_removes_media_witness :
  NoDup (map id (tracks (state playingB))) /\
  tracks (state (step Rev1 (EditTrack (mkEditData 2 None None)
                                      RequestSucceeds) playingB))
  = tracks (state playingB).
Proof.
  assert (Hnd : NoDup (map id (tracks (state playingB)))) by distinct_ids.
  split; [exact Hnd|].
  exact (proj2 (edit_never_removes_media Rev1 (mkEditData 2 None None)
                  RequestSucceeds playingB Hnd) eq_refl eq_refl).
Defined.

(** ** The rows of the library and the volume button *)

Lemma filter_no_id (ts : list Track) (x : Z) :
  ~ In x (map id ts) -> filter (fun u => id u =? x) ts = [].
Proof.
  induction ts as [|u ts IH]; simpl; intros H; [reflexivity|].
  destruct (id u =? x) eqn:E.
  - apply Z.eqb_eq in E. exfalso. apply H. now left.
  - apply IH. intros Hin. apply H. now right.
Qed.

Lemma filter_one_id (ts : list Track) (t : Track) :
  NoDup (map id ts) -> In t ts ->
  filter (fun u => id u =? id t) ts = [t].
Proof.
  induction ts as [|u ts IH]; simpl; [tauto|].
  intros Hnd Hin. inversion Hnd as [|? ? Hu Hnd']; subst.
  destruct Hin as [->|Hin].
  - rewrite Z.eqb_refl. f_equal. now apply filter_no_id.
  - destruct (id u =? id t) eqn:E.
    + apply Z.eqb_eq in E. exfalso. apply Hu. rewrite E. now apply in_map.
    + now apply IH.
Qed.

(** X24. After every run, the library shows at most one active row: no row
    is active when no track is, and exactly one row, the one of the active
    track, is active otherwise. *)
Theorem one_active_row (rev : Revision) (intents : list Intent) :
  filter (isActive (state (run rev intents install)))
         (tracks (state (run rev intents install)))
  = match currentTrack (state (run rev intents install)) with
    | Some t => [t]
    | None => []
    end.
Proof.
  destruct (run_invariants rev intents) as [HI _].
  unfold currentTrack, isActive.
  destruct (currentTrackId (state (run rev intents install))) as [x|] eqn:C.
  - destruct (inv_active _ HI x C) as (t & k & Ft & _).
    rewrite Ft. apply find_track_Some in Ft as [Hin [= ->]].
    apply filter_one_id; [apply HI | exact Hin].
  - rewrite find_track_null.
    induction (tracks (state (run rev intents install))); simpl; auto.
Qed.

Example one_active_row_example :
  map name (filter (isActive (state playingB)) (tracks (state playingB)))
  = ["B"].
Proof. reflexivity. Qed.

Lemma reachable_handleVolumeToggle (rev : Revision) (w : World) :
  reachable rev w -> reachable rev (handleVolumeToggle rev w).
Proof. intros H. unfold handleVolumeToggle. now constructor. Qed.

(** X25. The volume button of the player mutes an audible volume and sets
    a muted one to 0.75: the volume before the mute is not kept, so two
    presses from any audible volume end at 0.75.  The element follows each
    press, and playback is not touched. *)
Theorem volume_toggle_forgets_volume (rev : Revision) (w : World) :
  reachable rev w ->
  volume (state (handleVolumeToggle rev w))
  = (if negb (Qle_bool (volume (state w)) 0%Q) then 0%Q else (75 # 100)%Q) /\
  (negb (Qle_bool (volume (state w)) 0%Q) = true ->
   volume (state (handleVolumeToggle rev (handleVolumeToggle rev w)))
   = (75 # 100)%Q) /\
  (exists a,
     audioRef (env (handleVolumeToggle rev w)) = Some a /\
     Qeq (Sink.volume a) (volume (state (handleVolumeToggle rev w)))) /\
  currentTrackId (state (handleVolumeToggle rev w))
  = currentTrackId (state w) /\
  isPlaying (state (handleVolumeToggle rev w)) = isPlaying (state w) /\
  urlLog (env (handleVolumeToggle rev w)) = urlLog (env w).
Proof.
  intros Hr.
  pose proof (Sync_reachable rev _ (reachable_handleVolumeToggle rev w Hr))
    as HS.
  destruct (sync_element _ HS) as (a & Ha & _ & Hv).
  split; [reflexivity|]. split; [|split; [eauto|]].
  - intros Hpos. unfold handleVolumeToggle at 1. simpl step.
    unfold settle. simpl state. simpl volume.
    unfold handleVolumeToggle. simpl. now rewrite Hpos.
  - unfold handleVolumeToggle. simpl. unfold settle. simpl.
    rewrite runEffects_urlLog. simpl. rewrite String.eqb_refl. auto.
Qed.

Lemma volume_toggle_forgets_volume_witness :
  reachable Rev1 (run Rev1 [SetVolume (1 # 4)] playingB) /\
  volume (state (run Rev1 [SetVolume (1 # 4)] playingB)) = (1 # 4)%Q /\
  volume (state (handleVolumeToggle Rev1
                   (handleVolumeToggle Rev1
                      (run Rev1 [SetVolume (1 # 4)] playingB))))
  = (75 # 100)%Q.
Proof.
  assert (Hr : reachable Rev1 (run Rev1 [SetVolume (1 # 4)] playingB)).
  { apply reachable_run, reachable_playingB. }
  split; [exact Hr|]. split; [reflexivity|].
  exact (proj1 (proj2 (volume_toggle_forgets_volume Rev1 _ Hr)) eq_refl).
Defined.

(** ** Lyrics *)

Lemma stampAt_Some (cs minutes seconds ms text : list ascii) :
  stampAt cs = Some (minutes, seconds, ms, text) ->
  exists a b c d e f g h i rest,
    cs = "["%char :: a :: b :: ":"%char :: c :: d :: ":"%char :: e :: f
         :: "."%char :: g :: h :: i :: "]"%char :: rest /\
    minutes = [a; b] /\ seconds = [c; d] /\ ms = [e; f] /\
    text = [g; h; i] /\
    Forall (fun x => isDigit x = true) [a; b; c; d; e; f; g; h; i].
Proof.
  unfold stampAt.
  destruct cs as [|o [|a [|b [|c1 [|c [|d [|c2 [|e [|f [|p [|g [|h [|i
                 [|cl rest]]]]]]]]]]]]]]; try discriminate.
  destruct (_ && _) eqn:E; [|discriminate].
  intros [= <- <- <- <-].
  repeat (apply andb_true_iff in E as [E ?]).
  repeat match goal with
         | H : (_ =? _)%char = true |- _ => apply Ascii.eqb_eq in H; subst
         end.
  exists a, b, c, d, e, f, g, h, i, rest.
  repeat split. repeat constructor; assumption.
Qed.

Lemma matchLine_cons (x : ascii) (cs : list ascii) :
  matchLine (x :: cs)
  = match stampAt (x :: cs) with
    | Some groups => Some groups
    | None => matchLine cs
    end.
Proof. reflexivity. Qed.

Lemma matchLine_Some (cs minutes seconds ms text : list ascii) :
  matchLine cs = Some (minutes, seconds, ms, text) ->
  exists before rest,
    cs = before ++ rest /\ stampAt rest = Some (minutes, seconds, ms, text).
Proof.
  induction cs as [|x cs IH].
  - discriminate.
  - rewrite matchLine_cons.
    destruct (stampAt (x :: cs)) as [groups|] eqn:E.
    + intros [= ->]. exists [], (x :: cs). auto.
    + intros H. destruct (IH H) as (before & rest & -> & Hs).
      exists (x :: before), rest. auto.
Qed.

Lemma digit_not_space (c : ascii) : isDigit c = true -> isSpace c = false.
Proof.
  unfold isDigit, isSpace. intros H.
  apply andb_true_iff in H as [H1 H2].
  apply Nat.leb_le in H1, H2.
  apply orb_false_iff. split.
  - apply andb_false_iff. right. apply Nat.leb_gt. lia.
  - apply Nat.eqb_neq. lia.
Qed.

Lemma trim_digits (g h i : ascii) :
  isDigit g = true -> isDigit i = true -> trim [g; h; i] = [g; h; i].
Proof.
  intros Hg Hi. unfold trim. simpl.
  rewrite (digit_not_space g Hg). simpl.
  now rewrite (digit_not_space i Hi).
Qed.

(** The lyric that the loop makes of a line: its text is the group of
    three digits. *)
Lemma parseLine_text (stamp : nat -> nat -> nat -> Q) (line : list ascii)
    (l : LyricLine.t) :
  In l (parseLine stamp line) ->
  exists a b c d e f g h i before rest,
    line = before ++ "["%char :: a :: b :: ":"%char :: c :: d :: ":"%char
                  :: e :: f :: "."%char :: g :: h :: i :: "]"%char :: rest /\
    Forall (fun x => isDigit x = true) [a; b; c; d; e; f; g; h; i] /\
    l = LyricLine.mk (stamp (parseInt [a; b]) (parseInt [c; d])
                            (parseInt [e; f]))
                     (String g (String h (String i ""))).
Proof.
  unfold parseLine.
  destruct (matchLine line) as [[[[minutes seconds] ms] text]|] eqn:M;
    [|intros []].
  apply matchLine_Some in M as (before & rest0 & -> & Hs).
  apply stampAt_Some in Hs
    as (a & b & c & d & e & f & g & h & i & rest & -> & -> & -> & -> & ->
        & Hd).
  assert (Hg : isDigit g = true /\ isDigit i = true).
  { rewrite Forall_forall in Hd. split; apply Hd; simpl; auto 10. }
  rewrite (trim_digits g h i (proj1 Hg) (proj2 Hg)).
  intros [<-|[]].
  exists a, b, c, d, e, f, g, h, i, before, rest. auto.
Qed.

(** X26. Every lyric that [parseLyrics] returns has as its text the three
    digits of the last group of a stamp [[dd:dd:dd.ddd]] of the response,
    not the words that follow the stamp: the array pattern binds [text] to
    the fourth group, and the fifth, which holds the words, is dropped.
    Its time is made of the first three groups. *)
Theorem parsed_text_is_stamp_digits (stamp : nat -> nat -> nat -> Q)
    (lyricText : string) :
  Forall (fun l =>
            exists a b c d e f g h i,
              Forall (fun x => isDigit x = true)
                     [a; b; c; d; e; f; g; h; i] /\
              LyricLine.text l = String g (String h (String i "")) /\
              LyricLine.time l
              = stamp (parseInt [a; b]) (parseInt [c; d]) (parseInt [e; f]))
         (parseLyrics stamp lyricText).
Proof.
  unfold parseLyrics.
  destruct (negb (truthy_string lyricText)); [constructor|].
  apply Forall_forall. intros l Hl.
  apply in_flat_map in Hl as (line & _ & Hl).
  apply parseLine_text in Hl
    as (a & b & c & d & e & f & g & h & i & before & rest & _ & Hd & ->).
  exists a, b, c, d, e, f, g, h, i. auto.
Qed.

Example parseLyrics_example :
  parseLyrics (fun m s ms => inject_Z (Z.of_nat (m * 60 + s)) + (Z.of_nat ms # 1000))%Q
    "[00:01:05.250] First line
no stamp here
[01:02.500] Second line"
  = [LyricLine.mk (inject_Z 1 + (5 # 1000))%Q "250"].
Proof. reflexivity. Qed.

Lemma stampAt_no_bracket (o : ascii) (cs : list ascii) :
  o <> "["%char -> stampAt (o :: cs) = None.
Proof.
  intros H. apply Ascii.eqb_neq in H. unfold stampAt.
  destruct cs as [|a [|b [|c1 [|c [|d [|c2 [|e [|f [|p [|g [|h [|i
                 [|cl rest]]]]]]]]]]]]]; try reflexivity.
  now rewrite H.
Qed.

Lemma matchLine_no_bracket (cs : list ascii) :
  Forall (fun x => x <> "["%char) cs -> matchLine cs = None.
Proof.
  induction 1 as [|x cs Hx Hcs IH]; [reflexivity|].
  rewrite matchLine_cons, (stampAt_no_bracket x cs Hx). exact IH.
Qed.

Lemma digit_not_bracket (c : ascii) :
  isDigit c = true -> c <> "["%char /\ c <> "010"%char.
Proof.
  intros H. split; intros ->; vm_compute in H; discriminate.
Qed.

Lemma matchLine_prompted (line : list ascii) :
  isPrompted line ->
  matchLine line = None /\ Forall (fun x => x <> "010"%char) line.
Proof.
  intros (a & b & c & d & e & f & g & words & -> & Hd & Hw).
  assert (Hall : forall x, In x [a; b; c; d; e; f; g] ->
                           x <> "["%char /\ x <> "010"%char).
  { intros x Hx. apply digit_not_bracket.
    rewrite Forall_forall in Hd. now apply Hd. }
  assert (Ha := Hall a). assert (Hb := Hall b). assert (Hc := Hall c).
  assert (Hd' := Hall d). assert (He := Hall e). assert (Hf := Hall f).
  assert (Hg := Hall g). simpl in Ha, Hb, Hc, Hd', He, Hf, Hg.
  split.
  - unfold promptedLine. rewrite matchLine_cons.
    assert (Hhead : stampAt ("["%char :: a :: b :: ":"%char :: c :: d
                             :: "."%char :: e :: f :: g :: "]"%char :: words)
                    = None).
    { unfold stampAt.
      destruct words as [|w1 [|w2 [|w3 ws]]]; try reflexivity.
      change ("." =? ":")%char with false.
      now rewrite !Bool.andb_false_r. }
    rewrite Hhead. apply matchLine_no_bracket.
    repeat (constructor; [intuition discriminate|]).
    eapply Forall_impl; [|exact Hw]. simpl. tauto.
  - unfold promptedLine.
    repeat (constructor; [intuition discriminate|]).
    eapply Forall_impl; [|exact Hw]. simpl. tauto.
Qed.

Lemma splitLines_line (l rest current : list ascii) :
  Forall (fun x => x <> "010"%char) l ->
  splitLines (l ++ rest) current = splitLines rest (rev l ++ current).
Proof.
  revert current. induction l as [|x l IH]; intros current H; simpl.
  - reflexivity.
  - inversion H as [|? ? Hx Hl]; subst.
    apply Ascii.eqb_neq in Hx. rewrite Hx.
    rewrite (IH (x :: current) Hl). now rewrite <- app_assoc.
Qed.

Lemma splitLines_feed (rest current : list ascii) :
  splitLines ("010"%char :: rest) current
  = rev current :: splitLines rest [].
Proof. reflexivity. Qed.

Lemma splitLines_join (line : list ascii) (lines : list (list ascii))
    (current : list ascii) :
  Forall (Forall (fun x => x <> "010"%char)) (line :: lines) ->
  splitLines (joinLines (line :: lines)) current
  = (rev current ++ line) :: lines.
Proof.
  revert line current. induction lines as [|next lines IH];
    intros line current H.
  - inversion H as [|? ? Hl _]; subst. simpl.
    rewrite <- (app_nil_r line) at 1. rewrite (splitLines_line _ _ _ Hl).
    simpl. now rewrite rev_app_distr, rev_involutive.
  - inversion H as [|? ? Hl Hrest]; subst.
    change (joinLines (line :: next :: lines))
      with (line ++ "010"%char :: joinLines (next :: lines)).
    rewrite (splitLines_line _ _ _ Hl), splitLines_feed.
    rewrite (IH next [] Hrest). simpl.
    now rewrite rev_app_distr, rev_involutive.
Qed.

(** X27. A response in the format that the prompt of [generateLyrics]
    asks for, one [[mm:ss.SSS]] stamp and the words per line, never gives
    a lyric: the pattern of [parseLyrics] wants three groups of two digits
    before the dot, so no line matches and the status is ['error']. *)
Theorem prompted_format_is_rejected (stamp : nat -> nat -> nat -> Q)
    (lines : list (list ascii)) :
  Forall isPrompted lines ->
  parseLyrics stamp (string_of_list_ascii (joinLines lines)) = [] /\
  generateLyrics stamp
    (Resolved (Some (string_of_list_ascii (joinLines lines))))
  = ([], error).
Proof.
  intros Hp.
  assert (Hparse : parseLyrics stamp (string_of_list_ascii (joinLines lines))
                   = []).
  { unfold parseLyrics.
    destruct (negb (truthy_string _)); [reflexivity|].
    rewrite list_ascii_of_string_of_list_ascii.
    destruct lines as [|line lines]; [reflexivity|].
    rewrite splitLines_join.
    - simpl rev. simpl app.
      induction Hp as [|l ls Hl Hls IH]; [reflexivity|].
      simpl. unfold parseLine at 1.
      rewrite (proj1 (matchLine_prompted l Hl)). exact IH.
    - eapply Forall_impl; [|exact Hp].
      intros l Hl. apply (matchLine_prompted l Hl). }
  split; [exact Hparse|]. unfold generateLyrics. now rewrite Hparse.
Qed.

Lemma prompted_format_is_rejected_witness :
  Forall isPrompted
    [list_ascii_of_string "[00:12.500] Hello darkness";
     list_ascii_of_string "[00:17.250] my old friend"] /\
  generateLyrics (fun _ _ _ => 0%Q)
    (Resolved (Some "[00:12.500] Hello darkness
[00:17.250] my old friend"))
  = ([], error).
Proof.
  assert (Hp : Forall isPrompted
                 [list_ascii_of_string "[00:12.500] Hello darkness";
                  list_ascii_of_string "[00:17.250] my old friend"]).
  { constructor; [|constructor; [|constructor]].
    - exists "0"%char, "0"%char, "1"%char, "2"%char, "5"%char, "0"%char,
        "0"%char, (list_ascii_of_string " Hello darkness").
      split; [reflexivity|].
      split; repeat constructor; discriminate.
    - exists "0"%char, "0"%char, "1"%char, "7"%char, "2"%char, "5"%char,
        "0"%char, (list_ascii_of_string " my old friend").
      split; [reflexivity|].
      split; repeat constructor; discriminate. }
  split; [exact Hp|].
  exact (proj2 (prompted_format_is_rejected (fun _ _ _ => 0%Q) _ Hp)).
Defined.

(** X28. A line that starts with a stamp [[dd:dd:dd.ddd]] gives exactly
    one lyric, whatever follows the stamp, even nothing: its text is the
    three digits after the dot and its time is made of the three groups
    of two digits; the words of the line are not part of the lyric. *)
Theorem stamped_line_gives_its_digits (stamp : nat -> nat -> nat -> Q)
    (a b c d e f g h i : ascii) (words : list ascii) :
  Forall (fun x => isDigit x = true) [a; b; c; d; e; f; g; h; i] ->
  Forall (fun x => x <> "010"%char) words ->
  parseLyrics stamp
    (string_of_list_ascii
       ("["%char :: a :: b :: ":"%char :: c :: d :: ":"%char :: e :: f
        :: "."%char :: g :: h :: i :: "]"%char :: words))
  = [LyricLine.mk (stamp (parseInt [a; b]) (parseInt [c; d])
                         (parseInt [e; f]))
                  (String g (String h (String i "")))].
Proof.
  intros Hd Hw.
  assert (Hall : forall x, In x [a; b; c; d; e; f; g; h; i] ->
                           isDigit x = true).
  { rewrite Forall_forall in Hd. exact Hd. }
  assert (Ha := Hall a). assert (Hb := Hall b). assert (Hc := Hall c).
  assert (Hd' := Hall d). assert (He := Hall e). assert (Hf := Hall f).
  assert (Hg := Hall g). assert (Hh := Hall h). assert (Hi := Hall i).
  simpl in Ha, Hb, Hc, Hd', He, Hf, Hg, Hh, Hi.
  unfold parseLyrics. simpl truthy_string. cbv iota. simpl negb. cbv iota.
  rewrite list_ascii_of_string_of_list_ascii.
  set (line := "["%char :: _).
  assert (Hline : Forall (fun x => x <> "010"%char) line).
  { subst line.
    constructor; [discriminate|].
    repeat (constructor;
            [first [discriminate
                   | apply digit_not_bracket; auto 12]|]).
    exact Hw. }
  change line with (joinLines [line]).
  rewrite splitLines_join by (constructor; [exact Hline | constructor]).
  simpl rev. simpl app. simpl flat_map. rewrite app_nil_r.
  unfold parseLine. subst line. rewrite matchLine_cons.
  unfold stampAt.
  rewrite Ha, Hb, Hc, Hd', He, Hf, Hg, Hh, Hi by auto 12.
  simpl. rewrite trim_digits by auto 12. reflexivity.
Qed.

Lemma stamped_line_gives_its_digits_witness :
  Forall (fun x => isDigit x = true)
         (list_ascii_of_string "000105250") /\
  parseLyrics (fun m s ms => inject_Z (Z.of_nat (m + s + ms)))
    "[00:01:05.250] First line"
  = [LyricLine.mk (inject_Z 6) "250"].
Proof.
  assert (Hd : Forall (fun x => isDigit x = true)
                      (list_ascii_of_string "000105250"))
    by (repeat constructor).
  split; [exact Hd|].
  apply (stamped_line_gives_its_digits
           (fun m s ms => inject_Z (Z.of_nat (m + s + ms)))
           "0" "0" "0" "1" "0" "5" "2" "5" "0"
           (list_ascii_of_string " First line") Hd).
  repeat constructor; discriminate.
Defined.

(** ** The highlighted lyric *)

Lemma lyricIndex_from_range (k : Z) (ct : Q) (ls : list LyricLine.t) :
  lyricIndex_from k ct ls = -1 \/
  k <= lyricIndex_from k ct ls < k + Z.of_nat (List.length ls).
Proof.
  revert k. induction ls as [|l ls IH]; intros k; simpl List.length;
    cbn [lyricIndex_from].
  - now left.
  - destruct (_ && _).
    + right. lia.
    + destruct (IH (k + 1)) as [H|H]; [now left | right; lia].
Qed.

Lemma lyricIndex_from_found (k : Z) (ct : Q) (ls : list LyricLine.t) :
  0 <= k ->
  k <= lyricIndex_from k ct ls ->
  exists line,
    nth_error ls (Z.to_nat (lyricIndex_from k ct ls - k)) = Some line /\
    (LyricLine.time line <= ct)%Q /\
    forall next,
      nth_error ls (S (Z.to_nat (lyricIndex_from k ct ls - k))) = Some next ->
      (ct < LyricLine.time next)%Q.
Proof.
  revert k. induction ls as [|l ls IH]; intros k Hk; cbn [lyricIndex_from].
  - lia.
  - destruct (Qle_bool (LyricLine.time l) ct) eqn:E1; simpl andb.
    + destruct ls as [|n ls'] eqn:Els.
      * intros _. rewrite Z.sub_diag. simpl. exists l.
        split; [reflexivity|]. split; [now apply Qle_bool_iff|].
        intros next H. discriminate.
      * destruct (negb (Qle_bool (LyricLine.time n) ct)) eqn:E2.
        -- intros _. rewrite Z.sub_diag. simpl. exists l.
           split; [reflexivity|]. split; [now apply Qle_bool_iff|].
           intros next [= <-]. apply Qnot_le_lt. intros H.
           apply Qle_bool_iff in H. rewrite H in E2. discriminate.
        -- rewrite <- Els in *. intros H.
           destruct (lyricIndex_from_range (k + 1) ct ls) as [R|R]; [lia|].
           destruct (IH (k + 1)) as (line & Hn & Ht & Hnext); [lia | lia |].
           replace (Z.to_nat (lyricIndex_from (k + 1) ct ls - k))
             with (S (Z.to_nat (lyricIndex_from (k + 1) ct ls - (k + 1))))
             by lia.
           exists line. auto.
    + cbv iota. intros H.
      destruct (lyricIndex_from_range (k + 1) ct ls) as [R|R]; [lia|].
      destruct (IH (k + 1)) as (line & Hn & Ht & Hnext); [lia | lia |].
      replace (Z.to_nat (lyricIndex_from (k + 1) ct ls - k))
        with (S (Z.to_nat (lyricIndex_from (k + 1) ct ls - (k + 1))))
        by lia.
      exists line. auto.
Qed.

Lemma lyricIndex_from_cons (k : Z) (ct : Q) (line : LyricLine.t)
    (rest : list LyricLine.t) :
  lyricIndex_from k ct (line :: rest)
  = if Qle_bool (LyricLine.time line) ct
       && match rest with
          | [] => true
          | nextLine :: _ =>
              negb (Qle_bool (LyricLine.time nextLine) ct)
          end
    then k
    else lyricIndex_from (k + 1) ct rest.
Proof. reflexivity. Qed.

Lemma lyricIndex_from_started (k : Z) (ct : Q) (first : LyricLine.t)
    (rest : list LyricLine.t) :
  (LyricLine.time first <= ct)%Q ->
  k <= lyricIndex_from k ct (first :: rest).
Proof.
  revert k first. induction rest as [|n rest IH]; intros k first H;
    rewrite lyricIndex_from_cons; apply Qle_bool_iff in H as Hb; rewrite Hb;
    simpl andb.
  - cbv iota. lia.
  - destruct (Qle_bool (LyricLine.time n) ct) eqn:E; simpl negb; cbv iota.
    + apply Qle_bool_iff in E. specialize (IH (k + 1) n E). lia.
    + lia.
Qed.

Lemma lyricIndex_from_early (k : Z) (ct : Q) (ls : list LyricLine.t) :
  Forall (fun l => (ct < LyricLine.time l)%Q) ls ->
  lyricIndex_from k ct ls = -1.
Proof.
  intros H. revert k. induction H as [|l ls Hl Hls IH]; intros k;
    [reflexivity|].
  rewrite lyricIndex_from_cons.
  destruct (Qle_bool (LyricLine.time l) ct) eqn:E.
  - apply Qle_bool_iff in E. exfalso. now apply (Qlt_not_le _ _ Hl).
  - simpl andb. cbv iota. apply IH.
Qed.

(** X29. The highlighted lyric is [-1] or an index of the list.  The line
    at that index has started and the line after it, if there is one, has
    not.  As soon as the first line has started some line is highlighted,
    in whatever order the lines are; before every line, none is. *)
Theorem lyric_index_spec (ct : Q) (ls : list LyricLine.t) :
  (lyricIndex ct ls = -1 \/
   0 <= lyricIndex ct ls < Z.of_nat (List.length ls)) /\
  (forall line,
     at_index ls (lyricIndex ct ls) = Some line ->
     (LyricLine.time line <= ct)%Q /\
     forall next, at_index ls (lyricIndex ct ls + 1) = Some next ->
                  (ct < LyricLine.time next)%Q) /\
  (forall first rest,
     ls = first :: rest -> (LyricLine.time first <= ct)%Q ->
     0 <= lyricIndex ct ls) /\
  (Forall (fun l => (ct < LyricLine.time l)%Q) ls -> lyricIndex ct ls = -1).
Proof.
  unfold lyricIndex. split; [apply (lyricIndex_from_range 0)|].
  split; [|split].
  - intros line Hat. unfold at_index in *.
    destruct (lyricIndex_from 0 ct ls <? 0) eqn:E; [discriminate|].
    apply Z.ltb_ge in E.
    destruct (lyricIndex_from_found 0 ct ls (Z.le_refl 0) E)
      as (l & Hn & Ht & Hnext).
    rewrite Z.sub_0_r in Hn, Hnext. rewrite Hn in Hat. injection Hat as <-.
    split; [exact Ht|]. intros next Hx.
    destruct (lyricIndex_from 0 ct ls + 1 <? 0) eqn:E'; [discriminate|].
    apply Hnext. rewrite <- Hx. f_equal. lia.
  - intros first rest -> H. now apply lyricIndex_from_started.
  - apply lyricIndex_from_early.
Qed.

Lemma lyric_index_spec_witness :
  lyricIndex (7 # 2)
    [LyricLine.mk 1 "a"; LyricLine.mk 3 "b"; LyricLine.mk 5 "c"] = 1 /\
  (3 <= 7 # 2)%Q /\ (7 # 2 < 5)%Q.
Proof.
  split; [reflexivity|].
  destruct (proj1 (proj2 (lyric_index_spec (7 # 2)
             [LyricLine.mk 1 "a"; LyricLine.mk 3 "b"; LyricLine.mk 5 "c"]))
             (LyricLine.mk 3 "b") eq_refl) as [H1 H2].
  split; [exact H1 | exact (H2 (LyricLine.mk 5 "c") eq_refl)].
Defined.

(** Either no line is highlighted and the first line, if any, has not
    started, or the highlighted line has started and the next has not. *)
Lemma lyric_index_range_or_none (ct : Q) (ls : list LyricLine.t) :
  (lyricIndex ct ls = -1 /\
   forall first rest, ls = first :: rest ->
                      (ct < LyricLine.time first)%Q) \/
  (exists cur,
     at_index ls (lyricIndex ct ls) = Some cur /\
     (LyricLine.time cur <= ct)%Q /\
     (forall next, at_index ls (lyricIndex ct ls + 1) = Some next ->
                   (ct < LyricLine.time next)%Q) /\
     0 <= lyricIndex ct ls).
Proof.
  unfold lyricIndex.
  destruct (lyricIndex_from_range 0 ct ls) as [R|R].
  - left. split; [exact R|]. intros first rest -> .
    apply Qnot_le_lt. intros H.
    pose proof (lyricIndex_from_started 0 ct first rest H). lia.
  - right.
    destruct (lyricIndex_from_found 0 ct ls (Z.le_refl 0) (proj1 R))
      as (l & Hn & Ht & Hnext).
    rewrite Z.sub_0_r in Hn, Hnext.
    exists l. unfold at_index.
    destruct (lyricIndex_from 0 ct ls <? 0) eqn:E;
      [apply Z.ltb_lt in E; lia|].
    repeat split; auto; [|lia].
    intros next Hx.
    destruct (lyricIndex_from 0 ct ls + 1 <? 0) eqn:E'; [discriminate|].
    apply Hnext. rewrite <- Hx. f_equal. lia.
Qed.

Lemma sorted_nth {A : Type} (R : A -> A -> Prop) (l : list A) (i j : nat)
    (x y : A) :
  StronglySorted R l ->
  nth_error l i = Some x -> nth_error l j = Some y -> (i < j)%nat -> R x y.
Proof.
  intros Hs. revert i j. induction Hs as [|a l Hs IH Ha]; intros i j Hi Hj Hlt.
  - destruct i; discriminate.
  - destruct j as [|j]; [lia|]. simpl in Hj.
    destruct i as [|i]; simpl in Hi.
    + injection Hi as ->. rewrite Forall_forall in Ha. apply Ha.
      now apply nth_error_In in Hj.
    + apply (IH i j); auto. lia.
Qed.

(** X30. When the lines are in the order of their times, the highlighted
    lyric is the last line that has started: a line has started exactly
    when its index is at most the highlighted one.  In particular no line
    is highlighted exactly when none has started. *)
Theorem lyric_index_is_last_started (ct : Q) (ls : list LyricLine.t) :
  StronglySorted (fun a b => (LyricLine.time a <= LyricLine.time b)%Q) ls ->
  forall j line,
    at_index ls j = Some line ->
    ((LyricLine.time line <= ct)%Q <-> j <= lyricIndex ct ls).
Proof.
  intros Hs j line Hj.
  destruct (lyric_index_range_or_none ct ls) as [Hnone|Hin].
  - (* nothing highlighted: no line has started *)
    destruct Hnone as [Hidx Hfirst]. rewrite Hidx.
    unfold at_index in Hj. destruct (j <? 0) eqn:Ej; [discriminate|].
    apply Z.ltb_ge in Ej. split; [|lia]. intros Hle. exfalso.
    destruct ls as [|first rest]; [now destruct (Z.to_nat j)|].
    specialize (Hfirst first rest eq_refl).
    apply (Qlt_not_le _ _ Hfirst).
    destruct (Z.to_nat j) as [|n] eqn:En.
    + simpl in Hj. now injection Hj as ->.
    + eapply Qle_trans; [|exact Hle].
      apply (sorted_nth _ (first :: rest) O (S n) first line Hs eq_refl Hj).
      lia.
  - destruct Hin as (cur & Hcur & Hstart & Hnext & Hpos).
    unfold at_index in Hj, Hcur, Hnext.
    destruct (j <? 0) eqn:Ej; [discriminate|]. apply Z.ltb_ge in Ej.
    destruct (lyricIndex ct ls <? 0) eqn:Ei; [discriminate|].
    assert (Hnext' : forall next,
              nth_error ls (Z.to_nat (lyricIndex ct ls + 1)) = Some next ->
              (ct < LyricLine.time next)%Q).
    { intros next Hx. apply Hnext.
      destruct (lyricIndex ct ls + 1 <? 0) eqn:E1;
        [apply Z.ltb_lt in E1; lia | exact Hx]. }
    clear Hnext.
    split.
    + intros Hle. destruct (Z_le_gt_dec j (lyricIndex ct ls)) as [?|Hgt];
        [assumption|]. exfalso.
      destruct (nth_error ls (Z.to_nat (lyricIndex ct ls + 1))) as [next|]
        eqn:En.
      * assert (Hlt : (ct < LyricLine.time next)%Q) by now apply Hnext'.
        apply (Qlt_not_le _ _ Hlt).
        destruct (Z.eq_dec j (lyricIndex ct ls + 1)) as [->|Hne].
        -- rewrite En in Hj. now injection Hj as ->.
        -- eapply Qle_trans; [|exact Hle].
           apply (sorted_nth _ ls _ _ next line Hs En Hj). lia.
      * apply nth_error_None in En.
        assert (Z.to_nat j < List.length ls)%nat
          by (apply nth_error_Some; congruence).
        lia.
    + intros Hle. destruct (Z.eq_dec j (lyricIndex ct ls)) as [->|Hne].
      * rewrite Hcur in Hj. now injection Hj as <-.
      * eapply Qle_trans; [|exact Hstart].
        apply (sorted_nth _ ls _ _ line cur Hs Hj Hcur). lia.
Qed.

Lemma lyric_index_is_last_started_witness :
  StronglySorted (fun a b => (LyricLine.time a <= LyricLine.time b)%Q)
    [LyricLine.mk 1 "a"; LyricLine.mk 3 "b"; LyricLine.mk 5 "c"] /\
  ((LyricLine.time (LyricLine.mk 5 "c") <= 7 # 2)%Q <->
   2 <= lyricIndex (7 # 2)
          [LyricLine.mk 1 "a"; LyricLine.mk 3 "b"; LyricLine.mk 5 "c"]).
Proof.
  assert (Hs : StronglySorted
                 (fun a b => (LyricLine.time a <= LyricLine.time b)%Q)
                 [LyricLine.mk 1 "a"; LyricLine.mk 3 "b";
                  LyricLine.mk 5 "c"]).
  { repeat constructor; simpl; unfold Qle; simpl; lia. }
  split; [exact Hs|].
  exact (lyric_index_is_last_started (7 # 2) _ Hs 2 (LyricLine.mk 5 "c")
           eq_refl).
Defined.

Lemma delete_then_lookup_witness :
  ~ In 9 (map id (records (db (env libraryABC)))) /\
  records (snd (deleteTrackFromDB RequestSucceeds 9 (db (env libraryABC))))
  = records (db (env libraryABC)) /\
  find_track (Some 2)
    (records (snd (deleteTrackFromDB RequestSucceeds 2 (db (env libraryABC)))))
  = None.
Proof.
  assert (H : ~ In 9 (map id (records (db (env libraryABC))))).
  { vm_compute. intros [H|[H|[H|[]]]]; discriminate. }
  split; [exact H|]. split.
  - exact (proj2 (proj2 (proj2
             (delete_then_lookup 9 (db (env libraryABC))))) H).
  - exact (proj1 (proj2 (delete_then_lookup 2 (db (env libraryABC))))).
Defined.

Lemma stripExtension_only_drops_extension_witness :
  ~ In "."%char (list_ascii_of_string "README") /\
  stripExtension "README" = "README".
Proof.
  assert (H : ~ In "."%char (list_ascii_of_string "README")).
  { simpl. intuition discriminate. }
  split; [exact H|].
  exact (proj2 (stripExtension_only_drops_extension "README") H).
Defined.
